(** * gamelib: resilient MQTT client wrapper and pooled Redis service

  A shallow embedding of [MqttClientWrapper] (topic matching, dispatch,
  reconnection with backoff, disconnect) and of [RedisService]
  (pool-backed [withClient], [set], [get], [update]) together with the
  properties the specification states about them. *)

From Stdlib Require Import ZArith Lia Bool List String Ascii.
From stdpp Require Import base option list strings gmap.
Import ListNotations.

Local Open Scope string_scope.
Local Open Scope list_scope.

(** ** Topic matching: [MqttClientWrapper.matchTopic] *)

Module TopicMatcher.

(** [s.split(sep)] for a one-character separator: never the empty array,
    a trailing separator yields a trailing empty segment. *)
Fixpoint split (sep : ascii) (s : string) : list string :=
  match s with
  | EmptyString => [EmptyString]
  | String c s' =>
      if Ascii.eqb c sep then EmptyString :: split sep s'
      else match split sep s' with
           | [] => [String c EmptyString]
           | seg :: segs => String c seg :: segs
           end
  end.

(** [!t] where [t = topicSegments[i]]: [undefined] (index out of range)
    and the empty string are the falsy values a segment can take. *)
Definition falsy (t : option string) : bool :=
  match t with
  | None => true
  | Some s => String.eqb s ""
  end.

(** [p !== t] with [p] a string and [t] a string or [undefined]. *)
Definition strict_neq (p : string) (t : option string) : bool :=
  match t with
  | None => true
  | Some s => negb (String.eqb p s)
  end.

(** The [for] loop of [matchTopic]: [rest] is what is left of
    [patternSegments] from index [i] on, so its head is
    [patternSegments[i]]; [topicSegments[i]] is a lookup that may be out
    of range. *)
Fixpoint matchTopic_loop (patternSegments topicSegments rest : list string)
    (i : nat) : bool :=
  match rest with
  | [] => Nat.eqb (length patternSegments) (length topicSegments)
  | p :: rest' =>
      let t := topicSegments !! i in
      if String.eqb p "#" then Nat.eqb i (length patternSegments - 1)
      else if String.eqb p "+" then
        if falsy t then false
        else matchTopic_loop patternSegments topicSegments rest' (S i)
      else if strict_neq p t then false
      else matchTopic_loop patternSegments topicSegments rest' (S i)
  end.

Definition matchTopic_segments (patternSegments topicSegments : list string)
    : bool :=
  matchTopic_loop patternSegments topicSegments patternSegments 0.

Definition matchTopic (pattern topic : string) : bool :=
  matchTopic_segments (split "/" pattern) (split "/" topic).

(** The wildcard semantics as the specification words it, over the two
    segment sequences. *)
Inductive Matches : list string -> list string -> Prop :=
| Matches_exhausted :
    (* pattern exhausted, no multi-level wildcard fired: counts equal *)
    Matches [] []
| Matches_multi ts :
    (* multi-level wildcard in last position: any remaining segments *)
    Matches ["#"] ts
| Matches_single ps t ts :
    (* single-level wildcard: one existing, non-empty segment *)
    t <> "" -> Matches ps ts -> Matches ("+" :: ps) (t :: ts)
| Matches_literal p ps ts :
    (* any other segment: literal equality *)
    p <> "#" -> p <> "+" -> Matches ps ts -> Matches (p :: ps) (p :: ts).

(** The same semantics as a decision procedure on the two sequences. *)
Fixpoint matches_spec (ps ts : list string) : bool :=
  match ps with
  | [] => match ts with [] => true | _ :: _ => false end
  | p :: ps' =>
      if String.eqb p "#" then match ps' with [] => true | _ :: _ => false end
      else match ts with
           | [] => false
           | t :: ts' =>
               if String.eqb p "+" then negb (String.eqb t "") && matches_spec ps' ts'
               else String.eqb p t && matches_spec ps' ts'
           end
  end.

End TopicMatcher.

(** ** The broker connection: [MqttClientWrapper] *)

Module Mqtt.

(** [ConnectionStatus]: every lifecycle callback is optional; a field says
    whether the caller supplied it as a function. *)
Record ConnectionStatus := mkConnectionStatus {
  has_connecting : bool;
  has_connected : bool;
  has_disconnected : bool;
  has_timedout : bool;
  has_closed : bool;
  has_error : bool
}.

Inductive Notification :=
| connecting | connected | disconnected | timedout | closed | error.

#[global] Instance Notification_eq_dec : EqDecision Notification.
Proof. solve_decision. Defined.

Definition supplied (cb : ConnectionStatus) (n : Notification) : bool :=
  match n with
  | connecting => has_connecting cb
  | connected => has_connected cb
  | disconnected => has_disconnected cb
  | timedout => has_timedout cb
  | closed => has_closed cb
  | error => has_error cb
  end.

(** A caller that implements every notification. *)
Definition every_callback : ConnectionStatus :=
  mkConnectionStatus true true true true true true.

(** An [EventHandler] is a caller's function: it is known by a name and by
    whether a call to it throws. *)
Record EventHandler := mkHandler {
  handler_name : nat;
  handler_throws : bool
}.

(** The transport object returned by [mqtt.connect], with the library's
    [connected] property. *)
Record Client := mkClient {
  client_id : nat;
  client_connected : bool
}.

Inductive TimerKind := ReconnectTimer | ConnectionTimer.

#[global] Instance EventHandler_eq_dec : EqDecision EventHandler.
Proof. solve_decision. Defined.

#[global] Instance TimerKind_eq_dec : EqDecision TimerKind.
Proof. solve_decision. Defined.

Inductive Diagnostic :=
| NoHandlerMatched (topic : string)
| ErrorInMessageHandler
| MqttError
| FailedToSubscribe (topic : string)
| FailedToPublish (topic : string)
| FailedToUnsubscribe (topic : string).

#[global] Instance Diagnostic_eq_dec : EqDecision Diagnostic.
Proof. solve_decision. Defined.

(** What the wrapper does to the outside world, in the order it does it. *)
Inductive Effect :=
| Notify (n : Notification)
| MqttConnect (c : nat)
| ClientEnd (c : nat) (completion : bool)
| ClientSubscribe (c : nat) (topic : string)
| ClientUnsubscribe (c : nat) (topic : string)
| ClientPublish (c : nat) (topic message : string)
| SetTimeout (id : nat) (kind : TimerKind) (delay : Z)
| ClearTimeout (id : nat)
| HandlerCall (pattern : string) (h : EventHandler) (topic message : string)
| ConsoleWarn (d : Diagnostic)
| ConsoleError (d : Diagnostic).

#[global] Instance Effect_eq_dec : EqDecision Effect.
Proof. solve_decision. Defined.

(** The private fields of the class ([url] and the transport options go
    to the library as they are and are left out; the three intervals are
    whole milliseconds), followed by the part of the runtime the wrapper
    acts on: the pending timers of the event loop, a supply of fresh timer
    and client names, the number of completion callbacks handed to [end]
    that have not run yet, and the effects so far. *)
Record Wrapper := mkWrapper {
  client : option Client;
  reconnectInterval : Z;
  maxReconnectInterval : Z;
  currentReconnectInterval : Z;
  connectionTimeout : Z;
  eventHandlers : list (string * EventHandler);
  callback : ConnectionStatus;
  reconnectTimeoutId : option nat;
  connectionTimeoutId : option nat;
  isExplicitlyDisconnected : bool;
  timers : list (nat * TimerKind);
  next_id : nat;
  pending_end : nat;
  effects : list Effect
}.

Definition set_client (v : option Client) (w : Wrapper) : Wrapper :=
  {| client := v;
     reconnectInterval := reconnectInterval w;
     maxReconnectInterval := maxReconnectInterval w;
     currentReconnectInterval := currentReconnectInterval w;
     connectionTimeout := connectionTimeout w;
     eventHandlers := eventHandlers w;
     callback := callback w;
     reconnectTimeoutId := reconnectTimeoutId w;
     connectionTimeoutId := connectionTimeoutId w;
     isExplicitlyDisconnected := isExplicitlyDisconnected w;
     timers := timers w;
     next_id := next_id w;
     pending_end := pending_end w;
     effects := effects w |}.

Definition set_currentReconnectInterval (v : Z) (w : Wrapper) : Wrapper :=
  {| client := client w;
     reconnectInterval := reconnectInterval w;
     maxReconnectInterval := maxReconnectInterval w;
     currentReconnectInterval := v;
     connectionTimeout := connectionTimeout w;
     eventHandlers := eventHandlers w;
     callback := callback w;
     reconnectTimeoutId := reconnectTimeoutId w;
     connectionTimeoutId := connectionTimeoutId w;
     isExplicitlyDisconnected := isExplicitlyDisconnected w;
     timers := timers w;
     next_id := next_id w;
     pending_end := pending_end w;
     effects := effects w |}.

Definition set_eventHandlers (v : list (string * EventHandler)) (w : Wrapper) : Wrapper :=
  {| client := client w;
     reconnectInterval := reconnectInterval w;
     maxReconnectInterval := maxReconnectInterval w;
     currentReconnectInterval := currentReconnectInterval w;
     connectionTimeout := connectionTimeout w;
     eventHandlers := v;
     callback := callback w;
     reconnectTimeoutId := reconnectTimeoutId w;
     connectionTimeoutId := connectionTimeoutId w;
     isExplicitlyDisconnected := isExplicitlyDisconnected w;
     timers := timers w;
     next_id := next_id w;
     pending_end := pending_end w;
     effects := effects w |}.

Definition set_reconnectTimeoutId (v : option nat) (w : Wrapper) : Wrapper :=
  {| client := client w;
     reconnectInterval := reconnectInterval w;
     maxReconnectInterval := maxReconnectInterval w;
     currentReconnectInterval := currentReconnectInterval w;
     connectionTimeout := connectionTimeout w;
     eventHandlers := eventHandlers w;
     callback := callback w;
     reconnectTimeoutId := v;
     connectionTimeoutId := connectionTimeoutId w;
     isExplicitlyDisconnected := isExplicitlyDisconnected w;
     timers := timers w;
     next_id := next_id w;
     pending_end := pending_end w;
     effects := effects w |}.

Definition set_connectionTimeoutId (v : option nat) (w : Wrapper) : Wrapper :=
  {| client := client w;
     reconnectInterval := reconnectInterval w;
     maxReconnectInterval := maxReconnectInterval w;
     currentReconnectInterval := currentReconnectInterval w;
     connectionTimeout := connectionTimeout w;
     eventHandlers := eventHandlers w;
     callback := callback w;
     reconnectTimeoutId := reconnectTimeoutId w;
     connectionTimeoutId := v;
     isExplicitlyDisconnected := isExplicitlyDisconnected w;
     timers := timers w;
     next_id := next_id w;
     pending_end := pending_end w;
     effects := effects w |}.

Definition set_isExplicitlyDisconnected (v : bool) (w : Wrapper) : Wrapper :=
  {| client := client w;
     reconnectInterval := reconnectInterval w;
     maxReconnectInterval := maxReconnectInterval w;
     currentReconnectInterval := currentReconnectInterval w;
     connectionTimeout := connectionTimeout w;
     eventHandlers := eventHandlers w;
     callback := callback w;
     reconnectTimeoutId := reconnectTimeoutId w;
     connectionTimeoutId := connectionTimeoutId w;
     isExplicitlyDisconnected := v;
     timers := timers w;
     next_id := next_id w;
     pending_end := pending_end w;
     effects := effects w |}.

Definition set_timers (v : list (nat * TimerKind)) (w : Wrapper) : Wrapper :=
  {| client := client w;
     reconnectInterval := reconnectInterval w;
     maxReconnectInterval := maxReconnectInterval w;
     currentReconnectInterval := currentReconnectInterval w;
     connectionTimeout := connectionTimeout w;
     eventHandlers := eventHandlers w;
     callback := callback w;
     reconnectTimeoutId := reconnectTimeoutId w;
     connectionTimeoutId := connectionTimeoutId w;
     isExplicitlyDisconnected := isExplicitlyDisconnected w;
     timers := v;
     next_id := next_id w;
     pending_end := pending_end w;
     effects := effects w |}.

Definition set_next_id (v : nat) (w : Wrapper) : Wrapper :=
  {| client := client w;
     reconnectInterval := reconnectInterval w;
     maxReconnectInterval := maxReconnectInterval w;
     currentReconnectInterval := currentReconnectInterval w;
     connectionTimeout := connectionTimeout w;
     eventHandlers := eventHandlers w;
     callback := callback w;
     reconnectTimeoutId := reconnectTimeoutId w;
     connectionTimeoutId := connectionTimeoutId w;
     isExplicitlyDisconnected := isExplicitlyDisconnected w;
     timers := timers w;
     next_id := v;
     pending_end := pending_end w;
     effects := effects w |}.

Definition set_pending_end (v : nat) (w : Wrapper) : Wrapper :=
  {| client := client w;
     reconnectInterval := reconnectInterval w;
     maxReconnectInterval := maxReconnectInterval w;
     currentReconnectInterval := currentReconnectInterval w;
     connectionTimeout := connectionTimeout w;
     eventHandlers := eventHandlers w;
     callback := callback w;
     reconnectTimeoutId := reconnectTimeoutId w;
     connectionTimeoutId := connectionTimeoutId w;
     isExplicitlyDisconnected := isExplicitlyDisconnected w;
     timers := timers w;
     next_id := next_id w;
     pending_end := v;
     effects := effects w |}.

Definition set_effects (v : list Effect) (w : Wrapper) : Wrapper :=
  {| client := client w;
     reconnectInterval := reconnectInterval w;
     maxReconnectInterval := maxReconnectInterval w;
     currentReconnectInterval := currentReconnectInterval w;
     connectionTimeout := connectionTimeout w;
     eventHandlers := eventHandlers w;
     callback := callback w;
     reconnectTimeoutId := reconnectTimeoutId w;
     connectionTimeoutId := connectionTimeoutId w;
     isExplicitlyDisconnected := isExplicitlyDisconnected w;
     timers := timers w;
     next_id := next_id w;
     pending_end := pending_end w;
     effects := v |}.

Inductive Error := NotConnected.

Inductive Completion := Normal | Throws (e : Error).

Definition emit (e : Effect) (w : Wrapper) : Wrapper :=
  set_effects (effects w ++ [e]) w.

(** [if (this.callback.x && typeof this.callback.x === 'function')
    this.callback.x()] *)
Definition notify (n : Notification) (w : Wrapper) : Wrapper :=
  if supplied (callback w) n then emit (Notify n) w else w.

(** [setTimeout(cb, delay)]: a fresh pending timer. *)
Definition setTimeout (kind : TimerKind) (delay : Z) (w : Wrapper)
    : nat * Wrapper :=
  let id := next_id w in
  (id, emit (SetTimeout id kind delay)
         (set_timers (timers w ++ [(id, kind)]) (set_next_id (S id) w))).

(** [clearTimeout(id)]: no effect on a timer that fired or was cleared, nor
    on [null]. *)
Definition clearTimeout (id : option nat) (w : Wrapper) : Wrapper :=
  match id with
  | None => w
  | Some i =>
      emit (ClearTimeout i)
        (set_timers (filter (fun t => fst t <> i) (timers w)) w)
  end.

(** [this.client?.end(true)] and [if (this.client) this.client.end(true)] *)
Definition end_client (w : Wrapper) : Wrapper :=
  match client w with
  | Some c => emit (ClientEnd (client_id c) false) w
  | None => w
  end.

Definition MqttClientWrapper (reconnectInterval maxReconnectInterval
    connectionTimeout : option Z) (connstatus : ConnectionStatus) : Wrapper :=
  let reconnect := default 1000%Z reconnectInterval in
  {| client := None;
     reconnectInterval := reconnect;
     maxReconnectInterval := default 30000%Z maxReconnectInterval;
     currentReconnectInterval := reconnect;
     connectionTimeout := default 5000%Z connectionTimeout;
     eventHandlers := [];
     callback := connstatus;
     reconnectTimeoutId := None;
     connectionTimeoutId := None;
     isExplicitlyDisconnected := false;
     timers := [];
     next_id := 1;
     pending_end := 0;
     effects := [] |}.

Definition connect (w : Wrapper) : Wrapper :=
  let w := end_client w in
  let w := set_isExplicitlyDisconnected false w in
  let w := notify connecting w in
  let c := next_id w in
  let w := emit (MqttConnect c)
             (set_client (Some (mkClient c false)) (set_next_id (S c) w)) in
  let '(id, w) := setTimeout ConnectionTimer (connectionTimeout w) w in
  set_connectionTimeoutId (Some id) w.

(** The [once('connect')] listener; the library has set [connected]. *)
Definition on_connect (w : Wrapper) : Wrapper :=
  let w := set_client (option_map (fun c => mkClient (client_id c) true)
                         (client w)) w in
  let w := clearTimeout (connectionTimeoutId w) w in
  let w := set_currentReconnectInterval (reconnectInterval w) w in
  notify connected w.

(** The body of the [for ... of this.eventHandlers.entries()] loop inside
    the [try]: [None] when a handler threw, otherwise the value of
    [matched] when the loop ends. *)
Fixpoint message_loop (entries : list (string * EventHandler))
    (topic message : string) (matched : bool) (w : Wrapper)
    : option bool * Wrapper :=
  match entries with
  | [] => (Some matched, w)
  | (pattern, handler) :: entries' =>
      if TopicMatcher.matchTopic pattern topic then
        let w := emit (HandlerCall pattern handler topic message) w in
        if handler_throws handler then (None, w)
        else message_loop entries' topic message true w
      else message_loop entries' topic message matched w
  end.

(** The ['message'] listener. *)
Definition on_message (topic message : string) (w : Wrapper) : Wrapper :=
  match message_loop (eventHandlers w) topic message false w with
  | (Some matched, w) =>
      if matched then w else emit (ConsoleWarn (NoHandlerMatched topic)) w
  | (None, w) => emit (ConsoleError ErrorInMessageHandler) w
  end.

(** The ['message'] listener of the first revision of the class
    (src/mqtt/MQTTClient.ts): a lookup of the topic itself, kept as a
    commented-out block in the current one. *)
Definition on_message_exact (topic message : string) (w : Wrapper) : Wrapper :=
  match snd <$> (list_find (fun e => bool_decide (fst e = topic)) (eventHandlers w)) with
  | Some (pattern, handler) => emit (HandlerCall pattern handler topic message) w
  | None => emit (ConsoleWarn (NoHandlerMatched topic)) w
  end.

Definition reconnectWithBackoff (w : Wrapper) : Wrapper :=
  let '(id, w) := setTimeout ReconnectTimer (currentReconnectInterval w) w in
  set_reconnectTimeoutId (Some id) w.

(** The ['close'] listener; the library has reset [connected]. *)
Definition on_close (w : Wrapper) : Wrapper :=
  let w := set_client (option_map (fun c => mkClient (client_id c) false)
                         (client w)) w in
  let w := notify closed w in
  if isExplicitlyDisconnected w then w else reconnectWithBackoff w.

(** The ['error'] listener. *)
Definition on_error (w : Wrapper) : Wrapper :=
  let w := notify error w in
  let w := emit (ConsoleError MqttError) w in
  clearTimeout (connectionTimeoutId w) w.

(** The callback given to [setTimeout] in [reconnectWithBackoff]. *)
Definition reconnect_timer_fired (w : Wrapper) : Wrapper :=
  let w := notify connecting w in
  let w := connect w in
  set_currentReconnectInterval
    (Z.min (currentReconnectInterval w * 2) (maxReconnectInterval w)) w.

(** The callback given to [setTimeout] in [connect]. *)
Definition connection_timer_fired (w : Wrapper) : Wrapper :=
  let w := notify timedout w in
  end_client w.

(** The event loop runs the callback of a pending timer, once. *)
Definition timer_fired (id : nat) (w : Wrapper) : Wrapper :=
  match list_find (fun t => bool_decide (fst t = id)) (timers w) with
  | None => w
  | Some (_, (_, kind)) =>
      let w := set_timers
                 (filter (fun t => fst t <> id) (timers w)) w in
      match kind with
      | ReconnectTimer => reconnect_timer_fired w
      | ConnectionTimer => connection_timer_fired w
      end
  end.

Definition subscribe (topic : string) (w : Wrapper) : Completion * Wrapper :=
  match client w with
  | None => (Throws NotConnected, w)
  | Some c => (Normal, emit (ClientSubscribe (client_id c) topic) w)
  end.

(** The callback given to [client.subscribe]: [err] is the outcome the
    transport reports. *)
Definition subscribe_callback (topic : string) (err : bool) (w : Wrapper)
    : Wrapper :=
  if err then emit (ConsoleError (FailedToSubscribe topic)) w else w.

Definition publish (topic message : string) (w : Wrapper)
    : Completion * Wrapper :=
  match client w with
  | None => (Throws NotConnected, w)
  | Some c => (Normal, emit (ClientPublish (client_id c) topic message) w)
  end.

Definition publish_callback (topic : string) (err : bool) (w : Wrapper)
    : Wrapper :=
  if err then emit (ConsoleError (FailedToPublish topic)) w else w.

Definition unsubscribe (topic : string) (w : Wrapper) : Completion * Wrapper :=
  match client w with
  | None => (Throws NotConnected, w)
  | Some c => (Normal, emit (ClientUnsubscribe (client_id c) topic) w)
  end.

Definition unsubscribe_callback (topic : string) (err : bool) (w : Wrapper)
    : Wrapper :=
  if err then emit (ConsoleError (FailedToUnsubscribe topic)) w else w.

(** [Map.prototype.set]: an existing key keeps its place and takes the new
    value, a new key goes last. *)
Fixpoint map_set (key : string) (h : EventHandler)
    (entries : list (string * EventHandler)) : list (string * EventHandler) :=
  match entries with
  | [] => [(key, h)]
  | (k, h') :: entries' =>
      if String.eqb k key then (k, h) :: entries'
      else (k, h') :: map_set key h entries'
  end.

(** [Map.prototype.delete] *)
Definition map_delete (key : string) (entries : list (string * EventHandler))
    : list (string * EventHandler) :=
  filter (fun e => fst e <> key) entries.

Definition registerHandler (topic : string) (handler : EventHandler)
    (w : Wrapper) : Completion * Wrapper :=
  let w := set_eventHandlers (map_set topic handler (eventHandlers w)) w in
  subscribe topic w.

Definition unregisterHandler (topic : string) (w : Wrapper)
    : Completion * Wrapper :=
  let w := set_eventHandlers (map_delete topic (eventHandlers w)) w in
  unsubscribe topic w.

Definition disconnect (w : Wrapper) : Wrapper :=
  let w := set_isExplicitlyDisconnected true w in
  let w := match reconnectTimeoutId w with
           | Some id => set_reconnectTimeoutId None (clearTimeout (Some id) w)
           | None => w
           end in
  let w := match connectionTimeoutId w with
           | Some id => set_connectionTimeoutId None (clearTimeout (Some id) w)
           | None => w
           end in
  let w := set_eventHandlers [] w in
  match client w with
  | Some c =>
      set_pending_end (S (pending_end w)) (emit (ClientEnd (client_id c) true) w)
  | None => w
  end.

(** The completion callback given to [client.end] in [disconnect]. *)
Definition end_callback (w : Wrapper) : Wrapper :=
  let w := notify disconnected w in
  set_client None w.

(** The transport runs one of the completion callbacks it was handed. *)
Definition end_completed (w : Wrapper) : Wrapper :=
  match pending_end w with
  | O => w
  | S n => end_callback (set_pending_end n w)
  end.

Definition isConnected (w : Wrapper) : bool :=
  match client w with
  | Some c => client_connected c
  | None => false
  end.

(** What can happen to a wrapper between two calls of its methods: the
    listeners are closures over the wrapper, so an event acts on it in the
    same way whichever transport object emits it; the [connected] property
    that the library maintains is followed on the current one. *)
Inductive Event :=
| EvConnect
| EvMessage (topic message : string)
| EvClose
| EvError
| EvTimer (id : nat)
| EvEndCompleted
| EvSubscribed (topic : string) (err : bool)
| EvPublished (topic : string) (err : bool)
| EvUnsubscribed (topic : string) (err : bool).

Definition step (w : Wrapper) (e : Event) : Wrapper :=
  match e with
  | EvConnect => on_connect w
  | EvMessage topic message => on_message topic message w
  | EvClose => on_close w
  | EvError => on_error w
  | EvTimer id => timer_fired id w
  | EvEndCompleted => end_completed w
  | EvSubscribed topic err => subscribe_callback topic err w
  | EvPublished topic err => publish_callback topic err w
  | EvUnsubscribed topic err => unsubscribe_callback topic err w
  end.

Definition run (events : list Event) (w : Wrapper) : Wrapper :=
  fold_left step events w.

(** The public methods a caller may invoke; a method that throws leaves
    the state it reached. *)
Inductive Call :=
| CallConnect
| CallDisconnect
| CallRegisterHandler (topic : string) (handler : EventHandler)
| CallUnregisterHandler (topic : string)
| CallSubscribe (topic : string)
| CallPublish (topic message : string)
| CallUnsubscribe (topic : string).

Definition call (w : Wrapper) (c : Call) : Wrapper :=
  match c with
  | CallConnect => connect w
  | CallDisconnect => disconnect w
  | CallRegisterHandler topic handler => snd (registerHandler topic handler w)
  | CallUnregisterHandler topic => snd (unregisterHandler topic w)
  | CallSubscribe topic => snd (subscribe topic w)
  | CallPublish topic message => snd (publish topic message w)
  | CallUnsubscribe topic => snd (unsubscribe topic w)
  end.

(** The states a wrapper can be in: built by the constructor, then any
    interleaving of calls and events. *)
Inductive reachable : Wrapper -> Prop :=
| reachable_new ri mi ct cb : reachable (MqttClientWrapper ri mi ct cb)
| reachable_call w c : reachable w -> reachable (call w c)
| reachable_step w e : reachable w -> reachable (step w e).

(** The delays of the reconnect timers set, oldest first. *)
Definition reconnect_waits (es : list Effect) : list Z :=
  omap (fun e => match e with
                 | SetTimeout _ ReconnectTimer delay => Some delay
                 | _ => None
                 end) es.

(** A failed attempt: the connection closes and the reconnect timer that
    the close handler set runs. *)
Definition fail_once (w : Wrapper) : Wrapper :=
  let w := on_close w in
  match reconnectTimeoutId w with
  | Some id => timer_fired id w
  | None => w
  end.

(** The handlers called on behalf of the registered [pattern], oldest
    first. *)
Definition calls_for (pattern : string) (es : list Effect)
    : list EventHandler :=
  omap (fun e => match e with
                 | HandlerCall p h _ _ =>
                     if String.eqb p pattern then Some h else None
                 | _ => None
                 end) es.

(** What a message on [topic] makes of a registry whose handlers return:
    one call per matching entry, or the warning when there is none. *)
Definition dispatch (entries : list (string * EventHandler))
    (topic message : string) : list Effect :=
  let calls :=
    map (fun e => HandlerCall (fst e) (snd e) topic message)
      (filter (fun e => TopicMatcher.matchTopic (fst e) topic = true) entries) in
  match calls with
  | [] => [ConsoleWarn (NoHandlerMatched topic)]
  | _ :: _ => calls
  end.

(** Timer names come from [next_id]: the pending ones are older. *)
Definition timers_fresh (w : Wrapper) : Prop :=
  Forall (fun t => fst t < next_id w) (timers w).

Definition is_reconnect (e : Effect) : bool :=
  match e with
  | SetTimeout _ ReconnectTimer _ => true
  | MqttConnect _ => true
  | _ => false
  end.

(** How many times the caller was told [n]. *)
Definition notifications (n : Notification) (es : list Effect) : nat :=
  length (filter (fun e => e = Notify n) es).

(** The reconnect timers set and the connections opened. *)
Definition reconnect_attempts (es : list Effect) : list Effect :=
  filter (fun e => is_reconnect e = true) es.

Arguments notifications : simpl never.
Arguments reconnect_attempts : simpl never.

(** Every pending reconnect timer is the one the wrapper remembers. *)
Definition reconnect_timer_tracked (w : Wrapper) : Prop :=
  forall id, (id, ReconnectTimer) ∈ timers w -> reconnectTimeoutId w = Some id.

(** Calls of handlers and lines on the console. *)
Definition is_log (e : Effect) : bool :=
  match e with
  | HandlerCall _ _ _ _ | ConsoleWarn _ | ConsoleError _ => true
  | _ => false
  end.

(** The state an explicit disconnect leaves: the flag is set and no
    reconnect timer is pending. *)
Definition shut_down (w : Wrapper) : Prop :=
  isExplicitlyDisconnected w = true
  /\ forall id, (id, ReconnectTimer) ∉ timers w.

(** A connection that the broker closed after it was established: the
    transport object is still there, a reconnect timer is pending. *)
Definition broker_closed : Wrapper :=
  on_close (on_connect
    (connect (MqttClientWrapper None None None every_callback))).

(** One ordinary reconnection with the default options: the connection
    fails (close event), the reconnect timer runs and [connect] ends the
    transport it replaces, whose listeners are still attached; that
    transport reports its end with a close event, and the new connection
    fails as well. *)
Definition replaced_transport_closed : Wrapper :=
  run [EvClose; EvTimer 3; EvClose; EvClose]
    (connect (MqttClientWrapper None None None every_callback)).

(** The two registrations of the specification's example, on a connected
    wrapper. *)
Definition two_patterns : Wrapper :=
  let w := connect (MqttClientWrapper None None None every_callback) in
  let w := snd (registerHandler "x/+" (mkHandler 1 false) w) in
  snd (registerHandler "x/y" (mkHandler 2 false) w).

End Mqtt.

(** ** The pooled key-value service: [RedisService] *)

Module Redis.

(** [JSON.stringify] and [JSON.parse] on the values of type [V] that the
    caller stores; [JSON_parse] answers [None] where [JSON.parse] throws a
    [SyntaxError], which it does on the empty text. *)
Class Json (V : Type) := {
  JSON_stringify : V -> string;
  JSON_parse : string -> option V;
  JSON_parse_empty : JSON_parse "" = None
}.

(** What the server holds under a key: the text and, when the key was
    written with [EX], the seconds after which it expires. *)
Record Entry := mkEntry {
  payload : string;
  expiry : option Z
}.

Inductive Command :=
| GET (key : string)
| SET (key json : string)
| SET_EX (key json : string) (seconds : Z)
| EXISTS (key : string)
| DEL (key : string).

Inductive Err :=
| KeyDoesNotExist (key : string)
| SyntaxError
| PoolIsNull
| ActionError (code : nat)
| InvalidExpireTime.

Inductive Message :=
| InitializingPool
| ClientCreated
| OperationFailed (err : Err)
| FailedToParse (key : string) (err : Err).

Inductive Level := info | warn | error.

(** The pool of the generic-pool library, seen from its interface: the
    clients that wait to be borrowed and those that are. *)
Record Pool := mkPool {
  idle : list nat;
  borrowed : list nat
}.

Definition pool_min : nat := 2.
Definition pool_max : nat := 10.

(** The two private fields of the instance, then the server's keys, the
    commands the server received, the lines handed to the logger and a
    supply of client names. *)
Record Service := mkService {
  pool : option Pool;
  initPromise : bool;
  store : gmap string Entry;
  commands : list Command;
  log : list (Level * Message);
  next_client : nat
}.

Definition set_pool (v : option Pool) (s : Service) : Service :=
  {| pool := v; initPromise := initPromise s; store := store s;
     commands := commands s; log := log s; next_client := next_client s |}.

Definition set_initPromise (v : bool) (s : Service) : Service :=
  {| pool := pool s; initPromise := v; store := store s;
     commands := commands s; log := log s; next_client := next_client s |}.

Definition set_store (v : gmap string Entry) (s : Service) : Service :=
  {| pool := pool s; initPromise := initPromise s; store := v;
     commands := commands s; log := log s; next_client := next_client s |}.

Definition set_commands (v : list Command) (s : Service) : Service :=
  {| pool := pool s; initPromise := initPromise s; store := store s;
     commands := v; log := log s; next_client := next_client s |}.

Definition set_log (v : list (Level * Message)) (s : Service) : Service :=
  {| pool := pool s; initPromise := initPromise s; store := store s;
     commands := commands s; log := v; next_client := next_client s |}.

Definition set_next_client (v : nat) (s : Service) : Service :=
  {| pool := pool s; initPromise := initPromise s; store := store s;
     commands := commands s; log := log s; next_client := v |}.

(** How an asynchronous call settles: its promise resolves, rejects, or,
    when the pool has no client to lend, stays pending. *)
Inductive Outcome (A : Type) :=
| Returns (a : A)
| Raises (e : Err)
| Pending.

Arguments Returns {A} a.
Arguments Raises {A} e.
Arguments Pending {A}.

Definition M (A : Type) : Type := Service -> Outcome A * Service.

Definition ret {A : Type} (a : A) : M A := fun s => (Returns a, s).

Definition raise {T : Type} (e : Err) : M T := fun s => (Raises e, s).

Definition bind {A B : Type} (m : M A) (k : A -> M B) : M B :=
  fun s =>
    match m s with
    | (Returns a, s') => k a s'
    | (Raises e, s') => (Raises e, s')
    | (Pending, s') => (Pending, s')
    end.

Notation "x <- m ;; k" := (bind m (fun x => k))
  (at level 100, m at next level, right associativity).
Notation "m ;; k" := (bind m (fun _ => k))
  (at level 100, right associativity).

(** [try { body } catch (err) { handler }] *)
Definition try_catch {A : Type} (body : M A) (handler : Err -> M A) : M A :=
  fun s =>
    match body s with
    | (Raises e, s') => handler e s'
    | settled => settled
    end.

(** [try { body } finally { cleanup }]: the cleanup runs when the body
    settles and a cleanup that throws replaces the body's outcome. *)
Definition try_finally {A : Type} (body : M A) (cleanup : M unit) : M A :=
  fun s =>
    match body s with
    | (Pending, s') => (Pending, s')
    | (settled, s') =>
        match cleanup s' with
        | (Returns _, s'') => (settled, s'')
        | (Raises e, s'') => (Raises e, s'')
        | (Pending, s'') => (Pending, s'')
        end
    end.

Definition logger (level : Level) (m : Message) : M unit :=
  fun s => (Returns tt, set_log (log s ++ [(level, m)]) s).

(** The [create] factory of the pool. *)
Definition create : M nat :=
  fun s =>
    let client := next_client s in
    (Returns client,
     set_log (log s ++ [(info, ClientCreated)])
       (set_next_client (S client) s)).

Fixpoint create_clients (n : nat) : M (list nat) :=
  match n with
  | O => ret []
  | S n' => c <- create ;; cs <- create_clients n' ;; ret (c :: cs)
  end.

(** [createPool(factory, { min: 2, max: 10, testOnBorrow: true })]: the
    library starts with [min] clients. *)
Definition createPool : M Pool :=
  cs <- create_clients pool_min ;; ret (mkPool cs []).

Definition initPool : M unit :=
  fun s =>
    match pool s with
    | Some _ => (Returns tt, s)
    | None =>
        if initPromise s then (Returns tt, s)
        else
          (logger info InitializingPool ;;
           p <- createPool ;;
           fun s' => (Returns tt, set_pool (Some p) s'))
            (set_initPromise true s)
    end.

(** [this.pool!.acquire()]: an idle client, else a new one while fewer
    than [max] exist, else the promise waits for a release. The server
    answers the ping of [validate], so a borrowed client is never
    replaced. *)
Definition acquire : M nat :=
  fun s =>
    match pool s with
    | None => (Raises PoolIsNull, s)
    | Some p =>
        match idle p with
        | c :: rest => (Returns c, set_pool (Some (mkPool rest (c :: borrowed p))) s)
        | [] =>
            if Nat.ltb (length (borrowed p)) pool_max then
              (c <- create ;;
               fun s' => (Returns c, set_pool (Some (mkPool [] (c :: borrowed p))) s')) s
            else (Pending, s)
        end
    end.

(** [this.pool!.release(client)]: the promise is not awaited, so only a
    null pool makes the statement throw. *)
Definition release (client : nat) : M unit :=
  fun s =>
    match pool s with
    | None => (Raises PoolIsNull, s)
    | Some p =>
        if bool_decide (client ∈ borrowed p) then
          (Returns tt,
           set_pool (Some (mkPool (idle p ++ [client])
                             (filter (fun c => c <> client) (borrowed p)))) s)
        else (Returns tt, s)
    end.

Definition withClient {T : Type} (action : nat -> M T) : M T :=
  initPool ;;
  client <- acquire ;;
  try_finally
    (try_catch (action client)
       (fun err => logger error (OperationFailed err) ;; raise err))
    (release client).

(** The first revision (src/redis/RedisService.ts) has no logger: its
    factory, its [initPool] and its [withClient], which has no [catch],
    log nothing. *)
Definition create_first : M nat :=
  fun s =>
    let client := next_client s in
    (Returns client, set_next_client (S client) s).

Fixpoint create_clients_first (n : nat) : M (list nat) :=
  match n with
  | O => ret []
  | S n' => c <- create_first ;; cs <- create_clients_first n' ;; ret (c :: cs)
  end.

Definition createPool_first : M Pool :=
  cs <- create_clients_first pool_min ;; ret (mkPool cs []).

Definition initPool_first : M unit :=
  fun s =>
    match pool s with
    | Some _ => (Returns tt, s)
    | None =>
        if initPromise s then (Returns tt, s)
        else
          (p <- createPool_first ;;
           fun s' => (Returns tt, set_pool (Some p) s'))
            (set_initPromise true s)
    end.

Definition acquire_first : M nat :=
  fun s =>
    match pool s with
    | None => (Raises PoolIsNull, s)
    | Some p =>
        match idle p with
        | c :: rest => (Returns c, set_pool (Some (mkPool rest (c :: borrowed p))) s)
        | [] =>
            if Nat.ltb (length (borrowed p)) pool_max then
              (c <- create_first ;;
               fun s' => (Returns c, set_pool (Some (mkPool [] (c :: borrowed p))) s')) s
            else (Pending, s)
        end
    end.

Definition withClient_first {T : Type} (action : nat -> M T) : M T :=
  initPool_first ;;
  client <- acquire_first ;;
  try_finally (action client) (release client).

(** The commands a borrowed client sends. *)
Definition send (c : Command) (s : Service) : Service :=
  set_commands (commands s ++ [c]) s.

Definition client_get (client : nat) (key : string) : M (option string) :=
  fun s => (Returns (payload <$> store s !! key), send (GET key) s).

Definition client_set (client : nat) (key json : string) : M unit :=
  fun s =>
    (Returns tt,
     set_store (<[key := mkEntry json None]> (store s)) (send (SET key json) s)).

(** The server's side of [SET key json EX seconds]. It refuses a time
    that is not positive with an error reply, which rejects the promise
    of [client.set], and stores nothing then. Which of the positive times
    it still takes (the limit depends on its clock) is the server's
    business: [expire_accepted] is any such choice. *)
Class Server := {
  expire_accepted : Z -> bool
}.

Definition client_set_ex `{Server} (client : nat) (key json : string)
    (seconds : Z) : M unit :=
  fun s =>
    if (0 <? seconds)%Z && expire_accepted seconds then
      (Returns tt,
       set_store (<[key := mkEntry json (Some seconds)]> (store s))
         (send (SET_EX key json seconds) s))
    else (Raises InvalidExpireTime, send (SET_EX key json seconds) s).

Definition client_exists (client : nat) (key : string) : M nat :=
  fun s =>
    (Returns (if store s !! key is Some _ then 1 else 0), send (EXISTS key) s).

(** [if (ttlInSeconds)]: [undefined] and zero are the falsy values. *)
Definition truthy (ttlInSeconds : option Z) : bool :=
  match ttlInSeconds with
  | None => false
  | Some seconds => negb (Z.eqb seconds 0)
  end.

(** The time to live is one that makes [set] send [EX] and that the
    server refuses. *)
Definition ttl_refused `{Server} (ttlInSeconds : option Z) : bool :=
  truthy ttlInSeconds
  && negb ((0 <? default 0%Z ttlInSeconds)%Z
           && expire_accepted (default 0%Z ttlInSeconds)).

Definition set {V : Type} `{Json V} `{Server} (key : string) (value : V)
    (ttlInSeconds : option Z) : M unit :=
  withClient (fun client =>
    let json := JSON_stringify value in
    if truthy ttlInSeconds then
      client_set_ex client key json (default 0%Z ttlInSeconds)
    else client_set client key json).

(** [!val] for the reply to [GET]: [null] and the empty text. *)
Definition no_value (val : option string) : bool :=
  match val with
  | None => true
  | Some text => String.eqb text ""
  end.

(** [JSON.parse(val)] as a statement that may throw. *)
Definition parse {V : Type} `{Json V} (val : string) : M V :=
  match JSON_parse val with
  | Some v => ret v
  | None => raise SyntaxError
  end.

Definition get {V : Type} `{Json V} (key : string) : M (option V) :=
  withClient (fun client =>
    val <- client_get client key ;;
    if no_value val then ret None
    else
      try_catch (v <- parse (default "" val) ;; ret (Some v))
        (fun err => logger error (FailedToParse key err) ;; ret None)).

(** The [get] of the first revision: [val ? JSON.parse(val) : null]. *)
Definition get_first {V : Type} `{Json V} (key : string) : M (option V) :=
  withClient_first (fun client =>
    val <- client_get client key ;;
    if no_value val then ret None
    else v <- parse (default "" val) ;; ret (Some v)).

Definition update {V : Type} `{Json V} `{Server} (key : string) (value : V)
    (ttlInSeconds : option Z) : M unit :=
  withClient (fun client =>
    exists_ <- client_exists client key ;;
    if Nat.eqb exists_ 0 then raise (KeyDoesNotExist key)
    else set key value ttlInSeconds).

(** A service right after [init]: no pool yet. *)
Definition RedisService (keys : gmap string Entry) : Service :=
  {| pool := None; initPromise := false; store := keys;
     commands := []; log := []; next_client := 1 |}.

(** The client is lent out. *)
Definition on_loan (client : nat) (s : Service) : Prop :=
  exists p, pool s = Some p /\ client ∈ borrowed p.

(** The client is back in the pool, ready to be lent again. *)
Definition returned (client : nat) (s : Service) : Prop :=
  exists p, pool s = Some p /\ (client ∉ borrowed p) /\ client ∈ idle p.

(** An action leaves the pool in place with the same clients on loan. *)
Definition keeps_loans {T : Type} (action : nat -> M T) : Prop :=
  forall (client : nat) (s : Service) (p : Pool),
    pool s = Some p ->
    exists p', pool (snd (action client s)) = Some p'
               /\ borrowed p' = borrowed p.

(** Keys whose texts are, in turn, valid, damaged and empty. *)
Definition sample_keys : gmap string Entry :=
  <["ok" := mkEntry "true" None]>
    (<["damaged" := mkEntry "{oops" None]>
       (<["empty" := mkEntry "" None]> ∅)).

(** JSON restricted to the two boolean values. *)
Definition stringify_bool (b : bool) : string :=
  if b then "true" else "false".

Definition parse_bool (text : string) : option bool :=
  if String.eqb text "true" then Some true
  else if String.eqb text "false" then Some false
  else None.

#[global] Instance Json_bool : Json bool :=
  {| JSON_stringify := stringify_bool;
     JSON_parse := parse_bool;
     JSON_parse_empty := eq_refl |}.

(** A server that takes every positive time whose milliseconds fit a
    signed 64-bit number. *)
Definition Server_int64 : Server :=
  {| expire_accepted := fun seconds => (seconds <=? 9223372036854775)%Z |}.

End Redis.

(** ** Topics as texts *)

Module TopicText.

(** [segments.join(sep)], the inverse of [split]. *)
Fixpoint join (sep : ascii) (segments : list string) : string :=
  match segments with
  | [] => EmptyString
  | [segment] => segment
  | segment :: rest => segment +:+ String sep (join sep rest)
  end.

(** A segment sequence without wildcard segments. *)
Definition wildcard_free (segments : list string) : Prop :=
  Forall (fun p => p <> "#" /\ p <> "+") segments.

End TopicText.

(** ** The other key operations of the Redis service *)

Module RedisKeys.

Import Redis.

(** [options.retryStrategy], which the constructor installs over whatever
    the caller supplied: the wait in milliseconds before reconnection
    attempt [times], or [None] for [null], which ends the attempts. *)
Definition retryStrategy (times : Z) : option Z :=
  if (10 <? times)%Z then None else Some (Z.min (times * 100) 2000).

(** [client.del(key)] answers the number of keys it removed. *)
Definition client_del (client : nat) (key : string) : M nat :=
  fun s =>
    (Returns (if store s !! key is Some _ then 1 else 0),
     set_store (delete key (store s)) (send (DEL key) s)).

Definition remove (key : string) : M unit :=
  withClient (fun client => client_del client key ;; ret tt).

(** [Boolean(exists)] on the number that [EXISTS] answers. *)
Definition Boolean (n : nat) : bool := negb (Nat.eqb n 0).

Definition has (key : string) : M bool :=
  withClient (fun client =>
    exists_ <- client_exists client key ;; ret (Boolean exists_)).

Definition useRawClient {T : Type} (fn : nat -> M T) : M T :=
  withClient fn.

(** The scan family only reads the keys. What the server answers to
    [SCAN cursor MATCH pattern COUNT count] on given keys is the server's
    business: every definition and every statement below is for an
    arbitrary answer [SCAN], the next cursor and a batch of keys. *)
Section Scan.

Variable SCAN :
  gmap string Entry -> string -> string -> Z -> string * list string.

Definition client_scan (client : nat) (cursor pattern : string) (count : Z)
    : M (string * list string) :=
  fun s => (Returns (SCAN (store s) cursor pattern count), s).

(** [client.mget(...keys)]: one text or [null] per key. *)
Definition client_mget (client : nat) (keys : list string)
    : M (list (option string)) :=
  fun s => (Returns (map (fun key => payload <$> store s !! key) keys), s).

(** [pipeline.exec()] on a pipeline of one [get] per key: one pair of an
    error and a reply per command. *)
Definition pipeline_exec (client : nat) (keys : list string)
    : M (option (list (option Err * option string))) :=
  fun s =>
    (Returns (Some (map (fun key => (None, payload <$> store s !! key)) keys)),
     s).

Definition scanKeysCursor (cursor pattern : string) (count : Z)
    : M (string * list string) :=
  withClient (fun client =>
    reply <- client_scan client cursor pattern count ;;
    ret (fst reply, snd reply)).

(** The [do ... while (cursor !== '0')] of [scanKeys]; [None] when the
    rounds allowed by [fuel] did not bring the cursor back to ["0"]. *)
Fixpoint scanKeys_loop (fuel : nat) (client : nat) (cursor pattern : string)
    (count : Z) (keys : list string) : M (option (list string)) :=
  match fuel with
  | O => ret None
  | S fuel' =>
      reply <- client_scan client cursor pattern count ;;
      let cursor' := fst reply in
      let keys' := keys ++ snd reply in
      if negb (String.eqb cursor' "0") then
        scanKeys_loop fuel' client cursor' pattern count keys'
      else ret (Some keys')
  end.

Definition scanKeys (fuel : nat) (pattern : string) (count : Z)
    : M (option (list string)) :=
  withClient (fun client => scanKeys_loop fuel client "0" pattern count []).

(** [keys.forEach((key, i) => { result[key] = values[i] ?? null })] *)
Fixpoint forEach_value (keys : list string) (i : nat)
    (values : list (option string)) (result : gmap string (option string))
    : gmap string (option string) :=
  match keys with
  | [] => result
  | key :: rest =>
      forEach_value rest (S i) values
        (<[key := default None (values !! i)]> result)
  end.

Fixpoint scanAndGet_loop (fuel : nat) (client : nat) (cursor pattern : string)
    (count : Z) (result : gmap string (option string))
    : M (option (gmap string (option string))) :=
  match fuel with
  | O => ret None
  | S fuel' =>
      reply <- client_scan client cursor pattern count ;;
      let cursor' := fst reply in
      let keys := snd reply in
      result' <-
        (if Nat.ltb 0 (length keys) then
           values <- client_mget client keys ;;
           ret (forEach_value keys 0 values result)
         else ret result) ;;
      if negb (String.eqb cursor' "0") then
        scanAndGet_loop fuel' client cursor' pattern count result'
      else ret (Some result')
  end.

Definition scanAndGet (fuel : nat) (pattern : string) (count : Z)
    : M (option (gmap string (option string))) :=
  withClient (fun client => scanAndGet_loop fuel client "0" pattern count ∅).

(** The body of the second [keys.forEach] of [scanAndGetJSONCursor]:
    [response[1]] when the response is there, parsed when it is a text,
    [null] when it is not one or when [JSON.parse] throws. *)
Fixpoint forEach_parsed {V : Type} `{Json V} (keys : list string) (idx : nat)
    (responses : list (option Err * option string))
    (result : gmap string (option V)) : gmap string (option V) :=
  match keys with
  | [] => result
  | key :: rest =>
      let raw := match responses !! idx with
                 | Some response => snd response
                 | None => None
                 end in
      forEach_parsed rest (S idx) responses
        (<[key := match raw with
                  | Some text => JSON_parse text
                  | None => None
                  end]> result)
  end.

Definition scanAndGetJSONCursor {V : Type} `{Json V} (cursor pattern : string)
    (count : Z) : M (string * gmap string (option V)) :=
  withClient (fun client =>
    reply <- client_scan client cursor pattern count ;;
    let nextCursor := fst reply in
    let keys := snd reply in
    if Nat.ltb 0 (length keys) then
      responses <- pipeline_exec client keys ;;
      match responses with
      | Some rs =>
          if Nat.eqb (length rs) (length keys) then
            ret (nextCursor, forEach_parsed keys 0 rs ∅)
          else ret (nextCursor, ∅)
      | None => ret (nextCursor, ∅)
      end
    else ret (nextCursor, ∅)).

(** The server walks its keys in [pages] rounds from [cursor] back to
    the cursor ["0"], handing out [keys] on the way. *)
Inductive Pages (keys : gmap string Entry) (pattern : string) (count : Z)
    : string -> nat -> list string -> Prop :=
| Pages_last (cursor : string) (batch : list string) :
    SCAN keys cursor pattern count = ("0", batch) ->
    Pages keys pattern count cursor 1 batch
| Pages_more (cursor next : string) (batch : list string) (pages : nat)
    (rest : list string) :
    SCAN keys cursor pattern count = (next, batch) ->
    next <> "0" ->
    Pages keys pattern count next pages rest ->
    Pages keys pattern count cursor (S pages) (batch ++ rest).

End Scan.

(** A server with the cursors ["0"] and ["1"] that hands out the keys in
    two batches, the first cut after [count] keys. *)
Definition two_batches (keys : gmap string Entry) (cursor pattern : string)
    (count : Z) : string * list string :=
  let all := (map_to_list keys).*1 in
  if String.eqb cursor "0" then
    if Nat.ltb (Z.to_nat count) (length all)
    then ("1", take (Z.to_nat count) all)
    else ("0", all)
  else ("0", drop (Z.to_nat count) all).

(** The pool, created if need be, has a client to lend. *)
Definition lends (s : Service) : Prop :=
  exists client s1, acquire (snd (initPool s)) = (Returns client, s1).

(** It still has one while the first is on loan. *)
Definition lends_two (s : Service) : Prop :=
  exists client s1,
    acquire (snd (initPool s)) = (Returns client, s1) /\ lends s1.

(** The pool has lent all the clients it may create. *)
Definition exhausted (s : Service) : Prop :=
  exists p, pool s = Some p /\ idle p = [] /\ length (borrowed p) = pool_max.

(** No pool yet, or the two clients the pool starts with, both idle. *)
Definition at_rest (s : Service) : Prop :=
  (pool s = None /\ initPromise s = false /\ next_client s = 1)
  \/ (exists c1 c2,
        c1 <> c2 /\ pool s = Some (mkPool [c1; c2] []) /\ next_client s = 3).

(** What a caller does with the service, one awaited call after the
    other, and what it is answered. *)
Inductive Operation (V : Type) :=
| DoSet (key : string) (value : V) (ttlInSeconds : option Z)
| DoGet (key : string)
| DoUpdate (key : string) (value : V) (ttlInSeconds : option Z)
| DoRemove (key : string)
| DoHas (key : string).

Arguments DoSet {V} key value ttlInSeconds.
Arguments DoGet {V} key.
Arguments DoUpdate {V} key value ttlInSeconds.
Arguments DoRemove {V} key.
Arguments DoHas {V} key.

Inductive Answer (V : Type) :=
| Done
| Value (v : option V)
| Flag (b : bool).

Arguments Done {V}.
Arguments Value {V} v.
Arguments Flag {V} b.

Definition perform {V : Type} `{Json V} `{Server} (o : Operation V)
    : M (Answer V) :=
  match o with
  | DoSet key value ttl => set key value ttl ;; ret Done
  | DoGet key => v <- get key ;; ret (Value v)
  | DoUpdate key value ttl => update key value ttl ;; ret Done
  | DoRemove key => remove key ;; ret Done
  | DoHas key => b <- has key ;; ret (Flag b)
  end.

Definition perform_all {V : Type} `{Json V} `{Server}
    (os : list (Operation V)) (s : Service) : Service :=
  foldl (fun s o => snd (perform o s)) s os.

(** The promise resolved or rejected. *)
Definition settled {A : Type} (o : Outcome A) : bool :=
  match o with
  | Pending => false
  | _ => true
  end.

(** An action that, run by the first client while the second is idle,
    settles and leaves the pool as it found it. *)
Definition calm {T : Type} (action : nat -> M T) : Prop :=
  forall c1 c2 s1,
    c1 <> c2 -> pool s1 = Some (mkPool [c2] [c1]) -> next_client s1 = 3 ->
    pool (snd (action c1 s1)) = pool s1
    /\ next_client (snd (action c1 s1)) = 3
    /\ settled (fst (action c1 s1)) = true.

(** An action that only talks to the server, and is answered. *)
Definition plain {T : Type} (action : nat -> M T) : Prop :=
  forall c s,
    pool (snd (action c s)) = pool s
    /\ next_client (snd (action c s)) = next_client s
    /\ settled (fst (action c s)) = true.

(** A pool filled to its limit, all but the last client lent. *)
Definition last_client_left : Service :=
  {| pool := Some (mkPool [10] [9; 8; 7; 6; 5; 4; 3; 2; 1]);
     initPromise := true; store := sample_keys;
     commands := []; log := []; next_client := 11 |}.

End RedisKeys.

(** ** Shutting the Redis service down *)

Module RedisLifecycle.

Import Redis.

Inductive Notice := ClientDestroyed | ShutdownComplete.

(** The service together with what only [shutdown] brings about: the
    clients that were told to quit and the lines logged on the way. *)
Record Lifecycle := mkLifecycle {
  service : Service;
  quit : list nat;
  notices : list (Level * Notice)
}.

Definition L (A : Type) : Type := Lifecycle -> Outcome A * Lifecycle.

Definition and_then {A B : Type} (m : L A) (k : A -> L B) : L B :=
  fun l =>
    match m l with
    | (Returns a, l') => k a l'
    | (Raises e, l') => (Raises e, l')
    | (Pending, l') => (Pending, l')
    end.

(** An operation of the service, run on the service of the lifecycle. *)
Definition lift {A : Type} (m : M A) : L A :=
  fun l =>
    (fst (m (service l)),
     {| service := snd (m (service l)); quit := quit l;
        notices := notices l |}).

(** [pool.drain()] resolves once no client is on loan. *)
Definition drain (p : Pool) : L unit :=
  fun l =>
    match borrowed p with
    | [] => (Returns tt, l)
    | _ :: _ => (Pending, l)
    end.

(** The [destroy] factory of the pool. *)
Definition destroy (client : nat) : L unit :=
  fun l =>
    (Returns tt,
     {| service := service l; quit := quit l ++ [client];
        notices := notices l ++ [(info, ClientDestroyed)] |}).

(** [pool.clear()] destroys the idle clients. *)
Fixpoint clear (clients : list nat) : L unit :=
  match clients with
  | [] => fun l => (Returns tt, l)
  | client :: rest => and_then (destroy client) (fun _ => clear rest)
  end.

Definition shutdown : L unit :=
  fun l =>
    match pool (service l) with
    | Some p =>
        and_then (drain p) (fun _ =>
        and_then (clear (idle p)) (fun _ =>
        fun l' =>
          (Returns tt,
           {| service := set_initPromise false (set_pool None (service l'));
              quit := quit l';
              notices := notices l' ++ [(info, ShutdownComplete)] |}))) l
    | None => (Returns tt, l)
    end.

Definition started (s : Service) : Lifecycle :=
  {| service := s; quit := []; notices := [] |}.

End RedisLifecycle.

(** ** The single instance of the Redis service *)

Module RedisSingleton.

Section Static.

(** The connection settings other than the retry strategy, the
    connection callbacks and the loggers are the caller's. *)
Variables Settings ConnectionStatus Logger : Type.
Variable defaultLogger : Logger.

Record RedisOptions := mkRedisOptions {
  retryStrategy : option (Z -> option Z);
  settings : Settings
}.

Record RedisService := mkRedisService {
  options : RedisOptions;
  callback : ConnectionStatus;
  logger : Logger
}.

(** The constructor. *)
Definition new (opts : RedisOptions) (connstatus : ConnectionStatus)
    (log : option Logger) : RedisService :=
  {| options := {| retryStrategy := Some RedisKeys.retryStrategy;
                   settings := settings opts |};
     callback := connstatus;
     logger := default defaultLogger log |}.

(** The two static fields. *)
Record Static := mkStatic {
  instance : option RedisService;
  initLock : bool
}.

Inductive StaticError :=
| MustBeInitializedWithOptions
| NotInitialized.

Definition init (opts : option RedisOptions)
    (connstatus : option ConnectionStatus) (log : option Logger)
    (c : Static) : (StaticError + unit) * Static :=
  match instance c with
  | Some _ => (inr tt, c)
  | None =>
      match opts, connstatus with
      | Some o, Some cb =>
          if initLock c then (inr tt, c)
          else (inr tt, {| instance := Some (new o cb log); initLock := true |})
      | _, _ => (inl MustBeInitializedWithOptions, c)
      end
  end.

Definition getInstance (c : Static) : StaticError + RedisService :=
  match instance c with
  | None => inl NotInitialized
  | Some i => inr i
  end.

(** The class as the module is loaded. *)
Definition loaded : Static := {| instance := None; initLock := false |}.

Definition InitCall : Type :=
  option RedisOptions * option ConnectionStatus * option Logger.

Definition init_all (calls : list InitCall) (c : Static) : Static :=
  foldl (fun c call => snd (init call.1.1 call.1.2 call.2 c)) c calls.

(** A call of [init] that brings what the first use needs. *)
Definition complete (call : InitCall) : bool :=
  match call with
  | (Some _, Some _, _) => true
  | _ => false
  end.

End Static.

Arguments mkRedisOptions {Settings} retryStrategy settings.
Arguments retryStrategy {Settings} r.
Arguments settings {Settings} r.
Arguments mkRedisService {Settings ConnectionStatus Logger}
  options callback logger.
Arguments options {Settings ConnectionStatus Logger} r.
Arguments callback {Settings ConnectionStatus Logger} r.
Arguments logger {Settings ConnectionStatus Logger} r.
Arguments new {Settings ConnectionStatus Logger} defaultLogger
  opts connstatus log.
Arguments mkStatic {Settings ConnectionStatus Logger} instance initLock.
Arguments instance {Settings ConnectionStatus Logger} s.
Arguments initLock {Settings ConnectionStatus Logger} s.
Arguments init {Settings ConnectionStatus Logger} defaultLogger
  opts connstatus log c.
Arguments getInstance {Settings ConnectionStatus Logger} c.
Arguments loaded {Settings ConnectionStatus Logger}.
Arguments init_all {Settings ConnectionStatus Logger} defaultLogger calls c.
Arguments complete {Settings ConnectionStatus Logger} call.

End RedisSingleton.

(** ** The logger (src/logger) *)

Module Logging.

Record FileOptions := mkFileOptions {
  filename : string;
  dirname : option string;
  maxSize : option string;
  maxFiles : option string
}.

Record SlackOptions := mkSlackOptions {
  webhookUrl : string;
  slack_level : option string
}.

Record LoggerOptions := mkLoggerOptions {
  level : option string;
  console : option bool;
  file : option FileOptions;
  slack : option SlackOptions
}.

Inductive Transport :=
| Console
| DailyRotateFile (dirname filename maxSize maxFiles : string)
| SlackHook (webhookUrl level : string).

(** [text || fallback]: a missing text and the empty text are falsy. *)
Definition or_else (text : option string) (fallback : string) : string :=
  match text with
  | Some t => if String.eqb t "" then fallback else t
  | None => fallback
  end.

(** What [winston.createLogger] is given. *)
Record Logger := mkLogger {
  logger_level : string;
  transports : list Transport
}.

(** The constructor, with the [push]es in their order. *)
Definition new (options : LoggerOptions) : Logger :=
  let transports := [] in
  let transports :=
    if default false (console options) then transports ++ [Console]
    else transports in
  let transports :=
    match file options with
    | Some f =>
        transports
        ++ [DailyRotateFile (or_else (dirname f) "logs") (filename f)
              (or_else (maxSize f) "10m") (or_else (maxFiles f) "14d")]
    | None => transports
    end in
  let transports :=
    match slack options with
    | Some k =>
        if String.eqb (webhookUrl k) "" then transports
        else transports
             ++ [SlackHook (webhookUrl k) (or_else (slack_level k) "error")]
    | None => transports
    end in
  {| logger_level := or_else (level options) "info";
     transports := transports |}.

Inductive LoggerError := MustBeInitializedWithOptions.

(** [Logger.getInstance(options?)] on the static field [instance]. *)
Definition getInstance (options : option LoggerOptions)
    (instance : option Logger) : (LoggerError + Logger) * option Logger :=
  match instance with
  | Some logger => (inr logger, instance)
  | None =>
      match options with
      | None => (inl MustBeInitializedWithOptions, instance)
      | Some o => (inr (new o), Some (new o))
      end
  end.

Definition getInstance_all (calls : list (option LoggerOptions))
    (instance : option Logger) : option Logger :=
  foldl (fun instance call => snd (getInstance call instance)) instance calls.

End Logging.

(** * Properties *)

(** ** Topic matching *)

Section TopicMatcherFacts.
Import TopicMatcher.

Lemma matchTopic_loop_matches_spec (rest pre tpre trest : list string) :
  length pre = length tpre ->
  matchTopic_loop (pre ++ rest) (tpre ++ trest) rest (length pre)
  = matches_spec rest trest.
Proof.
  revert pre tpre trest.
  induction rest as [|p rest IH]; intros pre tpre trest Hlen; simpl.
  - rewrite app_nil_r, length_app, Hlen.
    destruct trest as [|t trest]; simpl.
    + rewrite Nat.add_0_r. apply Nat.eqb_refl.
    + apply Nat.eqb_neq. lia.
  - destruct (String.eqb p "#") eqn:Hhash.
    + rewrite length_app. simpl.
      destruct rest as [|q rest]; simpl.
      * apply Nat.eqb_eq. lia.
      * apply Nat.eqb_neq. lia.
    + assert (Hlook : (tpre ++ trest) !! length pre = head trest).
      { rewrite Hlen, lookup_app_r by lia.
        rewrite Nat.sub_diag. by destruct trest. }
      rewrite Hlook.
      assert (Hstep : forall t trest',
        trest = t :: trest' ->
        matchTopic_loop (pre ++ p :: rest) (tpre ++ trest) rest (S (length pre))
        = matches_spec rest trest').
      { intros t trest' ->.
        replace (pre ++ p :: rest) with ((pre ++ [p]) ++ rest)
          by (by rewrite <- app_assoc).
        replace (tpre ++ t :: trest') with ((tpre ++ [t]) ++ trest')
          by (by rewrite <- app_assoc).
        replace (S (length pre)) with (length (pre ++ [p]))
          by (rewrite length_app; simpl; lia).
        apply IH. rewrite !length_app. simpl. lia. }
      destruct trest as [|t trest']; simpl.
      * by destruct (String.eqb p "+").
      * destruct (String.eqb p "+").
        -- destruct (String.eqb t ""); simpl; [done|]. by eapply Hstep.
        -- destruct (String.eqb p t); simpl; [|done]. by eapply Hstep.
Qed.

Lemma matchTopic_segments_matches_spec (ps ts : list string) :
  matchTopic_segments ps ts = matches_spec ps ts.
Proof.
  unfold matchTopic_segments.
  apply (matchTopic_loop_matches_spec ps [] [] ts). reflexivity.
Qed.

Lemma matches_spec_Matches (ps ts : list string) :
  matches_spec ps ts = true <-> Matches ps ts.
Proof.
  split.
  - revert ts. induction ps as [|p ps IH]; intros ts; simpl.
    + destruct ts; [constructor | discriminate].
    + destruct (String.eqb p "#") eqn:Hhash.
      * apply String.eqb_eq in Hhash as ->.
        destruct ps; [constructor | discriminate].
      * apply String.eqb_neq in Hhash.
        destruct ts as [|t ts]; [discriminate|].
        destruct (String.eqb p "+") eqn:Hplus.
        -- apply String.eqb_eq in Hplus as ->.
           intros [Ht Hrest]%andb_true_iff.
           apply negb_true_iff, String.eqb_neq in Ht.
           constructor; auto.
        -- apply String.eqb_neq in Hplus.
           intros [Ht Hrest]%andb_true_iff.
           apply String.eqb_eq in Ht as <-.
           constructor; auto.
  - induction 1 as [|ts|ps t ts Ht _ IH|p ps ts Hh Hp _ IH]; simpl.
    + reflexivity.
    + reflexivity.
    + apply String.eqb_neq in Ht. by rewrite Ht, IH.
    + apply String.eqb_neq in Hh, Hp. by rewrite Hh, Hp, String.eqb_refl, IH.
Qed.

Lemma matches_spec_hash_not_last (pre post ts : list string) (q : string) :
  matches_spec (pre ++ "#" :: q :: post) ts = false.
Proof.
  revert ts. induction pre as [|p pre IH]; intros ts; simpl; [done|].
  destruct (String.eqb p "#").
  - by destruct pre.
  - destruct ts as [|t ts]; [done|].
    rewrite IH. destruct (String.eqb p "+"); apply andb_false_r.
Qed.

Lemma matchTopic_Matches (pattern topic : string) :
  matchTopic pattern topic = true
  <-> Matches (split "/" pattern) (split "/" topic).
Proof.
  unfold matchTopic.
  rewrite matchTopic_segments_matches_spec. apply matches_spec_Matches.
Qed.

Lemma matchTopic_hash_not_last (pattern topic q : string)
    (pre post : list string) :
  split "/" pattern = pre ++ "#" :: q :: post ->
  matchTopic pattern topic = false.
Proof.
  intros Hsplit. unfold matchTopic.
  rewrite matchTopic_segments_matches_spec, Hsplit.
  apply matches_spec_hash_not_last.
Qed.

(** C1. [matchTopic] decides exactly the wildcard semantics of the
    specification on the two strings split at the slash: it answers true if
    and only if the segment sequences are related by [Matches] (the
    multi-level wildcard only in last position and then whatever is left of
    the topic, the single-level wildcard for one existing non-empty
    segment, literal equality otherwise, equal counts when the pattern runs
    out); a pattern with the multi-level wildcard before its last segment
    matches no topic; and the edge cases the specification lists evaluate
    as it says. *)
Theorem matchTopic_wildcard_semantics :
  (forall pattern topic : string,
      matchTopic pattern topic = true
      <-> Matches (split "/" pattern) (split "/" topic))
  /\ (forall (pattern topic q : string) (pre post : list string),
         split "/" pattern = pre ++ "#" :: q :: post ->
         matchTopic pattern topic = false)
  /\ matchTopic "a/#" "a" = true
  /\ matchTopic "a/#" "a/b" = true
  /\ matchTopic "a/#" "a/b/c" = true
  /\ matchTopic "a/+/c" "a/x/c" = true
  /\ matchTopic "a/+/c" "a/c" = false
  /\ matchTopic "a/+/c" "a/x/y/c" = false
  /\ matchTopic "a/+" "a/" = false
  /\ matchTopic "sensors/+/temp" "sensors/1/temp" = true
  /\ matchTopic "sensors/+/temp" "sensors/1/2/temp" = false
  /\ (forall topic : string, matchTopic "a/#/c" topic = false).
Proof.
  split; [exact matchTopic_Matches|].
  split; [exact matchTopic_hash_not_last|].
  repeat (split; [reflexivity|]).
  intros topic. by apply (matchTopic_hash_not_last "a/#/c" topic "c" ["a"] []).
Qed.

End TopicMatcherFacts.

(** ** Reconnection with backoff *)

Section BackoffFacts.
Import Mqtt.

Lemma reconnect_waits_app (es es' : list Effect) :
  reconnect_waits (es ++ es') = reconnect_waits es ++ reconnect_waits es'.
Proof. apply omap_app. Qed.

Lemma list_find_fresh_timer (ts : list (nat * TimerKind)) (n : nat)
    (k : TimerKind) :
  Forall (fun t => fst t < n) ts ->
  list_find (fun t => bool_decide (fst t = n)) (ts ++ [(n, k)])
  = Some (length ts, (n, k)).
Proof.
  induction 1 as [|[i j] ts Hi _ IH]; simpl in *.
  - by rewrite bool_decide_eq_true_2.
  - rewrite bool_decide_eq_false_2 by lia. simpl. by rewrite IH.
Qed.

Lemma filter_fresh_timer (ts : list (nat * TimerKind)) (n : nat)
    (k : TimerKind) :
  Forall (fun t => fst t < n) ts ->
  filter (fun t => fst t <> n) (ts ++ [(n, k)]) = ts.
Proof.
  induction 1 as [|[i j] ts Hi _ IH]; simpl in *.
  - by rewrite filter_cons_False, filter_nil by (simpl; tauto).
  - rewrite filter_cons_True by (simpl; lia). by rewrite IH.
Qed.

Lemma fail_once_backoff (w : Wrapper) :
  isExplicitlyDisconnected w = false ->
  timers_fresh w ->
  reconnect_waits (effects (fail_once w))
  = reconnect_waits (effects w) ++ [currentReconnectInterval w]
  /\ currentReconnectInterval (fail_once w)
     = Z.min (currentReconnectInterval w * 2) (maxReconnectInterval w)
  /\ reconnectInterval (fail_once w) = reconnectInterval w
  /\ maxReconnectInterval (fail_once w) = maxReconnectInterval w
  /\ isExplicitlyDisconnected (fail_once w) = false
  /\ timers_fresh (fail_once w).
Proof.
  destruct w as [cl ri mi cur ct eh [c1 c2 c3 c4 c5 c6] rid cid flag tm nid pe eff].
  unfold timers_fresh. simpl. intros -> Hfresh.
  destruct c1, c5, cl as [[c conn]|];
    unfold fail_once, on_close, notify, reconnectWithBackoff, setTimeout, emit;
    simpl; unfold timer_fired; simpl;
    rewrite list_find_fresh_timer by done; simpl;
    rewrite filter_fresh_timer by done;
    unfold reconnect_timer_fired, connect, notify, end_client, setTimeout, emit;
    simpl; rewrite ?reconnect_waits_app; simpl; rewrite ?app_nil_r.
  all: repeat split; try done.
  all: apply Forall_app; split;
    [ eapply Forall_impl; [exact Hfresh | simpl; lia]
    | repeat constructor; simpl; lia ].
Qed.

Lemma on_connect_backoff (w : Wrapper) :
  currentReconnectInterval (on_connect w) = reconnectInterval w
  /\ reconnectInterval (on_connect w) = reconnectInterval w
  /\ maxReconnectInterval (on_connect w) = maxReconnectInterval w
  /\ isExplicitlyDisconnected (on_connect w) = isExplicitlyDisconnected w
  /\ (timers_fresh w -> timers_fresh (on_connect w)).
Proof.
  destruct w as [cl ri mi cur ct eh [c1 c2 c3 c4 c5 c6] rid cid flag tm nid pe eff].
  unfold timers_fresh, on_connect, notify, clearTimeout, emit.
  destruct c2, cid; simpl; repeat split; try done.
  all: intros Hfresh; apply Forall_forall; intros t [_ Ht]%list_elem_of_filter;
    by eapply Forall_forall in Hfresh.
Qed.

Lemma timers_older (tm : list (nat * TimerKind)) (n m : nat) :
  n <= m ->
  Forall (fun t => fst t < n) tm -> Forall (fun t => fst t < m) tm.
Proof.
  intros Hnm Hfresh. eapply Forall_impl; [exact Hfresh|].
  intros t Ht. simpl in *. lia.
Qed.

Lemma timers_filter_older (P : nat * TimerKind -> Prop)
    `{forall t, Decision (P t)} (tm : list (nat * TimerKind)) (n : nat) :
  Forall (fun t => fst t < n) tm -> Forall (fun t => fst t < n) (filter P tm).
Proof.
  intros Hfresh. apply Forall_forall. intros t [_ Ht]%list_elem_of_filter.
  by eapply Forall_forall in Hfresh.
Qed.

(** The state after [k] failed attempts in a row. *)
Lemma fail_iter_backoff (w : Wrapper) (b m : Z) (k : nat) :
  (0 < b)%Z -> (b <= m)%Z ->
  reconnectInterval w = b ->
  maxReconnectInterval w = m ->
  currentReconnectInterval w = b ->
  isExplicitlyDisconnected w = false ->
  timers_fresh w ->
  let w' := Nat.iter k fail_once w in
  reconnect_waits (effects w')
  = reconnect_waits (effects w)
    ++ map (fun j => Z.min (b * 2 ^ Z.of_nat j) m) (seq 0 k)
  /\ currentReconnectInterval w' = Z.min (b * 2 ^ Z.of_nat k) m
  /\ reconnectInterval w' = b
  /\ maxReconnectInterval w' = m
  /\ isExplicitlyDisconnected w' = false
  /\ timers_fresh w'.
Proof.
  intros Hb Hbm Hri Hmi Hcur Hflag Hfresh.
  induction k as [|k (Hwaits & Hcur' & Hri' & Hmi' & Hflag' & Hfresh')].
  - simpl. rewrite app_nil_r, Z.mul_1_r. repeat split; try done. lia.
  - cbn zeta in *. rewrite Nat.iter_succ.
    destruct (fail_once_backoff (Nat.iter k fail_once w) Hflag' Hfresh')
      as (Hw & Hc & Hr & Hm & Hf & Hfr).
    repeat split; try congruence.
    + rewrite Hw, Hwaits, Hcur', seq_S, map_app, <- app_assoc. done.
    + rewrite Hc, Hcur', Hmi', Nat2Z.inj_succ, Z.pow_succ_r by lia.
      assert (0 < 2 ^ Z.of_nat k)%Z by (apply Z.pow_pos_nonneg; lia).
      nia.
Qed.

(** The intended backoff, on the runs where every failed attempt brings
    exactly one close event and the timer which that close set is the
    next thing to happen ([fail_once]). For a base interval [b > 0] and a
    cap [m >= b], from a wrapper whose current interval is [b] (freshly
    constructed, or after a connect event) and that was not disconnected
    explicitly, the reconnect timers set during [k] such attempts in a row
    wait [min (b * 2^j) m] for [j = 0 .. k-1]; and a connect event after
    them resets the current interval to [b], so that the next close waits
    [b] again. The runs of the program are not of this kind, because the
    transport that [connect] replaces brings a close event of its own. *)
Theorem backoff_wait_sequence (w : Wrapper) (b m : Z) (k : nat) :
  (0 < b)%Z -> (b <= m)%Z ->
  reconnectInterval w = b ->
  maxReconnectInterval w = m ->
  currentReconnectInterval w = b ->
  isExplicitlyDisconnected w = false ->
  timers_fresh w ->
  reconnect_waits (effects (Nat.iter k fail_once w))
  = reconnect_waits (effects w)
    ++ map (fun j => Z.min (b * 2 ^ Z.of_nat j) m) (seq 0 k)
  /\ (1 <= k ->
      last (reconnect_waits (effects (Nat.iter k fail_once w)))
      = Some (Z.min (b * 2 ^ (Z.of_nat k - 1)) m))
  /\ currentReconnectInterval (on_connect (Nat.iter k fail_once w)) = b
  /\ reconnect_waits
       (effects (fail_once (on_connect (Nat.iter k fail_once w))))
     = reconnect_waits (effects (on_connect (Nat.iter k fail_once w))) ++ [b].
Proof.
  intros Hb Hbm Hri Hmi Hcur Hflag Hfresh.
  destruct (fail_iter_backoff w b m k Hb Hbm Hri Hmi Hcur Hflag Hfresh)
    as (Hwaits & Hcur' & Hri' & Hmi' & Hflag' & Hfresh').
  destruct (on_connect_backoff (Nat.iter k fail_once w))
    as (Hc & Hr & Hm & Hf & Hfr).
  split; [exact Hwaits|]. split; [|split].
  - intros Hk. rewrite Hwaits.
    destruct k as [|k]; [lia|].
    rewrite seq_S, map_app, app_assoc. cbn [map]. rewrite last_snoc.
    replace (Z.of_nat (S k) - 1)%Z with (Z.of_nat (0 + k)) by lia. done.
  - congruence.
  - destruct (fail_once_backoff (on_connect (Nat.iter k fail_once w)))
      as (Hw & _); [congruence | auto |].
    rewrite Hw. congruence.
Qed.

Lemma backoff_wait_sequence_witness :
  let constructed := MqttClientWrapper None None None every_callback in
  let connected :=
    on_connect
      (connect (MqttClientWrapper (Some 250%Z) (Some 1000%Z) None every_callback)) in
  (reconnect_waits (effects (Nat.iter 7 fail_once constructed))
   = reconnect_waits (effects constructed)
     ++ map (fun j => Z.min (1000 * 2 ^ Z.of_nat j) 30000) (seq 0 7)
   /\ (1 <= 7 ->
       last (reconnect_waits (effects (Nat.iter 7 fail_once constructed)))
       = Some (Z.min (1000 * 2 ^ (Z.of_nat 7 - 1)) 30000))
   /\ currentReconnectInterval (on_connect (Nat.iter 7 fail_once constructed))
      = 1000%Z
   /\ reconnect_waits
        (effects (fail_once (on_connect (Nat.iter 7 fail_once constructed))))
      = reconnect_waits (effects (on_connect (Nat.iter 7 fail_once constructed)))
        ++ [1000%Z])
  /\
  (reconnect_waits (effects (Nat.iter 4 fail_once connected))
   = reconnect_waits (effects connected)
     ++ map (fun j => Z.min (250 * 2 ^ Z.of_nat j) 1000) (seq 0 4)
   /\ (1 <= 4 ->
       last (reconnect_waits (effects (Nat.iter 4 fail_once connected)))
       = Some (Z.min (250 * 2 ^ (Z.of_nat 4 - 1)) 1000))
   /\ currentReconnectInterval (on_connect (Nat.iter 4 fail_once connected))
      = 250%Z
   /\ reconnect_waits
        (effects (fail_once (on_connect (Nat.iter 4 fail_once connected))))
      = reconnect_waits (effects (on_connect (Nat.iter 4 fail_once connected)))
        ++ [250%Z])
  /\ reconnect_waits (effects (Nat.iter 7 fail_once constructed))
     = [1000; 2000; 4000; 8000; 16000; 30000; 30000]%Z
  /\ reconnect_waits (effects (Nat.iter 4 fail_once connected))
     = [250; 500; 1000; 1000]%Z.
Proof.
  intros constructed connected.
  split; [|split; [|split; vm_compute; reflexivity]].
  - apply (backoff_wait_sequence constructed 1000 30000 7).
    + lia.
    + lia.
    + reflexivity.
    + reflexivity.
    + reflexivity.
    + reflexivity.
    + constructor.
  - apply (backoff_wait_sequence connected 250 1000 4).
    + lia.
    + lia.
    + reflexivity.
    + reflexivity.
    + reflexivity.
    + reflexivity.
    + vm_compute. constructor.
Defined.

(** With a cap below the base interval the first wait is the base
    interval, not the cap. *)
Lemma backoff_cap_below_base :
  let w := MqttClientWrapper (Some 1000%Z) (Some 500%Z) None every_callback in
  last (reconnect_waits (effects (Nat.iter 1 fail_once w))) = Some 1000%Z
  /\ Z.min (1000 * 2 ^ (Z.of_nat 1 - 1)) 500 = 500%Z.
Proof. split; reflexivity. Qed.

End BackoffFacts.

(** Goals that say the pending timers are older than the next name. *)
Ltac timers_stay_fresh :=
  repeat first
    [ assumption
    | apply Forall_nil; exact I
    | apply Forall_app; split
    | apply Forall_cons; split; [simpl; lia|]
    | apply timers_filter_older
    | eapply timers_older; [|eassumption]; lia ].

(** ** Dispatch of inbound messages *)

Section DispatchFacts.
Import Mqtt.

Lemma map_set_keys (key : string) (h : EventHandler)
    (entries : list (string * EventHandler)) :
  forall k, k ∈ (map_set key h entries).*1 <-> k = key \/ k ∈ entries.*1.
Proof.
  induction entries as [|[k' h'] entries IH]; intros k; simpl.
  - rewrite elem_of_cons, elem_of_nil. tauto.
  - destruct (String.eqb k' key) eqn:Hk; simpl.
    + apply String.eqb_eq in Hk as ->. rewrite !elem_of_cons. tauto.
    + rewrite !elem_of_cons, IH. tauto.
Qed.

(** The registry never holds a pattern twice. *)
Lemma map_set_NoDup (key : string) (h : EventHandler)
    (entries : list (string * EventHandler)) :
  NoDup entries.*1 -> NoDup (map_set key h entries).*1.
Proof.
  induction entries as [|[k' h'] entries IH]; simpl; intros Hnd.
  - apply NoDup_singleton.
  - apply NoDup_cons in Hnd as [Hk' Hnd].
    destruct (String.eqb k' key) eqn:Hk; simpl.
    + by apply NoDup_cons.
    + apply String.eqb_neq in Hk. apply NoDup_cons. split; [|auto].
      rewrite map_set_keys. intros [->|?]; done.
Qed.

Lemma map_delete_NoDup (key : string)
    (entries : list (string * EventHandler)) :
  NoDup entries.*1 -> NoDup (map_delete key entries).*1.
Proof.
  unfold map_delete. induction entries as [|[k' h'] entries IH]; [done|].
  simpl. intros [Hk' Hnd]%NoDup_cons.
  destruct (decide (k' = key)) as [->|Hne].
  - rewrite filter_cons_False by (simpl; tauto). auto.
  - rewrite filter_cons_True by done. simpl. apply NoDup_cons. split; [|auto].
    intros ((k, h) & -> & [_ Hin]%list_elem_of_filter)%list_elem_of_fmap.
    apply Hk', list_elem_of_fmap. by exists (k, h).
Qed.

Lemma message_loop_returns (entries : list (string * EventHandler))
    (topic message : string) (matched : bool) (w : Wrapper) :
  Forall (fun e => handler_throws (snd e) = false) entries ->
  let calls :=
    map (fun e => HandlerCall (fst e) (snd e) topic message)
      (filter (fun e => TopicMatcher.matchTopic (fst e) topic = true) entries) in
  message_loop entries topic message matched w
  = (Some (matched || negb (bool_decide (calls = []))),
     set_effects (effects w ++ calls) w).
Proof.
  intros Hreturn. revert matched w.
  induction Hreturn as [|[p h] entries Hh _ IH]; intros matched w; simpl in *.
  - rewrite app_nil_r, orb_false_r. by destruct w.
  - destruct (TopicMatcher.matchTopic p topic) eqn:Hp.
    + rewrite filter_cons_True by done. rewrite Hh, IH. simpl.
      rewrite orb_true_r, <- app_assoc. by destruct w.
    + rewrite filter_cons_False by (simpl; congruence). apply IH.
Qed.

Lemma on_message_dispatch (w : Wrapper) (topic message : string) :
  Forall (fun e => handler_throws (snd e) = false) (eventHandlers w) ->
  effects (on_message topic message w)
  = effects w ++ dispatch (eventHandlers w) topic message.
Proof.
  intros Hreturn. unfold on_message, dispatch.
  rewrite message_loop_returns by done. simpl.
  destruct (map _ _) as [|call calls]; simpl.
  - by rewrite app_nil_r.
  - reflexivity.
Qed.

Lemma calls_for_dispatch (entries : list (string * EventHandler))
    (topic message pattern : string) (h : EventHandler) :
  NoDup entries.*1 ->
  (pattern, h) ∈ entries ->
  calls_for pattern (dispatch entries topic message)
  = if TopicMatcher.matchTopic pattern topic then [h] else [].
Proof.
  intros Hnd Hin. unfold dispatch.
  assert (Hcalls : calls_for pattern
            (map (fun e => HandlerCall (fst e) (snd e) topic message)
               (filter (fun e => TopicMatcher.matchTopic (fst e) topic = true)
                  entries))
          = if TopicMatcher.matchTopic pattern topic then [h] else []).
  { assert (Hout : forall es : list (string * EventHandler),
              pattern ∉ es.*1 ->
              calls_for pattern
                (map (fun e => HandlerCall (fst e) (snd e) topic message)
                   (filter (fun e => TopicMatcher.matchTopic (fst e) topic = true)
                      es)) = []).
    { induction es as [|[k' h'] es IH]; [done|]. simpl.
      intros [Hne Hes]%not_elem_of_cons.
      destruct (decide (TopicMatcher.matchTopic k' topic = true)).
      - rewrite filter_cons_True by done. simpl.
        assert (String.eqb k' pattern = false) as ->
          by (apply String.eqb_neq; congruence).
        auto.
      - rewrite filter_cons_False by done. auto. }
    induction entries as [|[k' h'] entries IH]; [by apply elem_of_nil in Hin|].
    simpl in Hnd. apply NoDup_cons in Hnd as [Hk' Hnd].
    apply elem_of_cons in Hin as [[= <- <-]|Hin].
    - destruct (TopicMatcher.matchTopic pattern topic) eqn:Hp.
      + rewrite filter_cons_True by done. simpl.
        rewrite String.eqb_refl. f_equal. by apply Hout.
      + rewrite filter_cons_False by (simpl; congruence). by apply Hout.
    - assert (k' <> pattern).
      { intros ->. apply Hk', list_elem_of_fmap. by exists (pattern, h). }
      destruct (decide (TopicMatcher.matchTopic k' topic = true)).
      + rewrite filter_cons_True by done. simpl.
        assert (String.eqb k' pattern = false) as ->
          by by apply String.eqb_neq.
        by apply IH.
      + rewrite filter_cons_False by done. by apply IH. }
  destruct (map _ _) as [|call calls] eqn:Hmap; [|done].
  simpl in *. by rewrite <- Hcalls.
Qed.

(** C3. When no handler throws, a message on [topic] calls the handler of
    every registered pattern that matches [topic] exactly once and the
    handler of no other registered pattern; when no registered pattern
    matches, what happens instead is the one warning on the console. The
    registry is a [Map], so its patterns are distinct. *)
Theorem message_reaches_every_matching_handler (w : Wrapper)
    (topic message : string) :
  Forall (fun e => handler_throws (snd e) = false) (eventHandlers w) ->
  NoDup (eventHandlers w).*1 ->
  let heard :=
    drop (length (effects w)) (effects (on_message topic message w)) in
  effects (on_message topic message w) = effects w ++ heard
  /\ heard = dispatch (eventHandlers w) topic message
  /\ (forall (pattern : string) (h : EventHandler),
         (pattern, h) ∈ eventHandlers w ->
         calls_for pattern heard
         = if TopicMatcher.matchTopic pattern topic then [h] else [])
  /\ ((forall (pattern : string) (h : EventHandler),
          (pattern, h) ∈ eventHandlers w ->
          TopicMatcher.matchTopic pattern topic = false) ->
      heard = [ConsoleWarn (NoHandlerMatched topic)]).
Proof.
  intros Hreturn Hnd heard. subst heard.
  rewrite on_message_dispatch, drop_app_length by done.
  split; [done|]. split; [done|]. split.
  - intros pattern h Hin. by apply calls_for_dispatch.
  - intros Hnone. unfold dispatch.
    assert (filter (fun e => TopicMatcher.matchTopic (fst e) topic = true)
              (eventHandlers w) = []) as ->; [|done].
    induction (eventHandlers w) as [|[pattern h] entries IH]; [done|].
    rewrite filter_cons_False.
    + apply IH; intros; [by eapply Forall_inv_tail | by eapply NoDup_cons_1_2
                        | eapply Hnone; by right].
    + simpl. rewrite (Hnone pattern h) by left. done.
Qed.

Lemma message_reaches_every_matching_handler_witness :
  (let heard :=
     drop (length (effects two_patterns))
       (effects (on_message "x/y" "payload" two_patterns)) in
   effects (on_message "x/y" "payload" two_patterns)
   = effects two_patterns ++ heard
   /\ heard = dispatch (eventHandlers two_patterns) "x/y" "payload"
   /\ (forall (pattern : string) (h : EventHandler),
          (pattern, h) ∈ eventHandlers two_patterns ->
          calls_for pattern heard
          = if TopicMatcher.matchTopic pattern "x/y" then [h] else [])
   /\ ((forall (pattern : string) (h : EventHandler),
           (pattern, h) ∈ eventHandlers two_patterns ->
           TopicMatcher.matchTopic pattern "x/y" = false) ->
       heard = [ConsoleWarn (NoHandlerMatched "x/y")]))
  /\ drop (length (effects two_patterns))
       (effects (on_message "x/y" "payload" two_patterns))
     = [HandlerCall "x/+" (mkHandler 1 false) "x/y" "payload";
        HandlerCall "x/y" (mkHandler 2 false) "x/y" "payload"]
  /\ drop (length (effects two_patterns))
       (effects (on_message "z" "payload" two_patterns))
     = [ConsoleWarn (NoHandlerMatched "z")].
Proof.
  split; [|split; reflexivity].
  apply (message_reaches_every_matching_handler two_patterns "x/y" "payload").
  - repeat constructor.
  - apply (bool_decide_unpack _). reflexivity.
Defined.

(** With handlers that may throw, the listener still only calls handlers
    and writes to the console. *)
Lemma message_loop_logs (entries : list (string * EventHandler))
    (topic message : string) (matched : bool) (w : Wrapper) :
  exists es,
    snd (message_loop entries topic message matched w)
    = set_effects (effects w ++ es) w
    /\ Forall (fun e => is_log e = true) es.
Proof.
  revert matched w.
  induction entries as [|[p h] entries IH]; intros matched w; simpl.
  - exists []. rewrite app_nil_r. by destruct w.
  - destruct (TopicMatcher.matchTopic p topic).
    + destruct (handler_throws h).
      * exists [HandlerCall p h topic message].
        split; [reflexivity | by apply Forall_singleton].
      * destruct (IH true (emit (HandlerCall p h topic message) w))
          as (es & -> & Hes).
        exists (HandlerCall p h topic message :: es).
        split; [|by apply Forall_cons].
        simpl. rewrite <- app_assoc. by destruct w.
    + apply IH.
Qed.

Lemma on_message_logs (topic message : string) (w : Wrapper) :
  exists es,
    on_message topic message w = set_effects (effects w ++ es) w
    /\ Forall (fun e => is_log e = true) es.
Proof.
  unfold on_message.
  destruct (message_loop_logs (eventHandlers w) topic message false w)
    as (es & Hsnd & Hes).
  destruct (message_loop _ _ _ _ _) as [[[]|] w']; simpl in Hsnd; subst w'.
  - by exists es.
  - exists (es ++ [ConsoleWarn (NoHandlerMatched topic)]).
    split; [|apply Forall_app; split; [done | by apply Forall_singleton]].
    unfold emit. simpl. rewrite <- app_assoc. by destruct w.
  - exists (es ++ [ConsoleError ErrorInMessageHandler]).
    split; [|apply Forall_app; split; [done | by apply Forall_singleton]].
    unfold emit. simpl. rewrite <- app_assoc. by destruct w.
Qed.

(** The first revision of the listener looks the topic itself up: of the
    two registrations only the literal one is called. *)
Lemma on_message_exact_two_patterns :
  drop (length (effects two_patterns))
    (effects (on_message_exact "x/y" "payload" two_patterns))
  = [HandlerCall "x/y" (mkHandler 2 false) "x/y" "payload"].
Proof. reflexivity. Qed.

End DispatchFacts.

(** ** Requests to the transport *)

Section TransportFacts.
Import Mqtt.

(** C10. [publish], [subscribe] and [unsubscribe] throw the not-connected
    error exactly when the transport reference is null; whenever a
    transport object exists they return normally, also when it is not
    connected ([isConnected] answers false). *)
Theorem not_connected_iff_no_transport (w : Wrapper) (topic message : string) :
  (fst (publish topic message w) = Throws NotConnected <-> client w = None)
  /\ (fst (subscribe topic w) = Throws NotConnected <-> client w = None)
  /\ (fst (unsubscribe topic w) = Throws NotConnected <-> client w = None)
  /\ (is_Some (client w) -> isConnected w = false ->
      fst (publish topic message w) = Normal
      /\ fst (subscribe topic w) = Normal
      /\ fst (unsubscribe topic w) = Normal).
Proof.
  unfold publish, subscribe, unsubscribe.
  destruct (client w) as [c|] eqn:Hc; simpl.
  - repeat split; discriminate.
  - repeat split; done.
Qed.

(** After the broker closed an established connection the transport object
    is kept while the reconnect timer is pending: [publish] returns. *)
Lemma not_connected_iff_no_transport_witness :
  is_Some (client broker_closed)
  /\ isConnected broker_closed = false
  /\ timers broker_closed = [(3, ReconnectTimer)]
  /\ fst (publish "a/b" "payload" broker_closed) = Normal
  /\ fst (subscribe "a/b" broker_closed) = Normal
  /\ fst (unsubscribe "a/b" broker_closed) = Normal.
Proof.
  split; [by eexists|]. split; [reflexivity|]. split; [reflexivity|].
  apply (not_connected_iff_no_transport broker_closed "a/b" "payload").
  - by eexists.
  - reflexivity.
Defined.

Lemma map_set_elem (key : string) (h : EventHandler)
    (entries : list (string * EventHandler)) :
  (key, h) ∈ map_set key h entries.
Proof.
  induction entries as [|[k h'] entries IH]; simpl.
  - apply list_elem_of_singleton. done.
  - destruct (String.eqb k key) eqn:Hk.
    + apply String.eqb_eq in Hk as ->. left.
    + by right.
Qed.

Lemma map_delete_not_elem (key : string)
    (entries : list (string * EventHandler)) :
  key ∉ (map_delete key entries).*1.
Proof.
  unfold map_delete.
  intros ((k, h) & -> & [Hne _]%list_elem_of_filter)%list_elem_of_fmap.
  done.
Qed.

(** C8 (amended: the call returns normally when a transport object
    exists). [registerHandler] first puts the handler in the registry, in
    every state; it then returns normally with a subscribe request issued
    if a transport object exists, and throws the not-connected error with
    no request issued if none does. Whatever outcome the transport reports
    for the request later, the registry is left as it is and a failure is
    only written to the console. [unregisterHandler] does the same with
    the removal of the pattern and an unsubscribe request. *)
Theorem registerHandler_then_best_effort_subscribe (w : Wrapper)
    (pattern : string) (h : EventHandler) (err : bool) :
  let registered := snd (registerHandler pattern h w) in
  let unregistered := snd (unregisterHandler pattern w) in
  (eventHandlers registered = map_set pattern h (eventHandlers w)
   /\ (pattern, h) ∈ eventHandlers registered
   /\ fst (registerHandler pattern h w)
      = (match client w with Some _ => Normal | None => Throws NotConnected end)
   /\ effects registered
      = effects w ++ match client w with
                     | Some c => [ClientSubscribe (client_id c) pattern]
                     | None => []
                     end
   /\ eventHandlers (subscribe_callback pattern err registered)
      = eventHandlers registered
   /\ effects (subscribe_callback pattern err registered)
      = effects registered
        ++ (if err then [ConsoleError (FailedToSubscribe pattern)] else []))
  /\ (eventHandlers unregistered = map_delete pattern (eventHandlers w)
      /\ (pattern ∉ (eventHandlers unregistered).*1)
      /\ fst (unregisterHandler pattern w)
         = (match client w with Some _ => Normal | None => Throws NotConnected end)
      /\ effects unregistered
         = effects w ++ match client w with
                        | Some c => [ClientUnsubscribe (client_id c) pattern]
                        | None => []
                        end
      /\ eventHandlers (unsubscribe_callback pattern err unregistered)
         = eventHandlers unregistered
      /\ effects (unsubscribe_callback pattern err unregistered)
         = effects unregistered
           ++ (if err then [ConsoleError (FailedToUnsubscribe pattern)] else [])).
Proof.
  unfold registerHandler, unregisterHandler, subscribe, unsubscribe,
    subscribe_callback, unsubscribe_callback.
  pose proof (map_set_elem pattern h (eventHandlers w)).
  pose proof (map_delete_not_elem pattern (eventHandlers w)).
  destruct w as [[c|] ri mi cur ct eh cb rid cid flag tm nid pe eff];
    destruct err; simpl in *; rewrite ?app_nil_r; repeat split; done.
Qed.

(** On a wrapper that never connected, [registerHandler] throws. *)
Lemma registerHandler_before_connect_throws :
  fst (registerHandler "a/b" (mkHandler 1 false)
         (MqttClientWrapper None None None every_callback))
  = Throws NotConnected.
Proof. reflexivity. Qed.

End TransportFacts.

(** ** Invariants of the reachable states *)

Section ReachableFacts.
Import Mqtt.

(** The names of the pending timers stay older than [next_id], whatever
    is called and whatever happens. *)
Lemma MqttClientWrapper_timers_fresh (ri mi ct : option Z)
    (cb : ConnectionStatus) :
  timers_fresh (MqttClientWrapper ri mi ct cb).
Proof. constructor. Qed.

Lemma timers_fresh_frame (w w' : Wrapper) :
  timers w' = timers w -> next_id w' = next_id w ->
  timers_fresh w -> timers_fresh w'.
Proof. unfold timers_fresh. by intros -> ->. Qed.

Lemma notify_timers_fresh (n : Notification) (w : Wrapper) :
  timers_fresh w -> timers_fresh (notify n w).
Proof. unfold notify. by destruct (supplied _ _). Qed.

Lemma end_client_timers_fresh (w : Wrapper) :
  timers_fresh w -> timers_fresh (end_client w).
Proof. unfold end_client. by destruct (client w). Qed.

Lemma connect_timers_fresh (w : Wrapper) :
  timers_fresh w -> timers_fresh (connect w).
Proof.
  destruct w as [[[cl conn]|] ri mi cur ct eh [c1 c2 c3 c4 c5 c6] rid cid flag tm nid pe eff];
    unfold timers_fresh, connect, end_client, notify, setTimeout, emit;
    destruct c1; simpl; intros Hfresh; timers_stay_fresh.
Qed.

Lemma disconnect_timers_fresh (w : Wrapper) :
  timers_fresh w -> timers_fresh (disconnect w).
Proof.
  destruct w as [[[cl conn]|] ri mi cur ct eh cb [rid|] [cid|] flag tm nid pe eff];
    unfold timers_fresh, disconnect, clearTimeout, emit;
    simpl; intros Hfresh; timers_stay_fresh.
Qed.

Lemma step_timers_fresh (w : Wrapper) (e : Event) :
  timers_fresh w -> timers_fresh (step w e).
Proof.
  destruct e as [| topic message | | | id | | ? err | ? err | ? err]; simpl.
  - destruct w as [cl ri mi cur ct eh [c1 c2 c3 c4 c5 c6] rid [cid|] flag tm nid pe eff];
      unfold timers_fresh, on_connect, notify, clearTimeout, emit;
      destruct c2; simpl; intros Hfresh; timers_stay_fresh.
  - destruct (on_message_logs topic message w) as (es & -> & _).
    by destruct w.
  - destruct w as [cl ri mi cur ct eh [c1 c2 c3 c4 c5 c6] rid cid flag tm nid pe eff];
      unfold timers_fresh, on_close, notify, reconnectWithBackoff, setTimeout, emit;
      destruct c5, flag; simpl; intros Hfresh; timers_stay_fresh.
  - destruct w as [cl ri mi cur ct eh [c1 c2 c3 c4 c5 c6] rid [cid|] flag tm nid pe eff];
      unfold timers_fresh, on_error, notify, clearTimeout, emit;
      destruct c6; simpl; intros Hfresh; timers_stay_fresh.
  - unfold timer_fired. intros Hfresh.
    destruct (list_find _ (timers w)) as [[i [id' kind]]|]; [|done].
    set (w' := set_timers (filter (fun t => fst t <> id) (timers w)) w).
    assert (Hrest : timers_fresh w') by by apply timers_filter_older.
    clearbody w'. destruct kind.
    + unfold reconnect_timer_fired. cbv zeta.
      assert (Hconnect : timers_fresh (connect (notify connecting w')))
        by by apply connect_timers_fresh, notify_timers_fresh.
      revert Hconnect. generalize (connect (notify connecting w')).
      by intros [].
    + by apply end_client_timers_fresh, notify_timers_fresh.
  - destruct w as [cl ri mi cur ct eh [c1 c2 c3 c4 c5 c6] rid cid flag tm nid [|pe] eff];
      unfold timers_fresh, end_completed, end_callback, notify, emit;
      destruct c3; simpl; intros Hfresh; timers_stay_fresh.
  - by destruct w, err.
  - by destruct w, err.
  - by destruct w, err.
Qed.

Lemma run_timers_fresh (events : list Event) (w : Wrapper) :
  timers_fresh w -> timers_fresh (run events w).
Proof.
  revert w. induction events as [|e events IH]; intros w Hw; [done|].
  simpl. by apply IH, step_timers_fresh.
Qed.

Lemma call_timers_fresh (w : Wrapper) (c : Call) :
  timers_fresh w -> timers_fresh (call w c).
Proof.
  destruct c; simpl.
  - apply connect_timers_fresh.
  - apply disconnect_timers_fresh.
  - unfold registerHandler, subscribe. simpl. by destruct w as [[]].
  - unfold unregisterHandler, unsubscribe. simpl. by destruct w as [[]].
  - unfold subscribe. by destruct w as [[]].
  - unfold publish. by destruct w as [[]].
  - unfold unsubscribe. by destruct w as [[]].
Qed.

Lemma reachable_timers_fresh (w : Wrapper) :
  reachable w -> timers_fresh w.
Proof.
  induction 1 as [ri mi ct cb | w c _ IH | w e _ IH].
  - apply MqttClientWrapper_timers_fresh.
  - by apply call_timers_fresh.
  - by apply step_timers_fresh.
Qed.

Lemma notify_eventHandlers (n : Notification) (w : Wrapper) :
  eventHandlers (notify n w) = eventHandlers w.
Proof. unfold notify. by destruct (supplied _ _). Qed.

Lemma connect_eventHandlers (w : Wrapper) :
  eventHandlers (connect w) = eventHandlers w.
Proof.
  destruct w as [[[cl conn]|] ri mi cur ct eh [[] c2 c3 c4 c5 c6] rid cid flag tm nid pe eff];
    vm_compute; reflexivity.
Qed.

Lemma step_eventHandlers (w : Wrapper) (e : Event) :
  eventHandlers (step w e) = eventHandlers w.
Proof.
  destruct e as [| topic message | | | id | | ? err | ? err | ? err]; simpl.
  - destruct w as [cl ri mi cur ct eh [c1 [] c3 c4 c5 c6] rid [cid|] flag tm nid pe eff];
      reflexivity.
  - destruct (on_message_logs topic message w) as (es & -> & _).
    by destruct w.
  - destruct w as [cl ri mi cur ct eh [c1 c2 c3 c4 [] c6] rid cid [] tm nid pe eff];
      reflexivity.
  - destruct w as [cl ri mi cur ct eh [c1 c2 c3 c4 c5 []] rid [cid|] flag tm nid pe eff];
      reflexivity.
  - unfold timer_fired.
    destruct (list_find _ (timers w)) as [[i [id' kind]]|]; [|done].
    set (w' := set_timers (filter (fun t => fst t <> id) (timers w)) w).
    assert (Hrest : eventHandlers w' = eventHandlers w) by done.
    clearbody w'. rewrite <- Hrest. destruct kind.
    + unfold reconnect_timer_fired. cbv zeta.
      rewrite <- (notify_eventHandlers connecting w').
      rewrite <- (connect_eventHandlers (notify connecting w')).
      generalize (connect (notify connecting w')). by intros [].
    + unfold connection_timer_fired, end_client.
      rewrite <- (notify_eventHandlers timedout w').
      generalize (notify timedout w'). by intros [[]].
  - destruct w as [cl ri mi cur ct eh [c1 c2 [] c4 c5 c6] rid cid flag tm nid [|pe] eff];
      reflexivity.
  - by destruct w, err.
  - by destruct w, err.
  - by destruct w, err.
Qed.

(** The registry of a wrapper never holds a pattern twice. *)
Lemma reachable_registry_NoDup (w : Wrapper) :
  reachable w -> NoDup (eventHandlers w).*1.
Proof.
  induction 1 as [ri mi ct cb | w c _ IH | w e _ IH].
  - apply NoDup_nil_2.
  - destruct c; cbn [call].
    + by rewrite connect_eventHandlers.
    + assert (eventHandlers (disconnect w) = []) as ->; [|apply NoDup_nil_2].
      destruct w as [[[cl conn]|] ri mi cur ct eh cb [rid|] [cid|] flag tm nid pe eff];
        reflexivity.
    + assert (eventHandlers (snd (registerHandler topic handler w))
              = map_set topic handler (eventHandlers w)) as ->
        by (unfold registerHandler, subscribe; simpl; by destruct w as [[]]).
      by apply map_set_NoDup.
    + assert (eventHandlers (snd (unregisterHandler topic w))
              = map_delete topic (eventHandlers w)) as ->
        by (unfold unregisterHandler, unsubscribe; simpl; by destruct w as [[]]).
      by apply map_delete_NoDup.
    + unfold subscribe. by destruct w as [[]].
    + unfold publish. by destruct w as [[]].
    + unfold unsubscribe. by destruct w as [[]].
  - by rewrite step_eventHandlers.
Qed.

End ReachableFacts.

(** ** Explicit disconnect *)

Section DisconnectFacts.
Import Mqtt.

Lemma reconnect_attempts_app (es es' : list Effect) :
  reconnect_attempts (es ++ es')
  = reconnect_attempts es ++ reconnect_attempts es'.
Proof. apply filter_app. Qed.

Lemma not_elem_of_filter_timers (P : nat * TimerKind -> Prop)
    `{forall t, Decision (P t)} (tm : list (nat * TimerKind)) :
  (forall id, (id, ReconnectTimer) ∉ tm) ->
  forall id, (id, ReconnectTimer) ∉ filter P tm.
Proof. intros Hno id [_ Hin]%list_elem_of_filter. by apply (Hno id). Qed.

Lemma disconnect_shuts_down (w : Wrapper) :
  reconnect_timer_tracked w ->
  shut_down (disconnect w)
  /\ reconnect_attempts (effects (disconnect w))
     = reconnect_attempts (effects w).
Proof.
  destruct w as [cl ri mi cur ct eh cb rid cid flag tm nid pe eff].
  unfold reconnect_timer_tracked, shut_down, disconnect, clearTimeout, emit.
  simpl. intros Htracked.
  destruct rid as [r|], cid as [c|], cl as [[cl conn]|]; simpl;
    rewrite ?reconnect_attempts_app, ?app_nil_r; (split; [split|]); try done.
  all: intros id Hin; repeat apply list_elem_of_filter in Hin as [? Hin];
    simpl in *; apply Htracked in Hin; congruence.
Qed.

Lemma logs_no_reconnect (es : list Effect) :
  Forall (fun e => is_log e = true) es ->
  reconnect_attempts es = [] /\ notifications disconnected es = 0.
Proof.
  unfold reconnect_attempts, notifications.
  induction 1 as [|e es He _ [IH1 IH2]]; [done|].
  destruct e; try discriminate; rewrite !filter_cons_False by done; done.
Qed.

Lemma step_shut_down (w : Wrapper) (e : Event) :
  shut_down w ->
  shut_down (step w e)
  /\ reconnect_attempts (effects (step w e))
     = reconnect_attempts (effects w).
Proof.
  intros [Hflag Hno]. destruct e as [| topic message | | | id | | ? err | ? err | ? err]; simpl.
  - destruct w as [cl ri mi cur ct eh [c1 c2 c3 c4 c5 c6] rid [cid|] flag tm nid pe eff];
      unfold shut_down, on_connect, notify, clearTimeout, emit; simpl in *;
      destruct c2; simpl; rewrite ?reconnect_attempts_app, ?app_nil_r;
      repeat split; try done; by apply not_elem_of_filter_timers.
  - destruct (on_message_logs topic message w) as (es & -> & Hes).
    apply logs_no_reconnect in Hes as [Hes _].
    destruct w; simpl in *. rewrite reconnect_attempts_app, Hes, app_nil_r.
    done.
  - destruct w as [cl ri mi cur ct eh [c1 c2 c3 c4 c5 c6] rid cid flag tm nid pe eff];
      unfold shut_down, on_close, notify, emit; simpl in *; subst flag;
      destruct c5; simpl; rewrite ?reconnect_attempts_app, ?app_nil_r; done.
  - destruct w as [cl ri mi cur ct eh [c1 c2 c3 c4 c5 c6] rid [cid|] flag tm nid pe eff];
      unfold shut_down, on_error, notify, clearTimeout, emit; simpl in *;
      destruct c6; simpl; rewrite ?reconnect_attempts_app, ?app_nil_r;
      repeat split; try done; by apply not_elem_of_filter_timers.
  - unfold timer_fired.
    destruct (list_find _ (timers w)) as [[i [id' kind]]|] eqn:Hfind; [|done].
    apply list_find_Some in Hfind as (Hi & Hid%bool_decide_unpack & _).
    simpl in Hid. subst id'. apply list_elem_of_lookup_2 in Hi.
    destruct kind; [by apply Hno in Hi|].
    destruct w as [[[cl conn]|] ri mi cur ct eh [c1 c2 c3 c4 c5 c6] rid cid flag tm nid pe eff];
      unfold shut_down, connection_timer_fired, end_client, notify, emit;
      simpl in *; destruct c4; simpl;
      rewrite ?reconnect_attempts_app, ?app_nil_r;
      repeat split; try done; by apply not_elem_of_filter_timers.
  - destruct w as [cl ri mi cur ct eh [c1 c2 c3 c4 c5 c6] rid cid flag tm nid [|pe] eff];
      unfold shut_down, end_completed, end_callback, notify, emit; simpl in *;
      [done|]; destruct c3; simpl;
      rewrite ?reconnect_attempts_app, ?app_nil_r; done.
  - destruct w, err; simpl in *; rewrite ?reconnect_attempts_app, ?app_nil_r; done.
  - destruct w, err; simpl in *; rewrite ?reconnect_attempts_app, ?app_nil_r; done.
  - destruct w, err; simpl in *; rewrite ?reconnect_attempts_app, ?app_nil_r; done.
Qed.

Lemma run_shut_down (events : list Event) (w : Wrapper) :
  shut_down w ->
  shut_down (run events w)
  /\ reconnect_attempts (effects (run events w))
     = reconnect_attempts (effects w).
Proof.
  revert w. induction events as [|e events IH]; intros w Hw; [done|].
  simpl. destruct (step_shut_down w e Hw) as [Hw' Heq].
  destruct (IH _ Hw') as [Hw'' Heq']. split; [done|]. congruence.
Qed.

Lemma notifications_app (n : Notification) (es es' : list Effect) :
  notifications n (es ++ es') = notifications n es + notifications n es'.
Proof. unfold notifications. by rewrite filter_app, length_app. Qed.

Lemma notifications_same (n : Notification) :
  notifications n [Notify n] = 1.
Proof. unfold notifications. by rewrite filter_cons_True. Qed.

Lemma notifications_other (n : Notification) (e : Effect) :
  e <> Notify n -> notifications n [e] = 0.
Proof. intros He. unfold notifications. by rewrite filter_cons_False. Qed.

Ltac count_notifications :=
  rewrite ?notifications_app, ?notifications_same;
  rewrite ?notifications_other by done;
  lia.

(** The disconnected notifications given plus the completion callbacks
    still to run: no event makes the sum grow. *)
Lemma step_disconnected_budget (w : Wrapper) (e : Event) :
  notifications disconnected (effects (step w e)) + pending_end (step w e)
  <= notifications disconnected (effects w) + pending_end w.
Proof.
  destruct e as [| topic message | | | id | | ? err | ? err | ? err]; simpl.
  - destruct w as [cl ri mi cur ct eh [c1 c2 c3 c4 c5 c6] rid [cid|] flag tm nid pe eff];
      unfold on_connect, notify, clearTimeout, emit; simpl;
      destruct c2; simpl; count_notifications.
  - destruct (on_message_logs topic message w) as (es & -> & Hes).
    apply logs_no_reconnect in Hes as [_ Hes].
    destruct w; simpl. rewrite notifications_app, Hes. lia.
  - destruct w as [cl ri mi cur ct eh [c1 c2 c3 c4 c5 c6] rid cid flag tm nid pe eff];
      unfold on_close, notify, reconnectWithBackoff, setTimeout, emit; simpl;
      destruct c5, flag; simpl; count_notifications.
  - destruct w as [cl ri mi cur ct eh [c1 c2 c3 c4 c5 c6] rid [cid|] flag tm nid pe eff];
      unfold on_error, notify, clearTimeout, emit; simpl;
      destruct c6; simpl; count_notifications.
  - unfold timer_fired.
    destruct (list_find _ (timers w)) as [[i [id' kind]]|]; [|done].
    destruct w as [[[cl conn]|] ri mi cur ct eh [c1 c2 c3 c4 c5 c6] rid cid flag tm nid pe eff];
      destruct kind;
      unfold reconnect_timer_fired, connection_timer_fired, connect,
        end_client, notify, setTimeout, emit; simpl;
      destruct c1, c4; simpl; count_notifications.
  - destruct w as [cl ri mi cur ct eh [c1 c2 c3 c4 c5 c6] rid cid flag tm nid [|pe] eff];
      unfold end_completed, end_callback, notify, emit; simpl; [done|];
      destruct c3; simpl; count_notifications.
  - destruct w, err; simpl; count_notifications.
  - destruct w, err; simpl; count_notifications.
  - destruct w, err; simpl; count_notifications.
Qed.

Lemma run_disconnected_budget (events : list Event) (w : Wrapper) :
  notifications disconnected (effects (run events w)) + pending_end (run events w)
  <= notifications disconnected (effects w) + pending_end w.
Proof.
  revert w. induction events as [|e events IH]; intros w; [done|].
  simpl. etrans; [apply IH | apply step_disconnected_budget].
Qed.

Lemma disconnect_disconnected_budget (w : Wrapper) :
  notifications disconnected (effects (disconnect w)) + pending_end (disconnect w)
  = notifications disconnected (effects w) + pending_end w
    + (if client w is Some _ then 1 else 0).
Proof.
  destruct w as [[[cl conn]|] ri mi cur ct eh cb [rid|] [cid|] flag tm nid pe eff];
    unfold disconnect, clearTimeout, emit; simpl;
    count_notifications.
Qed.

Lemma disconnect_after_termination (w : Wrapper) :
  disconnect (end_completed (disconnect w)) = end_completed (disconnect w).
Proof.
  destruct w as [[[cl conn]|] ri mi cur ct eh [c1 c2 c3 c4 c5 c6] [rid|] [cid|] flag tm nid [|pe] eff];
    destruct c3; vm_compute; reflexivity.
Qed.

Lemma disconnect_clears_timers (w : Wrapper) :
  reconnectTimeoutId (disconnect w) = None
  /\ connectionTimeoutId (disconnect w) = None
  /\ forall id,
       reconnectTimeoutId w = Some id \/ connectionTimeoutId w = Some id ->
       id ∉ (timers (disconnect w)).*1.
Proof.
  destruct w as [[[cl conn]|] ri mi cur ct eh cb [rid|] [cid|] flag tm nid pe eff];
    unfold disconnect, clearTimeout, emit; simpl;
    (split; [done|]); (split; [done|]).
  all: intros id [[= ->]|[= ->]].
  all: intros ((i, k) & -> & Hin)%list_elem_of_fmap.
  all: repeat apply list_elem_of_filter in Hin as [? Hin]; done.
Qed.

(** What [disconnect] does achieve. A [disconnect] made once the
    completion callback of an earlier one has run changes nothing, so it
    adds no disconnected notification; one [disconnect] accounts for at
    most one disconnected notification, given only when the transport runs
    the completion callback. After [disconnect] returns the two
    remembered timers are cancelled and forgotten, and, in the states
    where every pending reconnect timer is the remembered one, no sequence
    of transport and timer events sets a reconnect timer or opens a
    connection. One ordinary reconnection leaves a state that is not of
    this kind, with two reconnect timers pending. *)
Theorem disconnect_stops_reconnection (w : Wrapper) (events : list Event) :
  disconnect (end_completed (disconnect w)) = end_completed (disconnect w)
  /\ notifications disconnected (effects (run events (disconnect w)))
     + pending_end (run events (disconnect w))
     <= notifications disconnected (effects w) + pending_end w + 1
  /\ reconnectTimeoutId (disconnect w) = None
  /\ connectionTimeoutId (disconnect w) = None
  /\ (forall id,
         reconnectTimeoutId w = Some id \/ connectionTimeoutId w = Some id ->
         id ∉ (timers (disconnect w)).*1)
  /\ (reconnect_timer_tracked w ->
      isExplicitlyDisconnected (run events (disconnect w)) = true
      /\ reconnect_attempts (effects (run events (disconnect w)))
         = reconnect_attempts (effects w)
      /\ reconnect_attempts (effects (run events (disconnect (disconnect w))))
         = reconnect_attempts (effects w)).
Proof.
  destruct (disconnect_clears_timers w) as (Hrid & Hcid & Hids).
  split; [apply disconnect_after_termination|].
  split.
  { etrans; [apply run_disconnected_budget|].
    rewrite disconnect_disconnected_budget. destruct (client w); lia. }
  do 3 (split; [done|]).
  intros Htracked.
  destruct (disconnect_shuts_down w Htracked) as [Hdown Hsame].
  destruct (run_shut_down events _ Hdown) as [[Hflag _] Hrun].
  assert (Htracked' : reconnect_timer_tracked (disconnect w)).
  { intros id Hin. by apply Hdown in Hin. }
  destruct (disconnect_shuts_down _ Htracked') as [Hdown' Hsame'].
  destruct (run_shut_down events _ Hdown') as [_ Hrun'].
  repeat split; congruence.
Qed.

Lemma disconnect_stops_reconnection_witness :
  let w := broker_closed in
  let events := [EvClose; EvTimer 3; EvEndCompleted; EvError; EvClose] in
  reconnect_timer_tracked w
  /\ timers w = [(3, ReconnectTimer)]
  /\ timers (disconnect w) = []
  /\ isExplicitlyDisconnected (run events (disconnect w)) = true
  /\ reconnect_attempts (effects (run events (disconnect w)))
     = reconnect_attempts (effects w)
  /\ reconnect_attempts (effects (run events (disconnect (disconnect w))))
     = reconnect_attempts (effects w)
  /\ notifications disconnected (effects (run events (disconnect w))) = 1.
Proof.
  intros w events.
  assert (Htracked : reconnect_timer_tracked w).
  { intros id Hin. vm_compute in Hin.
    apply list_elem_of_singleton in Hin. by injection Hin as ->. }
  split; [exact Htracked|].
  split; [reflexivity|]. split; [reflexivity|].
  destruct (disconnect_stops_reconnection w events)
    as (_ & _ & _ & _ & _ & Hquiet).
  destruct (Hquiet Htracked) as (Hflag & Hrun & Hrun').
  split; [exact Hflag|]. split; [exact Hrun|]. split; [exact Hrun'|].
  vm_compute. reflexivity.
Defined.

(** Two calls in a row, before the transport confirmed the first: the
    transport is handed two completion callbacks and the caller is told
    twice. *)
Lemma disconnect_twice_in_a_row_notifies_twice :
  let w := connect (MqttClientWrapper None None None every_callback) in
  pending_end (disconnect (disconnect w)) = 2
  /\ notifications disconnected (effects w) = 0
  /\ notifications disconnected
       (effects (run [EvEndCompleted; EvEndCompleted]
                   (disconnect (disconnect w)))) = 2.
Proof. repeat split. Qed.

(** Two close events before the call leave two reconnect timers, of which
    [disconnect] cancels the one it remembers: when the other one runs, a
    connection is opened after the disconnect. *)
Lemma forgotten_reconnect_timer_survives_disconnect :
  let w := run [EvClose; EvClose]
             (connect (MqttClientWrapper None None None every_callback)) in
  timers w = [(2, ConnectionTimer); (3, ReconnectTimer); (4, ReconnectTimer)]
  /\ reconnectTimeoutId w = Some 4
  /\ timers (disconnect w) = [(3, ReconnectTimer)]
  /\ reconnect_attempts (effects (run [EvTimer 3] (disconnect w)))
     = reconnect_attempts (effects w) ++ [MqttConnect 5]
  /\ isExplicitlyDisconnected (run [EvTimer 3] (disconnect w)) = false.
Proof. vm_compute. repeat split. Qed.

End DisconnectFacts.

(** ** The pooled service *)

Section PoolFacts.
Import Redis.

Lemma initPool_returns (s : Service) :
  exists s0,
    initPool s = (Returns tt, s0)
    /\ store s0 = store s /\ commands s0 = commands s.
Proof.
  unfold initPool. destruct (pool s); [by eexists|].
  destruct (initPromise s); [by eexists|].
  by eexists.
Qed.

Lemma acquire_lends (s0 s1 : Service) (client : nat) :
  acquire s0 = (Returns client, s1) ->
  on_loan client s1
  /\ store s1 = store s0 /\ commands s1 = commands s0.
Proof.
  unfold acquire, on_loan. destruct (pool s0) as [[idl bor]|]; [|done].
  simpl. destruct idl as [|c rest].
  - destruct (Nat.ltb _ _); [|done].
    intros [= <- <-]. simpl. split; [|done].
    eexists. split; [done|]. simpl. left.
  - intros [= <- <-]. simpl. split; [|done].
    eexists. split; [done|]. simpl. left.
Qed.

Lemma release_returns (s : Service) (client : nat) :
  on_loan client s ->
  exists s',
    release client s = (Returns tt, s')
    /\ returned client s'
    /\ store s' = store s /\ commands s' = commands s /\ log s' = log s.
Proof.
  intros (p & Hp & Hin). unfold release. rewrite Hp.
  rewrite bool_decide_eq_true_2 by done.
  eexists. split; [done|]. split; [|done].
  eexists. split; [done|]. simpl. split.
  - by intros [? _]%list_elem_of_filter.
  - apply elem_of_app. right. left.
Qed.

Lemma withClient_borrowed {T : Type} (action : nat -> M T)
    (s s1 : Service) (client : nat) :
  acquire (snd (initPool s)) = (Returns client, s1) ->
  withClient action s
  = try_finally
      (try_catch (action client)
         (fun err => logger error (OperationFailed err) ;; raise err))
      (release client) s1.
Proof.
  intros Hacq. unfold withClient, bind at 1 2.
  destruct (initPool_returns s) as (s0 & Hinit & _).
  rewrite Hinit in *. simpl in Hacq. by rewrite Hacq.
Qed.

Lemma withClient_settles {T : Type} (action : nat -> M T)
    (s s1 : Service) (client : nat) :
  acquire (snd (initPool s)) = (Returns client, s1) ->
  on_loan client (snd (action client s1)) ->
  match action client s1 with
  | (Returns a, s2) =>
      exists s',
        withClient action s = (Returns a, s')
        /\ returned client s'
        /\ store s' = store s2 /\ commands s' = commands s2
        /\ log s' = log s2
  | (Raises e, s2) =>
      exists s',
        withClient action s = (Raises e, s')
        /\ returned client s'
        /\ store s' = store s2 /\ commands s' = commands s2
        /\ log s' = log s2 ++ [(error, OperationFailed e)]
  | (Pending, s2) => withClient action s = (Pending, s2)
  end.
Proof.
  intros Hacq Hloan. rewrite (withClient_borrowed action s s1 client Hacq).
  unfold try_finally, try_catch.
  destruct (action client s1) as [[a|e|] s2]; simpl in *.
  - destruct (release_returns s2 client Hloan)
      as (s' & -> & Hret & Hstore & Hcmd & Hlog).
    by exists s'.
  - unfold bind, logger, raise. simpl.
    destruct (release_returns
                (set_log (log s2 ++ [(error, OperationFailed e)]) s2) client)
      as (s' & -> & Hret & Hstore & Hcmd & Hlog).
    { destruct Hloan as (p & Hp & Hin). by exists p. }
    by exists s'.
  - reflexivity.
Qed.

(** C6. Once a client is borrowed, [withClient] gives it back on both
    paths of an action that leaves the loans of the pool alone: when the
    action returns, its result is returned and the client is idle in the
    pool again; when the action raises, the failure is logged, the same
    error reaches the caller and the client is idle in the pool again. *)
Theorem withClient_always_releases {T : Type} (action : nat -> M T)
    (s s1 : Service) (client : nat) :
  acquire (snd (initPool s)) = (Returns client, s1) ->
  keeps_loans action ->
  match action client s1 with
  | (Returns a, s2) =>
      fst (withClient action s) = Returns a
      /\ returned client (snd (withClient action s))
      /\ log (snd (withClient action s)) = log s2
  | (Raises e, s2) =>
      fst (withClient action s) = Raises e
      /\ returned client (snd (withClient action s))
      /\ log (snd (withClient action s))
         = log s2 ++ [(error, OperationFailed e)]
  | (Pending, s2) => fst (withClient action s) = Pending
  end.
Proof.
  intros Hacq Hkeeps.
  destruct (acquire_lends _ _ _ Hacq) as ((p & Hp & Hin) & _).
  destruct (Hkeeps client s1 p Hp) as (p' & Hp' & Hsame).
  assert (Hloan : on_loan client (snd (action client s1))).
  { exists p'. split; [done|]. by rewrite Hsame. }
  pose proof (withClient_settles action s s1 client Hacq Hloan) as Hsettles.
  destruct (action client s1) as [[a|e|] s2].
  - destruct Hsettles as (s' & -> & Hret & _ & _ & Hlog). done.
  - destruct Hsettles as (s' & -> & Hret & _ & _ & Hlog). done.
  - by rewrite Hsettles.
Qed.

Lemma withClient_always_releases_witness :
  let s := RedisService ∅ in
  (fst (withClient (fun _ => raise (T:=unit) (ActionError 7)) s)
   = Raises (ActionError 7)
   /\ returned 1 (snd (withClient (fun _ => raise (T:=unit) (ActionError 7)) s))
   /\ log (snd (withClient (fun _ => raise (T:=unit) (ActionError 7)) s))
      = [(info, InitializingPool); (info, ClientCreated); (info, ClientCreated)]
        ++ [(error, OperationFailed (ActionError 7))])
  /\ (fst (withClient (fun client => ret client) s) = Returns 1
      /\ returned 1 (snd (withClient (fun client => ret client) s))
      /\ log (snd (withClient (fun client => ret client) s))
         = [(info, InitializingPool); (info, ClientCreated); (info, ClientCreated)]).
Proof.
  split.
  - apply (withClient_always_releases
             (fun _ => raise (T:=unit) (ActionError 7)) (RedisService ∅)
             (snd (acquire (snd (initPool (RedisService ∅))))) 1).
    + reflexivity.
    + intros client s p Hp. by exists p.
  - apply (withClient_always_releases
             (fun client => ret client) (RedisService ∅)
             (snd (acquire (snd (initPool (RedisService ∅))))) 1).
    + reflexivity.
    + intros client s p Hp. by exists p.
Defined.

End PoolFacts.

(** ** Operations on keys *)

Section KeyFacts.
Import Redis.
Context {V : Type} `{Json V} `{Server}.

Lemma borrowed_store (s s1 : Service) (client : nat) :
  acquire (snd (initPool s)) = (Returns client, s1) ->
  on_loan client s1 /\ store s1 = store s /\ commands s1 = commands s.
Proof.
  intros Hacq. destruct (initPool_returns s) as (s0 & Hinit & Hst & Hcmd).
  rewrite Hinit in Hacq. simpl in Hacq.
  destruct (acquire_lends _ _ _ Hacq) as (Hloan & Hst' & Hcmd').
  repeat split; [done | congruence | congruence].
Qed.

Lemma get_settles (key : string) (s s1 : Service) (client : nat) :
  acquire (snd (initPool s)) = (Returns client, s1) ->
  let r := get (V:=V) key s in
  commands (snd r) = commands s ++ [GET key]
  /\ store (snd r) = store s
  /\ returned client (snd r)
  /\ match store s !! key with
     | None => fst r = Returns None /\ log (snd r) = log s1
     | Some e =>
         if String.eqb (payload e) "" then
           fst r = Returns None /\ log (snd r) = log s1
         else
           match JSON_parse (payload e) with
           | None =>
               fst r = Returns None
               /\ log (snd r) = log s1 ++ [(error, FailedToParse key SyntaxError)]
           | Some v => fst r = Returns (Some v) /\ log (snd r) = log s1
           end
     end.
Proof.
  intros Hacq r. subst r.
  destruct (borrowed_store s s1 client Hacq) as (Hloan & Hst & Hcmd).
  unfold get.
  match goal with
  | |- context [withClient ?a s] => remember a as action eqn:Haction
  end.
  pose proof (withClient_settles action s s1 client Hacq) as Hsettles.
  destruct (action client s1) as [o s2] eqn:Hact.
  rewrite Haction in Hact.
  unfold bind, client_get, try_catch, parse, logger, ret, raise in Hact.
  simpl in Hact. rewrite Hst in Hact.
  assert (Hkept : forall (l : list (Level * Message)) (s' : Service),
            s' = set_log l (send (GET key) s1) -> on_loan client s').
  { intros l s' ->. destruct Hloan as (p & Hp & Hin). by exists p. }
  destruct (store s !! key) as [[text ex]|]; simpl in Hact |- *.
  - destruct (String.eqb text "").
    + injection Hact as <- <-.
      destruct Hsettles as (s' & -> & Hret & Hst' & Hcmd' & Hlog);
        [by eapply Hkept|].
      simpl in *. rewrite Hcmd', Hst', Hlog, Hcmd, Hst. done.
    + destruct (JSON_parse text); injection Hact as <- <-;
        (destruct Hsettles as (s' & -> & Hret & Hst' & Hcmd' & Hlog);
         [by eapply Hkept|]);
        simpl in *; rewrite Hcmd', Hst', Hlog, Hcmd, Hst; done.
  - injection Hact as <- <-.
    destruct Hsettles as (s' & -> & Hret & Hst' & Hcmd' & Hlog);
      [by eapply Hkept|].
    simpl in *. rewrite Hcmd', Hst', Hlog, Hcmd, Hst. done.
Qed.

(** C4 (amended: the text is not empty). Once a client is borrowed,
    [get] returns null and logs nothing when the key is absent; when the
    key holds a text that is not empty and that [JSON.parse] rejects, [get]
    logs the failure at error level and returns null, and it raises
    nothing; when the key holds the empty text, [get] returns null without
    parsing and without a log line; otherwise it returns the parsed
    value. *)
Theorem get_returns_null_on_damaged_text (key : string) (s s1 : Service)
    (client : nat) :
  acquire (snd (initPool s)) = (Returns client, s1) ->
  match store s !! key with
  | None =>
      fst (get (V:=V) key s) = Returns None
      /\ log (snd (get (V:=V) key s)) = log s1
  | Some e =>
      if String.eqb (payload e) "" then
        fst (get (V:=V) key s) = Returns None
        /\ log (snd (get (V:=V) key s)) = log s1
      else
        match JSON_parse (V:=V) (payload e) with
        | None =>
            fst (get (V:=V) key s) = Returns None
            /\ log (snd (get (V:=V) key s))
               = log s1 ++ [(error, FailedToParse key SyntaxError)]
        | Some v =>
            fst (get (V:=V) key s) = Returns (Some v)
            /\ log (snd (get (V:=V) key s)) = log s1
        end
  end.
Proof.
  intros Hacq.
  destruct (get_settles key s s1 client Hacq) as (_ & _ & _ & Hget).
  exact Hget.
Qed.

Lemma withClient_commands {T : Type} (action : nat -> M T)
    (s s1 : Service) (client : nat) :
  acquire (snd (initPool s)) = (Returns client, s1) ->
  commands (snd (withClient action s)) = commands (snd (action client s1))
  /\ store (snd (withClient action s)) = store (snd (action client s1)).
Proof.
  intros Hacq. rewrite (withClient_borrowed action s s1 client Hacq).
  unfold try_finally, try_catch, bind, logger, raise, release.
  destruct (action client s1) as [[a|e|] s2]; simpl; [| |done].
  - destruct (pool s2); [|done]. by destruct (bool_decide _).
  - destruct (pool s2); [|done]. by destruct (bool_decide _).
Qed.

(** Whatever becomes of it, a call of [withClient] only adds to the
    commands the server received when its action does. *)
Lemma withClient_extends_commands {T : Type} (action : nat -> M T) :
  (forall client s, exists rest,
      commands (snd (action client s)) = commands s ++ rest) ->
  forall s, exists rest,
    commands (snd (withClient action s)) = commands s ++ rest.
Proof.
  intros Haction s.
  destruct (initPool_returns s) as (s0 & Hinit & _ & Hcmd).
  destruct (acquire s0) as [[client|e|] s1] eqn:Hacq.
  - destruct (withClient_commands action s s1 client) as [-> _].
    { by rewrite Hinit. }
    destruct (acquire_lends _ _ _ Hacq) as (_ & _ & Hcmd').
    destruct (Haction client s1) as (rest & ->). exists rest. congruence.
  - exists []. unfold withClient, bind. rewrite Hinit, Hacq. simpl.
    revert Hacq. unfold acquire. destruct (pool s0) as [[[|c idl] bor]|]; simpl.
    + by destruct (Nat.ltb _ _).
    + done.
    + intros [= _ <-]. by rewrite app_nil_r.
  - exists []. unfold withClient, bind. rewrite Hinit, Hacq. simpl.
    revert Hacq. unfold acquire. destruct (pool s0) as [[[|c idl] bor]|]; simpl.
    + destruct (Nat.ltb _ _); [done|]. intros [= <-]. by rewrite app_nil_r.
    + done.
    + done.
Qed.

Lemma set_extends_commands (key : string) (value : V) (ttl : option Z)
    (s : Service) :
  exists rest, commands (snd (set key value ttl s)) = commands s ++ rest.
Proof.
  apply withClient_extends_commands. intros client s'.
  destruct (truthy ttl); [unfold client_set_ex; destruct (_ && _)|];
    by eexists [_].
Qed.

(** What [set] leaves on the server once a client is borrowed: nothing
    new when the server refuses the time to live. *)
Lemma set_settles (key : string) (value : V) (ttl : option Z)
    (s s1 : Service) (client : nat) :
  acquire (snd (initPool s)) = (Returns client, s1) ->
  store (snd (set key value ttl s))
  = if ttl_refused ttl then store s
    else <[key := mkEntry (JSON_stringify value)
                    (if truthy ttl then ttl else None)]> (store s).
Proof.
  intros Hacq. destruct (borrowed_store s s1 client Hacq) as (_ & Hst & _).
  unfold set.
  match goal with
  | |- context [withClient ?a s] =>
      destruct (withClient_commands a s s1 client Hacq) as [_ ->]
  end.
  unfold ttl_refused, client_set_ex.
  destruct ttl as [seconds|]; simpl; [|by rewrite Hst].
  destruct (Z.eqb seconds 0); simpl; [by rewrite Hst|].
  destruct (_ && _); simpl; by rewrite Hst.
Qed.

(** C5. Once a client is borrowed, [update] first asks the server whether
    the key exists: the check is the first command it sends, before any
    write. For a key that is absent then, [update] raises the
    key-does-not-exist error, sends nothing else and leaves the keys of the
    server as they were. *)
Theorem update_missing_key_rejected (key : string) (value : V)
    (ttl : option Z) (s s1 : Service) (client : nat) :
  acquire (snd (initPool s)) = (Returns client, s1) ->
  (exists rest,
      commands (snd (update key value ttl s))
      = commands s ++ EXISTS key :: rest)
  /\ (store s !! key = None ->
      fst (update key value ttl s) = Raises (KeyDoesNotExist key)
      /\ commands (snd (update key value ttl s)) = commands s ++ [EXISTS key]
      /\ store (snd (update key value ttl s)) = store s
      /\ returned client (snd (update key value ttl s))).
Proof.
  intros Hacq.
  destruct (borrowed_store s s1 client Hacq) as (Hloan & Hst & Hcmd).
  unfold update.
  match goal with
  | |- context [withClient ?a s] => remember a as action eqn:Haction
  end.
  split.
  - destruct (withClient_commands action s s1 client Hacq) as [-> _].
    rewrite Haction. unfold bind, client_exists, raise. simpl.
    destruct (Nat.eqb _ 0).
    + exists []. simpl. by rewrite Hcmd.
    + destruct (set_extends_commands key value ttl (send (EXISTS key) s1))
        as (rest & ->).
      exists rest. simpl. by rewrite Hcmd, <- app_assoc.
  - intros Habsent.
    pose proof (withClient_settles action s s1 client Hacq) as Hsettles.
    destruct (action client s1) as [o s2] eqn:Hact.
    rewrite Haction in Hact. unfold bind, client_exists, raise in Hact.
    simpl in Hact. rewrite Hst, Habsent in Hact. simpl in Hact.
    injection Hact as <- <-.
    destruct Hsettles as (s' & -> & Hret & Hst' & Hcmd' & Hlog).
    { destruct Hloan as (p & Hp & Hin). by exists p. }
    simpl in *. rewrite Hcmd', Hst', Hcmd, Hst. done.
Qed.

End KeyFacts.

Section KeyExamples.
Import Redis.
#[local] Existing Instance Server_int64.

Lemma get_returns_null_on_damaged_text_witness :
  let s := RedisService sample_keys in
  let s1 := snd (acquire (snd (initPool s))) in
  (fst (get (V:=bool) "damaged" s) = Returns None
   /\ log (snd (get (V:=bool) "damaged" s))
      = log s1 ++ [(error, FailedToParse "damaged" SyntaxError)])
  /\ (fst (get (V:=bool) "missing" s) = Returns None
      /\ log (snd (get (V:=bool) "missing" s)) = log s1)
  /\ (fst (get (V:=bool) "ok" s) = Returns (Some true)
      /\ log (snd (get (V:=bool) "ok" s)) = log s1).
Proof.
  split; [|split].
  - exact (get_returns_null_on_damaged_text (V:=bool) "damaged"
             (RedisService sample_keys)
             (snd (acquire (snd (initPool (RedisService sample_keys))))) 1
             eq_refl).
  - exact (get_returns_null_on_damaged_text (V:=bool) "missing"
             (RedisService sample_keys)
             (snd (acquire (snd (initPool (RedisService sample_keys))))) 1
             eq_refl).
  - exact (get_returns_null_on_damaged_text (V:=bool) "ok"
             (RedisService sample_keys)
             (snd (acquire (snd (initPool (RedisService sample_keys))))) 1
             eq_refl).
Defined.

(** The empty text is stored, [JSON.parse] rejects it, and [get] returns
    null with no failure in the log. *)
Lemma get_empty_text_not_logged :
  let s := RedisService sample_keys in
  payload <$> store s !! "empty" = Some ""
  /\ JSON_parse (V:=bool) "" = None
  /\ fst (get (V:=bool) "empty" s) = Returns None
  /\ log (snd (get (V:=bool) "empty" s))
     = [(info, InitializingPool); (info, ClientCreated); (info, ClientCreated)].
Proof. repeat split. Qed.

(** The first revision lets the parse error through, and logs nothing. *)
Lemma get_first_raises_on_damaged_text :
  fst (get_first (V:=bool) "damaged" (RedisService sample_keys))
  = Raises SyntaxError
  /\ log (snd (get_first (V:=bool) "damaged" (RedisService sample_keys))) = [].
Proof. split; reflexivity. Qed.

Lemma update_missing_key_rejected_witness :
  let s := RedisService sample_keys in
  (exists rest,
      commands (snd (update "missing" true (Some 60%Z) s))
      = commands s ++ EXISTS "missing" :: rest)
  /\ (store s !! "missing" = None ->
      fst (update "missing" true (Some 60%Z) s)
      = Raises (KeyDoesNotExist "missing")
      /\ commands (snd (update "missing" true (Some 60%Z) s))
         = commands s ++ [EXISTS "missing"]
      /\ store (snd (update "missing" true (Some 60%Z) s)) = store s
      /\ returned 1 (snd (update "missing" true (Some 60%Z) s))).
Proof.
  apply (update_missing_key_rejected (V:=bool) "missing" true (Some 60%Z)
           (RedisService sample_keys)
           (snd (acquire (snd (initPool (RedisService sample_keys))))) 1).
  reflexivity.
Defined.

(** On a key that exists the check comes first and the write second. *)
Lemma update_existing_key_commands :
  commands (snd (update "ok" false (Some 60%Z) (RedisService sample_keys)))
  = [EXISTS "ok"; SET_EX "ok" "false" 60].
Proof. reflexivity. Qed.

(** C9, at a time to live of zero seconds. [set] with [ttl = 0] sends the
    plain [SET]: the entry is stored without expiry, as when no time to
    live is given, whereas a time to live of seven seconds is stored as
    such. *)
Theorem set_zero_ttl_stored_without_expiry :
  let s := RedisService ∅ in
  commands (snd (set "k" true (Some 0%Z) s)) = [SET "k" "true"]
  /\ store (snd (set "k" true (Some 0%Z) s)) !! "k"
     = Some (mkEntry "true" None)
  /\ store (snd (set "k" true None s)) !! "k" = Some (mkEntry "true" None)
  /\ commands (snd (set "k" true (Some 7%Z) s)) = [SET_EX "k" "true" 7]
  /\ store (snd (set "k" true (Some 7%Z) s)) !! "k"
     = Some (mkEntry "true" (Some 7%Z)).
Proof. repeat split. Qed.

End KeyExamples.

(** * Further properties *)

(** ** Topic matching on whole texts *)

Section TopicTextFacts.
Import TopicMatcher TopicText.

Lemma split_not_nil (sep : ascii) (s : string) : split sep s <> [].
Proof.
  destruct s as [|c s]; simpl; [done|].
  destruct (Ascii.eqb c sep); [done|]. by destruct (split sep s).
Qed.

Lemma join_cons_char (sep c : ascii) (seg : string) (segs : list string) :
  join sep (String c seg :: segs) = String c (join sep (seg :: segs)).
Proof. by destruct segs. Qed.

Lemma join_split (sep : ascii) (s : string) : join sep (split sep s) = s.
Proof.
  induction s as [|c s IH]; [done|]. cbn [split].
  pose proof (split_not_nil sep s) as Hne.
  destruct (split sep s) as [|seg segs]; [done|].
  destruct (Ascii.eqb c sep) eqn:Hc.
  - apply Ascii.eqb_eq in Hc as ->.
    change (join sep ("" :: seg :: segs))
      with (String sep (join sep (seg :: segs))).
    by rewrite IH.
  - by rewrite join_cons_char, IH.
Qed.

Lemma split_inj (sep : ascii) (s t : string) :
  split sep s = split sep t -> s = t.
Proof.
  intros Heq. rewrite <- (join_split sep s), <- (join_split sep t).
  by rewrite Heq.
Qed.

Lemma split_app_sep (sep : ascii) (s t : string) :
  split sep (s +:+ String sep t) = split sep s ++ split sep t.
Proof.
  induction s as [|c s IH].
  - change ("" +:+ String sep t) with (String sep t). simpl.
    by rewrite Ascii.eqb_refl.
  - change (String c s +:+ String sep t) with (String c (s +:+ String sep t)).
    simpl. destruct (Ascii.eqb c sep); [by rewrite IH|].
    rewrite IH. pose proof (split_not_nil sep s).
    by destruct (split sep s).
Qed.

Lemma join_cons (sep : ascii) (x : string) (l : list string) :
  l <> [] -> join sep (x :: l) = x +:+ String sep (join sep l).
Proof. by destruct l. Qed.

Lemma append_assoc (a b c : string) : (a +:+ b) +:+ c = a +:+ (b +:+ c).
Proof.
  induction a as [|x a IH]; [done|].
  change (String x ((a +:+ b) +:+ c) = String x (a +:+ b +:+ c)).
  by rewrite IH.
Qed.

Lemma join_app (sep : ascii) (l k : list string) :
  l <> [] -> k <> [] ->
  join sep (l ++ k) = join sep l +:+ String sep (join sep k).
Proof.
  intros Hl Hk. induction l as [|x l IH]; [done|].
  destruct l as [|y l].
  - simpl app. by rewrite join_cons.
  - rewrite <- app_comm_cons, join_cons by done.
    rewrite IH, (join_cons sep x (y :: l)) by done.
    by rewrite append_assoc.
Qed.

Lemma Matches_wildcard_free (ps ts : list string) :
  wildcard_free ps -> (Matches ps ts <-> ps = ts).
Proof.
  intros Hfree. split.
  - induction 1 as [|ts|ps t ts Ht _ IH|p ps ts Hh Hp _ IH].
    + done.
    + apply Forall_inv in Hfree as [? _]. done.
    + apply Forall_inv in Hfree as [_ ?]. done.
    + f_equal. apply IH. by eapply Forall_inv_tail.
  - intros <-. induction Hfree as [|p ps [Hh Hp] _ IH]; by constructor.
Qed.

Lemma Matches_subtree (ps ts : list string) :
  wildcard_free ps ->
  (Matches (ps ++ ["#"]) ts <-> exists rest, ts = ps ++ rest).
Proof.
  intros Hfree. revert ts.
  induction Hfree as [|p ps [Hh Hp] _ IH]; intros ts; simpl.
  - split; [by eexists|]. intros _. constructor.
  - split.
    + inversion 1 as [|? Heq| |? ? ts' ? ? Hrest]; subst.
      * by destruct ps.
      * done.
      * apply IH in Hrest as [rest ->]. by exists rest.
    + intros [rest ->]. simpl. constructor; [done..|].
      apply IH. by eexists.
Qed.

(** X1. A pattern without wildcard segments matches a topic exactly when
    the two texts are equal. *)
Theorem matchTopic_literal_pattern (pattern topic : string) :
  wildcard_free (split "/" pattern) ->
  (matchTopic pattern topic = true <-> pattern = topic).
Proof.
  intros Hfree. rewrite matchTopic_Matches, Matches_wildcard_free by done.
  split; [apply split_inj | by intros ->].
Qed.

Lemma matchTopic_literal_pattern_witness :
  (matchTopic "sensors/1/temp" "sensors/1/temp" = true
   <-> "sensors/1/temp" = "sensors/1/temp")
  /\ matchTopic "sensors/1/temp" "sensors/1/temp/" = false.
Proof.
  split; [|reflexivity].
  apply (matchTopic_literal_pattern "sensors/1/temp" "sensors/1/temp").
  repeat constructor; discriminate.
Defined.

(** X2. A literal prefix followed by the multi-level wildcard matches the
    prefix itself and every topic below it, and nothing else. *)
Theorem matchTopic_subtree (prefix topic : string) :
  wildcard_free (split "/" prefix) ->
  (matchTopic (prefix +:+ "/#") topic = true
   <-> topic = prefix \/ exists below, topic = prefix +:+ String "/" below).
Proof.
  intros Hfree.
  rewrite matchTopic_Matches, (split_app_sep "/" prefix "#").
  change (split "/" "#") with ["#"].
  rewrite Matches_subtree by done. split.
  - intros [rest Hrest].
    rewrite <- (join_split "/" topic), Hrest.
    destruct rest as [|r rest].
    + left. by rewrite app_nil_r, join_split.
    + right. exists (join "/" (r :: rest)).
      rewrite join_app, join_split; [done | apply split_not_nil | done].
  - intros [->|[below ->]].
    + exists []. by rewrite app_nil_r.
    + exists (split "/" below). apply split_app_sep.
Qed.

Lemma matchTopic_subtree_witness :
  (matchTopic ("home/kitchen" +:+ "/#") "home/kitchen/lamp/state" = true
   <-> "home/kitchen/lamp/state" = "home/kitchen"
       \/ exists below,
            "home/kitchen/lamp/state" = "home/kitchen" +:+ String "/" below)
  /\ matchTopic "home/kitchen/#" "home/kitchens" = false.
Proof.
  split; [|reflexivity].
  apply (matchTopic_subtree "home/kitchen" "home/kitchen/lamp/state").
  repeat constructor; discriminate.
Defined.

End TopicTextFacts.

(** ** The handler registry *)

Section RegistryFacts.
Import Mqtt.

Lemma message_loop_app (pre rest : list (string * EventHandler))
    (topic message : string) (matched : bool) (w : Wrapper) :
  Forall (fun e => handler_throws (snd e) = false) pre ->
  let calls :=
    map (fun e => HandlerCall (fst e) (snd e) topic message)
      (filter (fun e => TopicMatcher.matchTopic (fst e) topic = true) pre) in
  message_loop (pre ++ rest) topic message matched w
  = message_loop rest topic message
      (matched || negb (bool_decide (calls = [])))
      (set_effects (effects w ++ calls) w).
Proof.
  intros Hreturn. revert matched w.
  induction Hreturn as [|[p h] pre Hh _ IH]; intros matched w; simpl in *.
  - rewrite app_nil_r, orb_false_r. by destruct w.
  - destruct (TopicMatcher.matchTopic p topic) eqn:Hp.
    + rewrite filter_cons_True by done. rewrite Hh, IH. simpl.
      rewrite orb_true_r, <- app_assoc. by destruct w.
    + rewrite filter_cons_False by (simpl; congruence). apply IH.
Qed.

(** X3. A handler that throws ends the dispatch of the message: the
    matching handlers registered before it have been called, it is called,
    the error is written to the console, and no handler registered after
    it is called, nor is the no-match warning given. *)
Theorem throwing_handler_ends_dispatch (w : Wrapper)
    (topic message pattern : string) (h : EventHandler)
    (pre post : list (string * EventHandler)) :
  eventHandlers w = pre ++ (pattern, h) :: post ->
  Forall (fun e => handler_throws (snd e) = false) pre ->
  handler_throws h = true ->
  TopicMatcher.matchTopic pattern topic = true ->
  effects (on_message topic message w)
  = effects w
    ++ map (fun e => HandlerCall (fst e) (snd e) topic message)
         (filter (fun e => TopicMatcher.matchTopic (fst e) topic = true) pre)
    ++ [HandlerCall pattern h topic message;
        ConsoleError ErrorInMessageHandler].
Proof.
  intros Hentries Hpre Hthrows Hmatch. unfold on_message.
  rewrite Hentries, message_loop_app by done. simpl.
  rewrite Hmatch, Hthrows. unfold emit. simpl.
  rewrite <- !app_assoc. done.
Qed.

Lemma throwing_handler_ends_dispatch_witness :
  let w := snd (registerHandler "x/#" (mkHandler 3 false)
                  (snd (registerHandler "x/y" (mkHandler 2 true)
                          (snd (registerHandler "x/+" (mkHandler 1 false)
                                  (connect (MqttClientWrapper None None None
                                              every_callback))))))) in
  drop (length (effects w)) (effects (on_message "x/y" "payload" w))
  = [HandlerCall "x/+" (mkHandler 1 false) "x/y" "payload";
     HandlerCall "x/y" (mkHandler 2 true) "x/y" "payload";
     ConsoleError ErrorInMessageHandler].
Proof.
  intros w.
  rewrite (throwing_handler_ends_dispatch w "x/y" "payload" "x/y"
             (mkHandler 2 true) [("x/+", mkHandler 1 false)]
             [("x/#", mkHandler 3 false)]).
  - by rewrite drop_app_length.
  - reflexivity.
  - by repeat constructor.
  - reflexivity.
  - reflexivity.
Defined.

Lemma map_set_map_set (key : string) (h1 h2 : EventHandler)
    (entries : list (string * EventHandler)) :
  map_set key h2 (map_set key h1 entries) = map_set key h2 entries.
Proof.
  induction entries as [|[k h] entries IH]; simpl.
  - by rewrite String.eqb_refl.
  - destruct (String.eqb k key) eqn:Hk; simpl; rewrite Hk; [done|].
    by rewrite IH.
Qed.

Lemma map_set_other (key k : string) (h h' : EventHandler)
    (entries : list (string * EventHandler)) :
  k <> key -> ((k, h') ∈ map_set key h entries <-> (k, h') ∈ entries).
Proof.
  intros Hne. induction entries as [|[k0 h0] entries IH]; simpl.
  - rewrite elem_of_cons, elem_of_nil. split; [|tauto].
    intros [[= -> _]|[]]. done.
  - destruct (String.eqb k0 key) eqn:Hk.
    + apply String.eqb_eq in Hk as ->. rewrite !elem_of_cons.
      split; (intros [[= ? ?]|?]; [done | by right]).
    + rewrite !elem_of_cons, IH. done.
Qed.

Lemma map_delete_map_set (key : string) (h : EventHandler)
    (entries : list (string * EventHandler)) :
  key ∉ entries.*1 -> map_delete key (map_set key h entries) = entries.
Proof.
  unfold map_delete. induction entries as [|[k h'] entries IH]; simpl.
  - intros _. by rewrite filter_cons_False, filter_nil by (simpl; tauto).
  - intros [Hne Hnot]%not_elem_of_cons. simpl in Hne.
    assert (String.eqb k key = false) as -> by by apply String.eqb_neq.
    rewrite filter_cons_True by done. by rewrite IH.
Qed.

Lemma map_delete_absent (key : string)
    (entries : list (string * EventHandler)) :
  key ∉ entries.*1 -> map_delete key entries = entries.
Proof.
  unfold map_delete. induction entries as [|[k h'] entries IH]; [done|].
  simpl. intros [Hne Hnot]%not_elem_of_cons. simpl in Hne.
  rewrite filter_cons_True by done. by rewrite IH.
Qed.

Lemma calls_for_app (pattern : string) (es es' : list Effect) :
  calls_for pattern (es ++ es') = calls_for pattern es ++ calls_for pattern es'.
Proof. unfold calls_for. apply omap_app. Qed.

Lemma calls_for_emit_call (pattern k : string) (h : EventHandler)
    (topic message : string) (w : Wrapper) :
  calls_for pattern (effects (emit (HandlerCall k h topic message) w))
  = calls_for pattern (effects w)
    ++ (if String.eqb k pattern then [h] else []).
Proof.
  unfold emit. simpl. rewrite calls_for_app. simpl.
  by destruct (String.eqb k pattern).
Qed.

Lemma message_loop_cons (k : string) (h : EventHandler)
    (entries : list (string * EventHandler)) (topic message : string)
    (matched : bool) (w : Wrapper) :
  message_loop ((k, h) :: entries) topic message matched w
  = if TopicMatcher.matchTopic k topic then
      if handler_throws h
      then (None, emit (HandlerCall k h topic message) w)
      else message_loop entries topic message true
             (emit (HandlerCall k h topic message) w)
    else message_loop entries topic message matched w.
Proof. reflexivity. Qed.

(** The listener calls no handler on behalf of a pattern that is not in
    the registry, whatever the handlers do. *)
Lemma message_loop_not_for (pattern : string)
    (entries : list (string * EventHandler)) (topic message : string)
    (matched : bool) (w : Wrapper) :
  pattern ∉ entries.*1 ->
  calls_for pattern
    (effects (snd (message_loop entries topic message matched w)))
  = calls_for pattern (effects w).
Proof.
  revert matched w.
  induction entries as [|[k h] entries IH]; intros matched w Habsent; [done|].
  apply not_elem_of_cons in Habsent as [Hne Habsent]. simpl in Hne.
  assert (Hk : String.eqb k pattern = false)
    by (apply String.eqb_neq; congruence).
  rewrite message_loop_cons.
  destruct (TopicMatcher.matchTopic k topic); [|by apply IH].
  destruct (handler_throws h).
  - cbn [snd]. by rewrite calls_for_emit_call, Hk, app_nil_r.
  - rewrite IH by done. by rewrite calls_for_emit_call, Hk, app_nil_r.
Qed.

Lemma on_message_calls_for (pattern topic message : string) (w : Wrapper) :
  calls_for pattern (effects (on_message topic message w))
  = calls_for pattern
      (effects (snd (message_loop (eventHandlers w) topic message false w))).
Proof.
  unfold on_message.
  destruct (message_loop _ _ _ _ _) as [[[]|] w']; simpl;
    unfold emit; simpl; rewrite ?calls_for_app; simpl;
    by rewrite ?app_nil_r.
Qed.

(** The listener on a registry in which [pattern] was set to [h]: when
    the handlers of the other patterns return, it calls [h] once if the
    pattern matches, and no other handler on behalf of the pattern. *)
Lemma message_loop_for_set (pattern : string) (h : EventHandler)
    (entries : list (string * EventHandler)) (topic message : string)
    (matched : bool) (w : Wrapper) :
  NoDup entries.*1 ->
  (forall k h', (k, h') ∈ entries -> k <> pattern ->
                handler_throws h' = false) ->
  calls_for pattern
    (effects (snd (message_loop (map_set pattern h entries) topic message
                     matched w)))
  = calls_for pattern (effects w)
    ++ (if TopicMatcher.matchTopic pattern topic then [h] else []).
Proof.
  revert matched w.
  induction entries as [|[k h'] entries IH]; intros matched w Hnodup Hreturn.
  - cbn [map_set]. rewrite message_loop_cons.
    destruct (TopicMatcher.matchTopic pattern topic);
      [|by rewrite app_nil_r].
    destruct (handler_throws h); cbn [message_loop snd];
      by rewrite calls_for_emit_call, String.eqb_refl.
  - apply NoDup_cons in Hnodup as [Hfirst Hnodup]. cbn [map_set].
    destruct (String.eqb_spec k pattern) as [->|Hne].
    + rewrite message_loop_cons.
      destruct (TopicMatcher.matchTopic pattern topic).
      * destruct (handler_throws h); cbn [snd];
          rewrite ?message_loop_not_for by done;
          by rewrite calls_for_emit_call, String.eqb_refl.
      * rewrite message_loop_not_for by done. by rewrite app_nil_r.
    + assert (Hk : String.eqb k pattern = false)
        by by apply String.eqb_neq.
      assert (Hh : handler_throws h' = false)
        by (apply (Hreturn k); [left|done]).
      assert (Hrest : forall k0 h0, (k0, h0) ∈ entries -> k0 <> pattern ->
                                    handler_throws h0 = false)
        by (intros k0 h0 Hin; apply Hreturn; by right).
      rewrite message_loop_cons, Hh.
      destruct (TopicMatcher.matchTopic k topic).
      * rewrite IH by done.
        by rewrite calls_for_emit_call, Hk, app_nil_r.
      * by apply IH.
Qed.

(** X4. Registering a pattern a second time replaces its handler: the
    registry is the one that registering the second handler alone gives
    and every other pattern keeps its handler. When the handlers of the
    other patterns return, the listener calls the second handler once for
    a message whose topic the pattern matches, and calls no handler on
    behalf of the pattern for any other message; the first handler is not
    called on behalf of the pattern again. *)
Theorem registerHandler_again_replaces (w : Wrapper)
    (pattern topic message : string) (h1 h2 : EventHandler) :
  reachable w ->
  let twice :=
    snd (registerHandler pattern h2 (snd (registerHandler pattern h1 w))) in
  eventHandlers twice = map_set pattern h2 (eventHandlers w)
  /\ (forall k h, k <> pattern ->
        ((k, h) ∈ eventHandlers twice <-> (k, h) ∈ eventHandlers w))
  /\ ((forall k h, (k, h) ∈ eventHandlers w -> k <> pattern ->
                   handler_throws h = false) ->
      calls_for pattern (effects (on_message topic message twice))
      = calls_for pattern (effects twice)
        ++ (if TopicMatcher.matchTopic pattern topic then [h2] else [])).
Proof.
  intros Hreach twice.
  assert (Htwice : eventHandlers twice = map_set pattern h2 (eventHandlers w)).
  { subst twice. unfold registerHandler, subscribe. simpl.
    destruct w as [[c|] ri mi cur ct eh cb rid cid flag tm nid pe eff];
      simpl; apply map_set_map_set. }
  split; [done|]. split.
  - rewrite Htwice. intros k h Hne. by apply map_set_other.
  - intros Hreturn. rewrite on_message_calls_for, Htwice.
    apply message_loop_for_set; [|done].
    by apply reachable_registry_NoDup.
Qed.

Lemma reachable_connect (w : Wrapper) : reachable w -> reachable (connect w).
Proof. intros Hw. exact (reachable_call w CallConnect Hw). Qed.

Lemma reachable_registerHandler (w : Wrapper) (topic : string)
    (handler : EventHandler) :
  reachable w -> reachable (snd (registerHandler topic handler w)).
Proof.
  intros Hw. exact (reachable_call w (CallRegisterHandler topic handler) Hw).
Qed.

Lemma two_patterns_reachable : reachable two_patterns.
Proof.
  unfold two_patterns. cbv zeta.
  apply reachable_registerHandler, reachable_registerHandler,
    reachable_connect, reachable_new.
Qed.

Lemma registerHandler_again_replaces_witness :
  let twice :=
    snd (registerHandler "x/+" (mkHandler 8 false)
           (snd (registerHandler "x/+" (mkHandler 7 false) two_patterns))) in
  eventHandlers twice
  = [("x/+", mkHandler 8 false); ("x/y", mkHandler 2 false)]
  /\ calls_for "x/+" (effects (on_message "x/y" "payload" twice))
     = calls_for "x/+" (effects twice) ++ [mkHandler 8 false].
Proof.
  intros twice.
  destruct (registerHandler_again_replaces two_patterns "x/+" "x/y" "payload"
              (mkHandler 7 false) (mkHandler 8 false) two_patterns_reachable)
    as (Hregistry & _ & Hcalls).
  split; [exact Hregistry|]. apply Hcalls.
  intros k h Hin _. vm_compute in Hin.
  apply elem_of_cons in Hin as [[= -> ->]|Hin]; [done|].
  apply list_elem_of_singleton in Hin as [= -> ->]. done.
Defined.

(** X5. [unregisterHandler] removes the pattern and only it: the other
    patterns keep their handlers, the listener no longer calls any
    handler on behalf of the pattern, whatever the message and whatever
    the other handlers do, a pattern that is not registered leaves the
    registry as it is, and unregistering a pattern right after registering
    it for the first time gives the registry back. *)
Theorem unregisterHandler_removes_only_the_pattern (w : Wrapper)
    (pattern topic message : string) (h : EventHandler) :
  let unregistered := snd (unregisterHandler pattern w) in
  (forall k h', (k, h') ∈ eventHandlers unregistered
                <-> (k, h') ∈ eventHandlers w /\ k <> pattern)
  /\ calls_for pattern (effects (on_message topic message unregistered))
     = calls_for pattern (effects unregistered)
  /\ (pattern ∉ (eventHandlers w).*1 ->
      eventHandlers unregistered = eventHandlers w
      /\ eventHandlers
           (snd (unregisterHandler pattern (snd (registerHandler pattern h w))))
         = eventHandlers w).
Proof.
  intros unregistered.
  assert (Hun : eventHandlers unregistered
                = map_delete pattern (eventHandlers w)).
  { subst unregistered. unfold unregisterHandler, unsubscribe. simpl.
    by destruct w as [[c|] ri mi cur ct eh cb rid cid flag tm nid pe eff]. }
  split; [|split].
  - rewrite Hun. intros k h'. unfold map_delete.
    rewrite list_elem_of_filter. simpl. tauto.
  - rewrite on_message_calls_for. apply message_loop_not_for.
    rewrite Hun. apply map_delete_not_elem.
  - rewrite Hun. intros Habsent. split; [by apply map_delete_absent|].
    unfold unregisterHandler, registerHandler, unsubscribe, subscribe. simpl.
    destruct w as [[c|] ri mi cur ct eh cb rid cid flag tm nid pe eff];
      simpl in *; by apply map_delete_map_set.
Qed.

(** X6. [disconnect] empties the registry and nothing but
    [registerHandler] fills it again: after a disconnect, whatever events
    follow and even after a new [connect], a message finds no handler and
    only gives the no-match warning. *)
Theorem disconnect_forgets_handlers (w : Wrapper) (events later : list Event)
    (topic message : string) :
  let reconnected := run later (connect (run events (disconnect w))) in
  eventHandlers reconnected = []
  /\ effects (on_message topic message reconnected)
     = effects reconnected ++ [ConsoleWarn (NoHandlerMatched topic)].
Proof.
  intros reconnected.
  assert (Hrun : forall es w0, eventHandlers (run es w0) = eventHandlers w0).
  { induction es as [|e es IH]; intros w0; [done|].
    simpl. by rewrite IH, step_eventHandlers. }
  assert (Hempty : eventHandlers reconnected = []).
  { subst reconnected. rewrite Hrun, connect_eventHandlers, Hrun.
    destruct w as [[[cl conn]|] ri mi cur ct eh cb [rid|] [cid|] flag tm nid pe eff];
      reflexivity. }
  split; [done|].
  rewrite on_message_dispatch by (rewrite Hempty; constructor).
  by rewrite Hempty.
Qed.

End RegistryFacts.

(** ** Timers of the wrapper *)

Section TimerFacts.
Import Mqtt.

Lemma list_find_older_timer (tm : list (nat * TimerKind)) (n id : nat) :
  Forall (fun t => fst t < n) tm -> n <= id ->
  list_find (fun t => bool_decide (fst t = id)) tm = None.
Proof.
  intros Hfresh Hn. apply list_find_None.
  eapply Forall_impl; [exact Hfresh|]. intros t Ht. simpl in *.
  rewrite bool_decide_eq_false_2 by lia. simpl. tauto.
Qed.

Lemma connect_timers (w : Wrapper) :
  timers (connect w) = timers w ++ [(S (next_id w), ConnectionTimer)]
  /\ connectionTimeoutId (connect w) = Some (S (next_id w))
  /\ next_id (connect w) = S (S (next_id w))
  /\ client (connect w) = Some (mkClient (next_id w) false)
  /\ isExplicitlyDisconnected (connect w) = false
  /\ callback (connect w) = callback w
  /\ currentReconnectInterval (connect w) = currentReconnectInterval w
  /\ reconnect_waits (effects (connect w)) = reconnect_waits (effects w).
Proof.
  destruct w as [[[cl conn]|] ri mi cur ct eh [[] c2 c3 c4 c5 c6] rid cid flag tm nid pe eff];
    unfold connect, end_client, notify, setTimeout, emit; simpl;
    rewrite ?reconnect_waits_app; simpl; rewrite ?app_nil_r; done.
Qed.

Lemma on_connect_timers (w : Wrapper) :
  timers (on_connect w)
  = match connectionTimeoutId w with
    | Some id => filter (fun t => fst t <> id) (timers w)
    | None => timers w
    end.
Proof.
  destruct w as [cl ri mi cur ct eh [c1 [] c3 c4 c5 c6] rid [cid|] flag tm nid pe eff];
    reflexivity.
Qed.

Lemma on_connect_fields (w : Wrapper) :
  client (on_connect w)
  = option_map (fun c => mkClient (client_id c) true) (client w)
  /\ callback (on_connect w) = callback w.
Proof.
  destruct w as [cl ri mi cur ct eh [c1 [] c3 c4 c5 c6] rid [cid|] flag tm nid pe eff];
    by split.
Qed.

Lemma connection_timer_fired_effects (w : Wrapper) :
  effects (connection_timer_fired w)
  = effects w
    ++ (if has_timedout (callback w) then [Notify timedout] else [])
    ++ match client w with
       | Some c => [ClientEnd (client_id c) false]
       | None => []
       end.
Proof.
  destruct w as [[[cl conn]|] ri mi cur ct eh [c1 c2 c3 [] c5 c6] rid cid flag tm nid pe eff];
    unfold connection_timer_fired, end_client, notify, emit; simpl;
    by rewrite <- ?app_assoc, ?app_nil_r.
Qed.

Lemma pending_connection_timer_fires (w : Wrapper)
    (tm : list (nat * TimerKind)) (id : nat) :
  timers w = tm ++ [(id, ConnectionTimer)] ->
  Forall (fun t => fst t < id) tm ->
  effects (timer_fired id w)
  = effects w
    ++ (if has_timedout (callback w) then [Notify timedout] else [])
    ++ match client w with
       | Some c => [ClientEnd (client_id c) false]
       | None => []
       end.
Proof.
  intros Htm Hfresh. unfold timer_fired.
  rewrite Htm, list_find_fresh_timer by done.
  by rewrite connection_timer_fired_effects.
Qed.

(** X8. The connect event cancels the connection timeout that the
    preceding [connect] started: the timer is no longer pending, and if the
    event loop still ran it nothing would happen. *)
Theorem connect_event_cancels_timeout (w : Wrapper) (id : nat) :
  timers_fresh w ->
  connectionTimeoutId (connect w) = Some id ->
  timers (on_connect (connect w)) = timers w
  /\ (id ∉ (timers (on_connect (connect w))).*1)
  /\ timer_fired id (on_connect (connect w)) = on_connect (connect w).
Proof.
  intros Hfresh Hid.
  destruct (connect_timers w) as (Htm & Hcid & Hnid & _).
  rewrite Hcid in Hid. injection Hid as <-.
  assert (Hkept : timers (on_connect (connect w)) = timers w).
  { rewrite on_connect_timers, Hcid, Htm.
    apply filter_fresh_timer. eapply timers_older; [|exact Hfresh]. lia. }
  split; [done|]. split.
  - rewrite Hkept. intros ((i, k) & Hi & Hin)%list_elem_of_fmap.
    eapply Forall_forall in Hfresh; [|exact Hin]. simpl in *. lia.
  - unfold timer_fired. rewrite Hkept.
    by rewrite (list_find_older_timer _ (next_id w)) by (done || lia).
Qed.

Lemma connect_event_cancels_timeout_witness :
  let w := MqttClientWrapper None None None every_callback in
  timers (on_connect (connect w)) = timers w
  /\ (2 ∉ (timers (on_connect (connect w))).*1)
  /\ timer_fired 2 (on_connect (connect w)) = on_connect (connect w).
Proof.
  intros w. apply (connect_event_cancels_timeout w 2).
  - constructor.
  - reflexivity.
Defined.

(** X9. When the connection timeout runs before any connect event, the
    caller is told that the attempt timed out and the transport is ended by
    force; the timer itself schedules nothing, and the close event that the
    forced end brings sets the reconnect timer with the current
    interval. *)
Theorem connection_timeout_ends_transport (w : Wrapper) (id : nat) :
  timers_fresh w ->
  connectionTimeoutId (connect w) = Some id ->
  effects (timer_fired id (connect w))
  = effects (connect w)
    ++ (if has_timedout (callback w) then [Notify timedout] else [])
    ++ [ClientEnd (next_id w) false]
  /\ reconnect_waits (effects (timer_fired id (connect w)))
     = reconnect_waits (effects w)
  /\ reconnect_waits (effects (on_close (timer_fired id (connect w))))
     = reconnect_waits (effects w) ++ [currentReconnectInterval w].
Proof.
  destruct w as [cl ri mi cur ct eh [c1 c2 c3 c4 c5 c6] rid cid flag tm nid pe eff].
  unfold timers_fresh. simpl. intros Hfresh [= <-].
  assert (Hfresh' : Forall (fun t => fst t < S nid) tm)
    by (eapply timers_older; [|exact Hfresh]; lia).
  destruct c1, c4, c5, cl as [[c conn]|];
    unfold connect, end_client, notify, setTimeout, emit; simpl;
    unfold timer_fired; simpl;
    rewrite list_find_fresh_timer by done; simpl;
    unfold connection_timer_fired, on_close, reconnectWithBackoff, end_client,
      notify, setTimeout, emit; simpl;
    rewrite ?reconnect_waits_app; simpl; rewrite ?app_nil_r, <- ?app_assoc;
    done.
Qed.

Lemma connection_timeout_ends_transport_witness :
  let w := MqttClientWrapper (Some 700%Z) None None every_callback in
  effects (timer_fired 2 (connect w))
  = effects (connect w)
    ++ (if has_timedout (callback w) then [Notify timedout] else [])
    ++ [ClientEnd (next_id w) false]
  /\ reconnect_waits (effects (timer_fired 2 (connect w)))
     = reconnect_waits (effects w)
  /\ reconnect_waits (effects (on_close (timer_fired 2 (connect w))))
     = reconnect_waits (effects w) ++ [currentReconnectInterval w].
Proof.
  intros w. apply (connection_timeout_ends_transport w 2).
  - constructor.
  - reflexivity.
Defined.

(** X10. Every time the reconnect timer runs, a caller that supplied the
    connecting callback is told twice: once by the timer's callback and
    once by the [connect] it calls. *)
Theorem reconnect_notifies_connecting_twice (w : Wrapper) :
  has_connecting (callback w) = true ->
  notifications connecting (effects (reconnect_timer_fired w))
  = notifications connecting (effects w) + 2.
Proof.
  destruct w as [[[cl conn]|] ri mi cur ct eh [c1 c2 c3 c4 c5 c6] rid cid flag tm nid pe eff];
    simpl; intros ->;
    unfold reconnect_timer_fired, connect, end_client, notify, setTimeout, emit;
    simpl; rewrite ?notifications_app, ?notifications_same;
    rewrite ?notifications_other by done; lia.
Qed.

Lemma reconnect_notifies_connecting_twice_witness :
  notifications connecting (effects (reconnect_timer_fired broker_closed))
  = notifications connecting (effects broker_closed) + 2.
Proof. apply (reconnect_notifies_connecting_twice broker_closed). reflexivity. Defined.

(** X11. [connect] cancels no timer. Called while the connection timeout
    of an earlier [connect] is pending, it leaves that timer running:
    after the connect event of the new transport the old timer still
    fires, tells the caller that the connection timed out and ends the
    established transport by force. *)
Theorem earlier_timeout_outlives_connect (w : Wrapper) (id : nat) :
  timers_fresh w ->
  connectionTimeoutId (connect w) = Some id ->
  timers (connect (connect w))
  = timers (connect w) ++ [(S (next_id (connect w)), ConnectionTimer)]
  /\ (id, ConnectionTimer) ∈ timers (on_connect (connect (connect w)))
  /\ isConnected (on_connect (connect (connect w))) = true
  /\ effects (timer_fired id (on_connect (connect (connect w))))
     = effects (on_connect (connect (connect w)))
       ++ (if has_timedout (callback w) then [Notify timedout] else [])
       ++ [ClientEnd (next_id (connect w)) false].
Proof.
  intros Hfresh Hid.
  destruct (connect_timers w) as (Htm1 & Hcid1 & Hnid1 & _ & _ & Hcb1 & _).
  rewrite Hcid1 in Hid. injection Hid as <-.
  pose proof (connect_timers_fresh w Hfresh) as Hfresh1.
  destruct (connect_timers (connect w)) as (Htm2 & Hcid2 & _ & Hcl2 & _ & Hcb2 & _).
  destruct (on_connect_fields (connect (connect w))) as (Hcl3 & Hcb3).
  assert (Htm3 : timers (on_connect (connect (connect w))) = timers (connect w)).
  { rewrite on_connect_timers, Hcid2, Htm2.
    apply filter_fresh_timer. eapply timers_older; [|exact Hfresh1]. lia. }
  split; [done|]. split; [|split].
  - rewrite Htm3, Htm1. apply elem_of_app. right. left.
  - unfold isConnected. by rewrite Hcl3, Hcl2.
  - rewrite (pending_connection_timer_fires _ (timers w) (S (next_id w)));
      [| by rewrite Htm3, Htm1 | eapply timers_older; [|exact Hfresh]; lia].
    by rewrite Hcl3, Hcl2, Hcb3, Hcb2, Hcb1.
Qed.

Lemma earlier_timeout_outlives_connect_witness :
  let w := MqttClientWrapper None None None every_callback in
  (2, ConnectionTimer) ∈ timers (on_connect (connect (connect w)))
  /\ isConnected (on_connect (connect (connect w))) = true
  /\ drop (length (effects (on_connect (connect (connect w)))))
       (effects (timer_fired 2 (on_connect (connect (connect w)))))
     = [Notify timedout; ClientEnd 3 false].
Proof.
  intros w.
  destruct (earlier_timeout_outlives_connect w 2) as (_ & Hin & Hup & Heff).
  - constructor.
  - reflexivity.
  - split; [exact Hin|]. split; [exact Hup|].
    rewrite Heff. by rewrite drop_app_length.
Defined.

End TimerFacts.

(** ** The backoff interval *)

Section IntervalFacts.
Import Mqtt.

Lemma notify_intervals (n : Notification) (w : Wrapper) :
  reconnectInterval (notify n w) = reconnectInterval w
  /\ maxReconnectInterval (notify n w) = maxReconnectInterval w
  /\ currentReconnectInterval (notify n w) = currentReconnectInterval w.
Proof. unfold notify. by destruct (supplied _ _). Qed.

Lemma connect_intervals (w : Wrapper) :
  reconnectInterval (connect w) = reconnectInterval w
  /\ maxReconnectInterval (connect w) = maxReconnectInterval w
  /\ currentReconnectInterval (connect w) = currentReconnectInterval w.
Proof.
  destruct w as [[[cl conn]|] ri mi cur ct eh [[] c2 c3 c4 c5 c6] rid cid flag tm nid pe eff];
    vm_compute; done.
Qed.

Lemma call_intervals (w : Wrapper) (c : Call) :
  reconnectInterval (call w c) = reconnectInterval w
  /\ maxReconnectInterval (call w c) = maxReconnectInterval w
  /\ currentReconnectInterval (call w c) = currentReconnectInterval w.
Proof.
  destruct c; cbn [call].
  - apply connect_intervals.
  - destruct w as [[[cl conn]|] ri mi cur ct eh cb [rid|] [cid|] flag tm nid pe eff];
      vm_compute; done.
  - unfold registerHandler, subscribe. simpl. by destruct w as [[]].
  - unfold unregisterHandler, unsubscribe. simpl. by destruct w as [[]].
  - unfold subscribe. by destruct w as [[]].
  - unfold publish. by destruct w as [[]].
  - unfold unsubscribe. by destruct w as [[]].
Qed.

(** An event leaves the base and the cap alone; the current interval
    stays, goes back to the base, or doubles under the cap. *)
Lemma step_intervals (w : Wrapper) (e : Event) :
  reconnectInterval (step w e) = reconnectInterval w
  /\ maxReconnectInterval (step w e) = maxReconnectInterval w
  /\ (currentReconnectInterval (step w e) = currentReconnectInterval w
      \/ currentReconnectInterval (step w e) = reconnectInterval w
      \/ currentReconnectInterval (step w e)
         = Z.min (currentReconnectInterval w * 2) (maxReconnectInterval w)).
Proof.
  destruct e as [| topic message | | | id | | ? err | ? err | ? err]; simpl.
  - destruct w as [cl ri mi cur ct eh [c1 [] c3 c4 c5 c6] rid [cid|] flag tm nid pe eff];
      simpl; auto.
  - destruct (on_message_logs topic message w) as (es & -> & _).
    destruct w; simpl; auto.
  - destruct w as [cl ri mi cur ct eh [c1 c2 c3 c4 [] c6] rid cid [] tm nid pe eff];
      simpl; auto.
  - destruct w as [cl ri mi cur ct eh [c1 c2 c3 c4 c5 []] rid [cid|] flag tm nid pe eff];
      simpl; auto.
  - unfold timer_fired.
    destruct (list_find _ (timers w)) as [[i [id' kind]]|]; [|auto].
    set (w' := set_timers (filter (fun t => fst t <> id) (timers w)) w).
    assert (Hri : reconnectInterval w' = reconnectInterval w) by done.
    assert (Hmi : maxReconnectInterval w' = maxReconnectInterval w) by done.
    assert (Hcur : currentReconnectInterval w' = currentReconnectInterval w)
      by done.
    clearbody w'. rewrite <- Hri, <- Hmi, <- Hcur. clear Hri Hmi Hcur.
    destruct kind.
    + unfold reconnect_timer_fired. cbv zeta.
      destruct (notify_intervals connecting w') as (Hri & Hmi & Hcur).
      destruct (connect_intervals (notify connecting w')) as (Hri' & Hmi' & Hcur').
      rewrite <- Hri, <- Hmi, <- Hcur, <- Hri', <- Hmi', <- Hcur'.
      generalize (connect (notify connecting w')). intros []. simpl. auto.
    + unfold connection_timer_fired, end_client.
      destruct (notify_intervals timedout w') as (Hri & Hmi & Hcur).
      rewrite <- Hri, <- Hmi, <- Hcur.
      generalize (notify timedout w'). intros [[]]; simpl; auto.
  - destruct w as [cl ri mi cur ct eh [c1 c2 [] c4 c5 c6] rid cid flag tm nid [|pe] eff];
      simpl; auto.
  - destruct w, err; simpl; auto.
  - destruct w, err; simpl; auto.
  - destruct w, err; simpl; auto.
Qed.

(** X7. With a positive base interval that does not exceed the cap, the
    current reconnect interval of a wrapper always lies between the base
    and the cap, whatever was called and whatever happened. *)
Theorem current_interval_between_base_and_cap (w : Wrapper) :
  reachable w ->
  (0 < reconnectInterval w <= maxReconnectInterval w)%Z ->
  (reconnectInterval w <= currentReconnectInterval w
   <= maxReconnectInterval w)%Z.
Proof.
  induction 1 as [ri mi ct cb | w c _ IH | w e _ IH].
  - simpl. lia.
  - destruct (call_intervals w c) as (-> & -> & ->). exact IH.
  - destruct (step_intervals w e) as (-> & -> & Hcur).
    intros Hconf. specialize (IH Hconf).
    destruct Hcur as [->| [->| ->]]; lia.
Qed.

Lemma reachable_run (events : list Event) (w : Wrapper) :
  reachable w -> reachable (run events w).
Proof.
  revert w. induction events as [|e events IH]; intros w Hw; [done|].
  simpl. by apply IH, reachable_step.
Qed.

Lemma current_interval_between_base_and_cap_witness :
  let w := run [EvClose; EvTimer 3; EvClose; EvTimer 6; EvClose]
             (call (MqttClientWrapper (Some 400%Z) (Some 1000%Z) None
                      every_callback) CallConnect) in
  (reconnectInterval w <= currentReconnectInterval w
   <= maxReconnectInterval w)%Z
  /\ currentReconnectInterval w = 1000%Z.
Proof.
  intros w. split; [|by vm_compute].
  apply (current_interval_between_base_and_cap w).
  - apply reachable_run, reachable_call, reachable_new.
  - by vm_compute.
Defined.

End IntervalFacts.

(** ** The Redis service: keys *)

Section RedisKeyFacts.
Import Redis RedisKeys.
Context {V : Type} `{Json V} `{Server}.

Lemma returned_lends (client : nat) (s : Service) :
  returned client s -> lends s.
Proof.
  intros (p & Hp & _ & Hin). unfold lends, initPool. rewrite Hp. simpl.
  unfold acquire. rewrite Hp.
  destruct (idle p) as [|c rest]; [by apply elem_of_nil in Hin|].
  by eexists _, _.
Qed.

(** An action that only talks to the server through the borrowed client. *)
Lemma withClient_plain {T : Type} (action : nat -> M T) (s : Service) :
  lends s ->
  (forall client s1, pool (snd (action client s1)) = pool s1) ->
  exists client s1,
    acquire (snd (initPool s)) = (Returns client, s1)
    /\ store s1 = store s /\ commands s1 = commands s
    /\ match action client s1 with
       | (Returns a, s2) =>
           fst (withClient action s) = Returns a
           /\ lends (snd (withClient action s))
           /\ store (snd (withClient action s)) = store s2
           /\ commands (snd (withClient action s)) = commands s2
           /\ log (snd (withClient action s)) = log s2
       | (Raises e, s2) =>
           fst (withClient action s) = Raises e
           /\ lends (snd (withClient action s))
           /\ store (snd (withClient action s)) = store s2
           /\ commands (snd (withClient action s)) = commands s2
       | (Pending, s2) => withClient action s = (Pending, s2)
       end.
Proof.
  intros (client & s1 & Hacq) Hpool. exists client, s1.
  split; [done|].
  destruct (borrowed_store s s1 client Hacq) as (Hloan & Hstore & Hcmd).
  split; [done|]. split; [done|].
  assert (Hloan' : on_loan client (snd (action client s1))).
  { destruct Hloan as (p & Hp & Hin). exists p. by rewrite Hpool. }
  pose proof (withClient_settles action s s1 client Hacq Hloan') as Hs.
  destruct (action client s1) as [[a|e|] s2]; [| |done].
  - destruct Hs as (s' & -> & Hret & ? & ? & ?). simpl.
    eauto 6 using returned_lends.
  - destruct Hs as (s' & -> & Hret & ? & ? & _). simpl.
    eauto using returned_lends.
Qed.

Lemma set_returns (key : string) (value : V) (ttl : option Z) (s : Service) :
  lends s ->
  fst (set key value ttl s)
  = (if ttl_refused ttl then Raises InvalidExpireTime else Returns tt)
  /\ lends (snd (set key value ttl s))
  /\ store (snd (set key value ttl s))
     = (if ttl_refused ttl then store s
        else <[key := mkEntry (JSON_stringify value)
                        (if truthy ttl then ttl else None)]> (store s))
  /\ commands (snd (set key value ttl s))
     = commands s
       ++ [if truthy ttl then SET_EX key (JSON_stringify value) (default 0%Z ttl)
           else SET key (JSON_stringify value)].
Proof.
  intros Hl. unfold set.
  match goal with |- context [withClient ?a s] => set (action := a) end.
  destruct (withClient_plain action s Hl) as (c & s1 & _ & Hst & Hcmd & Hs).
  { intros client s1. unfold action, client_set_ex.
    destruct (truthy ttl); [by destruct (_ && _)|done]. }
  unfold action at 1 in Hs. unfold ttl_refused, client_set_ex, truthy in *.
  destruct ttl as [seconds|]; simpl in *.
  - destruct (Z.eqb seconds 0); simpl in *.
    + destruct Hs as (-> & ? & -> & -> & _). by rewrite Hst, Hcmd.
    + destruct (_ && _); simpl in *.
      * destruct Hs as (-> & ? & -> & -> & _). by rewrite Hst, Hcmd.
      * destruct Hs as (-> & ? & -> & ->). by rewrite Hst, Hcmd.
  - destruct Hs as (-> & ? & -> & -> & _). by rewrite Hst, Hcmd.
Qed.

Lemma get_returns (key : string) (s : Service) :
  lends s ->
  lends (snd (get (V:=V) key s))
  /\ store (snd (get (V:=V) key s)) = store s
  /\ commands (snd (get (V:=V) key s)) = commands s ++ [GET key]
  /\ fst (get (V:=V) key s)
     = Returns (match store s !! key with
                | Some e => if String.eqb (payload e) "" then None
                            else JSON_parse (payload e)
                | None => None
                end).
Proof.
  intros (client & s1 & Hacq).
  destruct (get_settles key s s1 client Hacq) as (Hcmd & Hst & Hret & Hres).
  split; [by eapply returned_lends|]. split; [done|]. split; [done|].
  destruct (store s !! key) as [e|]; [|by destruct Hres].
  destruct (String.eqb (payload e) ""); [by destruct Hres|].
  destruct (JSON_parse (payload e)); by destruct Hres.
Qed.

Lemma remove_returns (key : string) (s : Service) :
  lends s ->
  fst (remove key s) = Returns tt
  /\ lends (snd (remove key s))
  /\ store (snd (remove key s)) = delete key (store s)
  /\ commands (snd (remove key s)) = commands s ++ [DEL key].
Proof.
  intros Hl. unfold remove.
  match goal with |- context [withClient ?a s] => set (action := a) end.
  destruct (withClient_plain action s Hl) as (c & s1 & _ & Hst & Hcmd & Hs).
  { done. }
  unfold action at 1 in Hs. simpl in Hs.
  destruct Hs as (-> & ? & -> & -> & _). by rewrite Hst, Hcmd.
Qed.

Lemma has_returns (key : string) (s : Service) :
  lends s ->
  fst (has key s) = Returns (bool_decide (is_Some (store s !! key)))
  /\ lends (snd (has key s))
  /\ store (snd (has key s)) = store s
  /\ commands (snd (has key s)) = commands s ++ [EXISTS key].
Proof.
  intros Hl. unfold has.
  match goal with |- context [withClient ?a s] => set (action := a) end.
  destruct (withClient_plain action s Hl) as (c & s1 & _ & Hst & Hcmd & Hs).
  { done. }
  unfold action at 1 in Hs. simpl in Hs.
  destruct Hs as (-> & ? & -> & -> & _). rewrite Hst, Hcmd.
  split; [|done]. by destruct (store s !! key).
Qed.

(** X12. The reconnection strategy that the constructor gives the
    clients waits 100 ms times the number of the attempt and gives up
    after the tenth: whenever it answers a wait, the attempt is at most
    the tenth and the wait is exactly [times * 100], so the bound of
    2000 ms written in it is never the one that applies; and it answers
    [null] exactly from the eleventh attempt on. *)
Theorem retryStrategy_linear_then_gives_up (times : Z) :
  match retryStrategy times with
  | Some wait => (times <= 10 /\ wait = times * 100 /\ wait <= 1000)%Z
  | None => (10 < times)%Z
  end.
Proof.
  unfold retryStrategy. destruct (Z.ltb_spec 10 times); lia.
Qed.

(** X13. What [set] stores, [get] reads back: for a value that
    [JSON.parse] restores from its [JSON.stringify] text, and a pool that
    can lend a client, [set] returns and a following [get] of the key
    returns that value, without a time to live, with the time 0 and with
    every time the server takes. With a time the server refuses, as it
    does every negative one, [set] rejects with the server's error and
    the keys are as they were. *)
Theorem get_after_set (key : string) (value : V) (ttl : option Z)
    (s : Service) :
  lends s ->
  JSON_parse (JSON_stringify value) = Some value ->
  (ttl_refused ttl = false ->
   fst (set key value ttl s) = Returns tt
   /\ fst (get (V:=V) key (snd (set key value ttl s))) = Returns (Some value))
  /\ (ttl_refused ttl = true ->
      fst (set key value ttl s) = Raises InvalidExpireTime
      /\ store (snd (set key value ttl s)) = store s)
  /\ (forall seconds, (seconds < 0)%Z -> ttl_refused (Some seconds) = true).
Proof.
  intros Hl Hcodec.
  destruct (set_returns key value ttl s Hl) as (Hset & Hl' & Hst & _).
  split; [|split].
  - intros Hok. rewrite Hok in *. split; [done|].
    destruct (get_returns key _ Hl') as (_ & _ & _ & ->).
    rewrite Hst, lookup_insert_eq. simpl.
    destruct (String.eqb_spec (JSON_stringify value) "") as [Hempty|_].
    + rewrite Hempty, JSON_parse_empty in Hcodec. done.
    + by rewrite Hcodec.
  - intros Hno. by rewrite Hno in *.
  - intros seconds Hneg. unfold ttl_refused, truthy. simpl.
    destruct (Z.eqb_spec seconds 0) as [->|_]; [lia|].
    destruct (Z.ltb_spec 0 seconds); [lia|done].
Qed.

(** X14. After [remove] the key is gone and only that key: with a pool
    that can lend a client, [remove] returns whether or not the key
    existed, a following [has] answers false and a following [get]
    answers null, and every other key holds what it held. *)
Theorem remove_then_absent (key : string) (s : Service) :
  lends s ->
  fst (remove key s) = Returns tt
  /\ fst (has key (snd (remove key s))) = Returns false
  /\ fst (get (V:=V) key (snd (remove key s))) = Returns None
  /\ forall other, other <> key ->
       store (snd (remove key s)) !! other = store s !! other.
Proof.
  intros Hl.
  destruct (remove_returns key s Hl) as (Hrem & Hl' & Hst & _).
  split; [done|].
  destruct (has_returns key _ Hl') as (-> & _).
  destruct (get_returns key _ Hl') as (_ & _ & _ & ->).
  rewrite Hst, lookup_delete_eq. simpl.
  split; [done|]. split; [done|].
  intros other Hne. by rewrite lookup_delete_ne.
Qed.

Lemma fresh_lends (keys : gmap string Entry) : lends (RedisService keys).
Proof. by eexists _, _. Qed.

Lemma lends_pool (s s' : Service) :
  pool s' = pool s -> initPromise s' = initPromise s ->
  next_client s' = next_client s -> lends s -> lends s'.
Proof.
  destruct s as [p i st cm lg n], s' as [p' i' st' cm' lg' n']. simpl.
  intros -> -> -> (c & s1 & Hacq). unfold lends.
  revert Hacq. unfold initPool. simpl.
  destruct p as [[idl bor]|]; simpl.
  - unfold acquire. simpl. destruct idl; simpl.
    + destruct (Nat.ltb _ _); [|done]. intros _. by eexists _, _.
    + intros _. by eexists _, _.
  - destruct i; simpl; [by unfold acquire|]. intros _. by eexists _, _.
Qed.

(** The outcome of [withClient] when the action leaves a pool behind. *)
Lemma withClient_result {T : Type} (action : nat -> M T)
    (s s1 : Service) (client : nat) :
  acquire (snd (initPool s)) = (Returns client, s1) ->
  is_Some (pool (snd (action client s1))) ->
  fst (withClient action s) = fst (action client s1)
  /\ store (snd (withClient action s)) = store (snd (action client s1))
  /\ commands (snd (withClient action s)) = commands (snd (action client s1)).
Proof.
  intros Hacq [p Hp].
  destruct (withClient_commands action s s1 client Hacq) as (-> & ->).
  split; [|done].
  rewrite (withClient_borrowed action s s1 client Hacq).
  unfold try_finally, try_catch.
  destruct (action client s1) as [[a|e|] s2]; simpl in *; [| |done].
  - unfold release. rewrite Hp. by destruct (bool_decide _).
  - unfold bind, logger, raise, release. simpl. rewrite Hp.
    by destruct (bool_decide _).
Qed.

Lemma lends_is_Some (s : Service) (client : nat) (s1 : Service) :
  acquire s = (Returns client, s1) -> is_Some (pool s) /\ is_Some (pool s1).
Proof.
  unfold acquire. destruct (pool s) as [[idl bor]|] eqn:Hp; [|done].
  simpl. destruct idl.
  - destruct (Nat.ltb _ _); [|done]. by intros [= <- <-].
  - by intros [= <- <-].
Qed.

Lemma release_keeps_pool (client : nat) (s : Service) :
  is_Some (pool s) -> is_Some (pool (snd (release client s))).
Proof.
  intros [p Hp]. unfold release. rewrite Hp.
  destruct (bool_decide _); simpl; [done|by rewrite Hp].
Qed.

Lemma withClient_keeps_pool {T : Type} (action : nat -> M T) (s : Service) :
  is_Some (pool s) ->
  (forall client s1,
      is_Some (pool s1) -> is_Some (pool (snd (action client s1)))) ->
  is_Some (pool (snd (withClient action s))).
Proof.
  intros Hs Hact. unfold withClient, bind.
  replace (initPool s) with (Returns tt, s)
    by (unfold initPool; by destruct Hs as [p ->]).
  destruct (acquire s) as [[c| |] s1] eqn:Hacq.
  - pose proof (Hact c s1 (proj2 (lends_is_Some _ _ _ Hacq))) as Hp.
    unfold try_finally, try_catch.
    destruct (action c s1) as [[a|e|] s2]; simpl in *; [| |done].
    + pose proof (release_keeps_pool c s2 Hp).
      by destruct (release c s2) as [[| |] ?].
    + pose proof (release_keeps_pool c
                    (set_log (log s2 ++ [(error, OperationFailed e)]) s2) Hp).
      by destruct (release c _) as [[| |] ?].
  - revert Hacq. unfold acquire. destruct Hs as [p ->].
    destruct (idle p); [|done]. by destruct (Nat.ltb _ _).
  - revert Hacq. unfold acquire. destruct Hs as [p Hp]. rewrite Hp.
    destruct (idle p); [|done]. destruct (Nat.ltb _ _); [done|].
    intros [= Heq]. subst. simpl. eauto.
Qed.

Lemma set_keeps_pool (key : string) (value : V) (ttl : option Z)
    (s : Service) :
  is_Some (pool s) -> is_Some (pool (snd (set key value ttl s))).
Proof.
  intros Hs. apply withClient_keeps_pool; [done|].
  intros client s1 Hp. unfold client_set_ex.
  destruct (truthy ttl); [by destruct (_ && _)|done].
Qed.

Lemma update_existing_key (key : string) (value : V) (ttl : option Z)
    (s : Service) (e : Entry) :
  lends_two s ->
  store s !! key = Some e ->
  fst (update key value ttl s)
  = (if ttl_refused ttl then Raises InvalidExpireTime else Returns tt)
  /\ store (snd (update key value ttl s))
     = (if ttl_refused ttl then store s
        else <[key := mkEntry (JSON_stringify value)
                        (if truthy ttl then ttl else None)]> (store s))
  /\ commands (snd (update key value ttl s))
     = commands s
       ++ [EXISTS key;
           if truthy ttl
           then SET_EX key (JSON_stringify value) (default 0%Z ttl)
           else SET key (JSON_stringify value)].
Proof.
  intros (c & s1 & Hacq & Hl1) Hkey. unfold update.
  match goal with |- context [withClient ?a s] => set (action := a) end.
  destruct (borrowed_store s s1 c Hacq) as (_ & Hst & Hcmd).
  assert (Hl : lends (send (EXISTS key) s1))
    by by apply (lends_pool s1).
  assert (Hact : action c s1 = set key value ttl (send (EXISTS key) s1)).
  { unfold action, bind, client_exists. simpl. by rewrite Hst, Hkey. }
  destruct (set_returns key value ttl _ Hl) as (Hres & _ & Hst' & Hcmd').
  destruct (withClient_result action s s1 c Hacq) as (-> & -> & ->).
  { rewrite Hact. apply set_keeps_pool.
    by destruct (lends_is_Some _ _ _ Hacq). }
  rewrite Hact, Hres, Hst', Hcmd'. simpl. rewrite Hst, Hcmd.
  by rewrite <- app_assoc.
Qed.

(** X15. [has] answers whether the key is stored and is the test that
    [update] applies: while the pool can lend two clients, [has] returns
    true exactly for a stored key, also one whose text is empty or
    damaged, sends the one [EXISTS] and leaves the keys alone; for the
    keys for which [has] answers true [update] goes on to its [set], so
    that it returns unless the server refuses the time to live and then
    rejects with the server's error, and for the others it raises the
    key-does-not-exist error. *)
Theorem has_is_the_test_of_update (key : string) (value : V)
    (ttl : option Z) (s : Service) :
  lends_two s ->
  (fst (has key s) = Returns true \/ fst (has key s) = Returns false)
  /\ (fst (has key s) = Returns true <-> is_Some (store s !! key))
  /\ store (snd (has key s)) = store s
  /\ commands (snd (has key s)) = commands s ++ [EXISTS key]
  /\ (fst (has key s) = Returns true ->
      fst (update key value ttl s)
      = if ttl_refused ttl then Raises InvalidExpireTime else Returns tt)
  /\ (fst (has key s) = Returns false ->
      fst (update key value ttl s) = Raises (KeyDoesNotExist key)).
Proof.
  intros Htwo. pose proof Htwo as (c & s1 & Hacq & _).
  assert (Hl : lends s) by by exists c, s1.
  destruct (has_returns key s Hl) as (-> & _ & -> & ->).
  split; [by destruct (bool_decide _); [left|right]|].
  split.
  { split.
    - intros [= Hb]. by apply bool_decide_eq_true_1 in Hb.
    - intros Hs. by rewrite bool_decide_eq_true_2. }
  split; [done|]. split; [done|]. split.
  - intros [= Hb]. apply bool_decide_eq_true_1 in Hb as [e He].
    by destruct (update_existing_key key value ttl s e Htwo He).
  - intros [= Hb]. apply bool_decide_eq_false_1 in Hb.
    destruct (update_missing_key_rejected key value ttl s s1 c Hacq)
      as (_ & Hmiss).
    apply Hmiss. destruct (store s !! key); [|done]. by destruct Hb.
Qed.

Lemma fresh_lends_two (keys : gmap string Entry) :
  lends_two (RedisService keys).
Proof. eexists _, _. split; [done|]. by eexists _, _. Qed.

(** X16. [update] of a stored key is [EXISTS] followed by the [set]:
    while the pool can lend two clients it settles as the [set] alone
    settles (it returns, or rejects with the server's error when the
    server refuses the time to live), the two commands are all it sends,
    and the keys are then what the [set] alone leaves. An update without
    a time to live (or with 0) returns and makes a key that was about to
    expire persistent. *)
Theorem update_stored_key_is_exists_then_set (key : string) (value : V)
    (ttl : option Z) (s : Service) :
  lends_two s ->
  is_Some (store s !! key) ->
  fst (update key value ttl s) = fst (set key value ttl s)
  /\ store (snd (update key value ttl s)) = store (snd (set key value ttl s))
  /\ commands (snd (update key value ttl s))
     = commands s ++ EXISTS key
         :: drop (length (commands s)) (commands (snd (set key value ttl s)))
  /\ (truthy ttl = false ->
      fst (update key value ttl s) = Returns tt
      /\ expiry <$> store (snd (update key value ttl s)) !! key = Some None).
Proof.
  intros Htwo [e He]. pose proof Htwo as (c & s1 & Hacq & _).
  assert (Hl : lends s) by by exists c, s1.
  destruct (update_existing_key key value ttl s e Htwo He) as (-> & -> & ->).
  destruct (set_returns key value ttl s Hl) as (-> & _ & -> & ->).
  split; [done|]. split; [done|]. split.
  - by rewrite drop_app_length.
  - unfold ttl_refused. intros ->. simpl. by rewrite lookup_insert_eq.
Qed.

Lemma withClient_exhausted {T : Type} (action : nat -> M T)
    (s : Service) :
  exhausted s -> withClient action s = (Pending, s).
Proof.
  intros (p & Hp & Hidle & Hlen).
  unfold withClient, bind at 1 2, initPool. rewrite Hp.
  unfold acquire. by rewrite Hp, Hidle, Hlen.
Qed.

(** X17. An exhausted pool answers nothing: when every client the pool
    may create is on loan, an action given to [withClient], whatever it
    is, is not started, the promise stays pending and the service is as
    it was, no command sent and no line logged. *)
Theorem exhausted_pool_never_settles {T : Type} (action : nat -> M T)
    (s : Service) :
  exhausted s -> withClient action s = (Pending, s).
Proof. apply withClient_exhausted. Qed.

(** X18. [update] needs a second client while it holds the first: when
    it is lent the last client of the pool, [update] of a stored key
    sends [EXISTS] and then waits for ever in its own [set], with the
    client it holds still on loan and the key unchanged. *)
Theorem update_on_last_client_never_settles (key : string) (value : V)
    (ttl : option Z) (s s1 : Service) (client : nat) :
  acquire (snd (initPool s)) = (Returns client, s1) ->
  exhausted s1 ->
  is_Some (store s !! key) ->
  fst (update key value ttl s) = Pending
  /\ on_loan client (snd (update key value ttl s))
  /\ exhausted (snd (update key value ttl s))
  /\ commands (snd (update key value ttl s)) = commands s ++ [EXISTS key]
  /\ store (snd (update key value ttl s)) = store s.
Proof.
  intros Hacq Hex [e He]. unfold update.
  match goal with |- context [withClient ?a s] => set (action := a) end.
  destruct (borrowed_store s s1 client Hacq) as (Hloan & Hst & Hcmd).
  assert (Hex' : exhausted (send (EXISTS key) s1)).
  { destruct Hex as (p & ? & ? & ?). by exists p. }
  assert (Hact : action client s1 = (Pending, send (EXISTS key) s1)).
  { unfold action, bind, client_exists. simpl. rewrite Hst, He. simpl.
    unfold set. by rewrite withClient_exhausted. }
  rewrite (withClient_borrowed action s s1 client Hacq).
  unfold try_finally, try_catch. rewrite Hact. simpl.
  split; [done|]. split.
  { destruct Hloan as (p & ? & ?). by exists p. }
  split; [done|]. by rewrite Hst, Hcmd.
Qed.

End RedisKeyFacts.

Section RedisKeyExamples.
Import Redis RedisKeys.
#[local] Existing Instance Server_int64.

Lemma get_after_set_witness :
  (fst (set "k" true (Some 60%Z) (RedisService ∅)) = Returns tt
   /\ fst (get (V:=bool) "k" (snd (set "k" true (Some 60%Z) (RedisService ∅))))
      = Returns (Some true))
  /\ (fst (set "k" true (Some (-1)%Z) (RedisService ∅))
      = Raises InvalidExpireTime
      /\ store (snd (set "k" true (Some (-1)%Z) (RedisService ∅)))
         = store (RedisService ∅)).
Proof.
  split.
  - apply (get_after_set (V:=bool) "k" true (Some 60%Z) (RedisService ∅)).
    + apply fresh_lends.
    + reflexivity.
    + reflexivity.
  - apply (get_after_set (V:=bool) "k" true (Some (-1)%Z) (RedisService ∅)).
    + apply fresh_lends.
    + reflexivity.
    + reflexivity.
Defined.

Lemma remove_then_absent_witness :
  fst (remove "ok" (RedisService sample_keys)) = Returns tt
  /\ fst (has "ok" (snd (remove "ok" (RedisService sample_keys))))
     = Returns false
  /\ fst (get (V:=bool) "ok" (snd (remove "ok" (RedisService sample_keys))))
     = Returns None
  /\ forall other, other <> "ok" ->
       store (snd (remove "ok" (RedisService sample_keys))) !! other
       = store (RedisService sample_keys) !! other.
Proof.
  apply (remove_then_absent (V:=bool) "ok" (RedisService sample_keys)).
  apply fresh_lends.
Defined.

Lemma has_is_the_test_of_update_witness :
  let s := RedisService sample_keys in
  (fst (has "damaged" s) = Returns true \/ fst (has "damaged" s) = Returns false)
  /\ (fst (has "damaged" s) = Returns true <-> is_Some (store s !! "damaged"))
  /\ store (snd (has "damaged" s)) = store s
  /\ commands (snd (has "damaged" s)) = commands s ++ [EXISTS "damaged"]
  /\ (fst (has "damaged" s) = Returns true ->
      fst (update "damaged" true None s) = Returns tt)
  /\ (fst (has "damaged" s) = Returns false ->
      fst (update "damaged" true None s) = Raises (KeyDoesNotExist "damaged")).
Proof.
  apply (has_is_the_test_of_update (V:=bool) "damaged" true None
           (RedisService sample_keys)).
  apply fresh_lends_two.
Defined.

Lemma update_stored_key_is_exists_then_set_witness :
  let s := snd (set "k" false (Some 60%Z) (RedisService ∅)) in
  fst (update "k" true None s) = fst (set "k" true None s)
  /\ store (snd (update "k" true None s)) = store (snd (set "k" true None s))
  /\ commands (snd (update "k" true None s))
     = commands s ++ EXISTS "k"
         :: drop (length (commands s)) (commands (snd (set "k" true None s)))
  /\ (truthy None = false ->
      fst (update "k" true None s) = Returns tt
      /\ expiry <$> store (snd (update "k" true None s)) !! "k" = Some None).
Proof.
  apply (update_stored_key_is_exists_then_set (V:=bool) "k" true None
           (snd (set "k" false (Some 60%Z) (RedisService ∅)))).
  - eexists _, _. split; [vm_compute; reflexivity|].
    eexists _, _. vm_compute. reflexivity.
  - vm_compute. eauto.
Defined.

Lemma update_on_last_client_never_settles_witness :
  fst (update "ok" false None last_client_left) = Pending
  /\ on_loan 10 (snd (update "ok" false None last_client_left))
  /\ exhausted (snd (update "ok" false None last_client_left))
  /\ commands (snd (update "ok" false None last_client_left))
     = commands last_client_left ++ [EXISTS "ok"]
  /\ store (snd (update "ok" false None last_client_left))
     = store last_client_left.
Proof.
  eapply (update_on_last_client_never_settles (V:=bool) "ok" false None
            last_client_left).
  - vm_compute. reflexivity.
  - eexists. split; [reflexivity|]. split; reflexivity.
  - vm_compute. eauto.
Defined.

End RedisKeyExamples.

(** ** The Redis service: a caller that awaits every call *)

Section AwaitedCalls.
Import Redis RedisKeys.
Context {V : Type} `{Json V} `{Server}.

(** One round of [withClient] around an action that leaves the pool as
    it found it. *)
Lemma withClient_round {T : Type} (action : nat -> M T) (s : Service)
    (c : nat) (rest b : list nat) :
  pool (snd (initPool s)) = Some (mkPool (c :: rest) b) ->
  c ∉ b ->
  let s1 := set_pool (Some (mkPool rest (c :: b))) (snd (initPool s)) in
  pool (snd (action c s1)) = pool s1 ->
  fst (withClient action s) = fst (action c s1)
  /\ next_client (snd (withClient action s)) = next_client (snd (action c s1))
  /\ (settled (fst (action c s1)) = true ->
      pool (snd (withClient action s)) = Some (mkPool (rest ++ [c]) b)).
Proof.
  intros Hp Hc s1 Hact.
  assert (Hacq : acquire (snd (initPool s)) = (Returns c, s1)).
  { unfold acquire. by rewrite Hp. }
  rewrite (withClient_borrowed action s s1 c Hacq).
  assert (Hfilter : filter (fun c' => c' <> c) (c :: b) = b).
  { rewrite filter_cons_False by tauto. clear -Hc.
    induction b as [|c' b IH]; [done|].
    apply not_elem_of_cons in Hc as [Hne Hc].
    rewrite filter_cons_True by done. f_equal. by apply IH. }
  unfold try_finally, try_catch.
  destruct (action c s1) as [[a|e|] s2]; simpl in *; [| |done].
  - unfold release. rewrite Hact. simpl.
    rewrite bool_decide_eq_true_2 by left. simpl. by rewrite Hfilter.
  - unfold bind, logger, raise, release. simpl. rewrite Hact. simpl.
    rewrite bool_decide_eq_true_2 by left. simpl. by rewrite Hfilter.
Qed.

Lemma initPool_at_rest (s : Service) :
  at_rest s ->
  exists c1 c2,
    c1 <> c2
    /\ pool (snd (initPool s)) = Some (mkPool [c1; c2] [])
    /\ next_client (snd (initPool s)) = 3.
Proof.
  destruct s as [p i st cm lg n]. unfold at_rest, initPool. simpl.
  intros [(-> & -> & ->)|(c1 & c2 & Hne & -> & ->)].
  - exists 1, 2. simpl. split; [lia|done].
  - by exists c1, c2.
Qed.

Lemma plain_calm {T : Type} (action : nat -> M T) : plain action -> calm action.
Proof.
  intros Hplain c1 c2 s1 _ _ Hn.
  destruct (Hplain c1 s1) as (? & ? & ?). split; [done|]. split; congruence.
Qed.

Lemma withClient_at_rest {T : Type} (action : nat -> M T) (s : Service) :
  at_rest s -> calm action ->
  settled (fst (withClient action s)) = true
  /\ at_rest (snd (withClient action s))
  /\ is_Some (pool (snd (withClient action s))).
Proof.
  intros (c1 & c2 & Hne & Hp & Hn)%initPool_at_rest Hcalm.
  destruct (Hcalm c1 c2
              (set_pool (Some (mkPool [c2] [c1])) (snd (initPool s))))
    as (Hpool & Hnext & Hset); [done..|].
  destruct (withClient_round action s c1 [c2] [] Hp) as (-> & Hn' & Hp').
  { apply not_elem_of_nil. }
  { done. }
  split; [done|]. split; [|by rewrite Hp'].
  right. exists c2, c1.
  split; [done|]. split; [by apply Hp'|congruence].
Qed.

Lemma withClient_second_client {T : Type} (action : nat -> M T)
    (s1 : Service) (c1 c2 : nat) :
  c1 <> c2 -> pool s1 = Some (mkPool [c2] [c1]) -> plain action ->
  pool (snd (withClient action s1)) = pool s1
  /\ next_client (snd (withClient action s1)) = next_client s1
  /\ settled (fst (withClient action s1)) = true.
Proof.
  intros Hne Hp Hplain.
  assert (Hinit : snd (initPool s1) = s1).
  { unfold initPool. by rewrite Hp. }
  destruct (Hplain c2 (set_pool (Some (mkPool [] [c2; c1])) s1))
    as (Hpool & Hnext & Hset).
  destruct (withClient_round action s1 c2 [] [c1]) as (-> & -> & Hp').
  { by rewrite Hinit. }
  { intros ?%list_elem_of_singleton. done. }
  { by rewrite Hinit. }
  rewrite Hinit in *. split; [|done]. by rewrite Hp', Hp.
Qed.

Lemma set_plain (key : string) (value : V) (ttl : option Z) :
  plain (fun client =>
    let json := JSON_stringify value in
    if truthy ttl then
      client_set_ex client key json (default 0%Z ttl)
    else client_set client key json).
Proof.
  intros c s. unfold client_set_ex.
  destruct (truthy ttl); [by destruct (_ && _)|done].
Qed.

Lemma perform_at_rest (o : Operation V) (s : Service) :
  at_rest s ->
  settled (fst (perform o s)) = true
  /\ at_rest (snd (perform o s))
  /\ is_Some (pool (snd (perform o s))).
Proof.
  intros Hs.
  assert (Hret : forall {A : Type} (m : M A) (f : A -> Answer V),
             settled (fst (m s)) = true /\ at_rest (snd (m s))
             /\ is_Some (pool (snd (m s))) ->
             settled (fst ((x <- m ;; ret (f x)) s)) = true
             /\ at_rest (snd ((x <- m ;; ret (f x)) s))
             /\ is_Some (pool (snd ((x <- m ;; ret (f x)) s)))).
  { intros A m f. unfold bind, ret. by destruct (m s) as [[a|e|] s']. }
  destruct o as [key value ttl|key|key value ttl|key|key]; simpl.
  - apply (Hret _ _ (fun _ => Done)).
    apply withClient_at_rest; [done|]. apply plain_calm, set_plain.
  - apply (Hret _ _ Value).
    apply withClient_at_rest; [done|]. apply plain_calm.
    intros c s1. unfold bind, client_get, try_catch, parse. simpl.
    destruct (no_value _); [done|].
    by destruct (JSON_parse _).
  - apply (Hret _ _ (fun _ => Done)).
    apply withClient_at_rest; [done|].
    intros c1 c2 s1 Hne Hp Hn. unfold bind, client_exists. simpl.
    destruct (Nat.eqb _ 0); [done|].
    destruct (withClient_second_client _ (send (EXISTS key) s1) c1 c2 Hne Hp
                (set_plain key value ttl)) as (Hp' & Hn' & Hset).
    unfold set. split; [done|]. split; [|done].
    etrans; [exact Hn'|exact Hn].
  - apply (Hret _ _ (fun _ => Done)).
    apply withClient_at_rest; [done|]. by apply plain_calm.
  - apply (Hret _ _ Flag).
    apply withClient_at_rest; [done|]. by apply plain_calm.
Qed.

Lemma perform_all_at_rest (os : list (Operation V)) (s : Service) :
  at_rest s ->
  at_rest (perform_all os s)
  /\ (is_Some (pool s) -> is_Some (pool (perform_all os s))).
Proof.
  revert s. induction os as [|o os IH]; intros s Hs; [done|].
  simpl. destruct (perform_at_rest o s Hs) as (_ & Hrest & Hsome).
  destruct (IH _ Hrest) as (? & Hkeep). split; [done|]. intros _. auto.
Qed.

End AwaitedCalls.

(** ** The Redis service: scans *)

Section ScanFacts.
Import Redis RedisKeys.
Variable SCAN :
  gmap string Entry -> string -> string -> Z -> string * list string.
Context {V : Type} `{Json V}.

Lemma scanKeys_loop_pages (s : Service) (pattern : string) (count : Z)
    (cursor : string) (pages : nat) (keys : list string) :
  Pages SCAN (store s) pattern count cursor pages keys ->
  forall fuel client acc,
    scanKeys_loop SCAN fuel client cursor pattern count acc s
    = (Returns (if Nat.leb pages fuel then Some (acc ++ keys) else None), s).
Proof.
  induction 1 as [cursor batch Hscan|cursor next batch pages rest Hscan Hnext _ IH];
    intros [|fuel] client acc; try done.
  - simpl. unfold bind, client_scan. by rewrite Hscan.
  - simpl. unfold bind, client_scan. rewrite Hscan. simpl.
    apply String.eqb_neq in Hnext. rewrite Hnext. simpl.
    rewrite IH. by rewrite <- app_assoc.
Qed.

Lemma scanKeys_loop_state (fuel client : nat) (cursor pattern : string)
    (count : Z) (acc : list string) (s : Service) :
  snd (scanKeys_loop SCAN fuel client cursor pattern count acc s) = s.
Proof.
  revert cursor acc. induction fuel as [|fuel IH]; intros cursor acc; [done|].
  simpl. unfold bind, client_scan.
  destruct (negb _); [apply IH|done].
Qed.

(** X20. [scanKeys] returns the server's pages in their order, one
    after the other: when the server's cursors lead from ["0"] back to
    ["0"] in [pages] rounds handing out [keys], and the pool can lend a
    client, [scanKeys] returns exactly [keys], as handed out (nothing
    sorted, nothing removed), within [pages] rounds and not in fewer, and
    leaves the keys of the server as they were. *)
Theorem scanKeys_returns_the_pages_in_order (s : Service) (pattern : string)
    (count : Z) (pages : nat) (keys : list string) (fuel : nat) :
  lends s ->
  Pages SCAN (store s) pattern count "0" pages keys ->
  fst (scanKeys SCAN fuel pattern count s)
  = Returns (if Nat.leb pages fuel then Some keys else None)
  /\ store (snd (scanKeys SCAN fuel pattern count s)) = store s
  /\ lends (snd (scanKeys SCAN fuel pattern count s)).
Proof.
  intros Hl Hpages. unfold scanKeys.
  match goal with |- context [withClient ?a s] => set (action := a) end.
  destruct (withClient_plain action s Hl) as (c & s1 & _ & Hst & _ & Hs).
  { intros client s1. unfold action. by rewrite scanKeys_loop_state. }
  unfold action at 1 in Hs. rewrite <- Hst in Hpages.
  rewrite (scanKeys_loop_pages s1 pattern count "0" pages keys Hpages) in Hs.
  by destruct Hs as (-> & ? & -> & _).
Qed.

Lemma forEach_value_lookup (f : string -> option string)
    (keys pre : list string) (result : gmap string (option string))
    (k : string) :
  forEach_value keys (length pre) (map f (pre ++ keys)) result !! k
  = if bool_decide (k ∈ keys) then Some (f k) else result !! k.
Proof.
  revert pre result. induction keys as [|key rest IH]; intros pre result.
  - done.
  - simpl.
    replace (S (length pre)) with (length (pre ++ [key]))
      by (rewrite length_app; simpl; lia).
    replace (pre ++ key :: rest) with ((pre ++ [key]) ++ rest)
      by by rewrite <- app_assoc.
    rewrite IH. rewrite <- app_assoc. simpl.
    rewrite list_lookup_fmap, lookup_app_r by lia.
    rewrite Nat.sub_diag. simpl.
    destruct (decide (k ∈ rest)) as [Hin|Hin].
    + rewrite !bool_decide_eq_true_2; [done|by right|done].
    + rewrite (bool_decide_eq_false_2 (k ∈ rest)) by done.
      destruct (decide (k = key)) as [->|Hne].
      * rewrite lookup_insert_eq, bool_decide_eq_true_2; [done|left].
      * rewrite lookup_insert_ne by done.
        rewrite bool_decide_eq_false_2; [done|].
        by intros [?|?]%elem_of_cons.
Qed.

Lemma scanAndGet_round (s : Service) (client : nat) (batch : list string)
    (acc : gmap string (option string)) :
  exists result,
    (if Nat.ltb 0 (length batch) then
       values <- client_mget client batch ;;
       ret (forEach_value batch 0 values acc)
     else ret acc) s = (Returns result, s)
    /\ forall k,
         result !! k
         = if bool_decide (k ∈ batch) then Some (payload <$> store s !! k)
           else acc !! k.
Proof.
  destruct batch as [|key batch].
  - by exists acc.
  - eexists. split; [done|]. intros k.
    apply (forEach_value_lookup (fun key => payload <$> store s !! key)
             (key :: batch) []).
Qed.

Lemma scanAndGet_loop_pages (s : Service) (pattern : string) (count : Z)
    (cursor : string) (pages : nat) (keys : list string) :
  Pages SCAN (store s) pattern count cursor pages keys ->
  forall fuel client acc,
    pages <= fuel ->
    exists result,
      scanAndGet_loop SCAN fuel client cursor pattern count acc s
      = (Returns (Some result), s)
      /\ forall k,
           result !! k
           = if bool_decide (k ∈ keys) then Some (payload <$> store s !! k)
             else acc !! k.
Proof.
  induction 1 as [cursor batch Hscan|cursor next batch pages rest Hscan Hnext _ IH];
    intros [|fuel] client acc Hfuel; try lia.
  - simpl. unfold bind at 1, client_scan. rewrite Hscan. simpl.
    destruct (scanAndGet_round s client batch acc) as (result & Hround & Hres).
    unfold bind at 1. rewrite Hround. by exists result.
  - simpl. unfold bind at 1, client_scan. rewrite Hscan. simpl.
    apply String.eqb_neq in Hnext.
    destruct (scanAndGet_round s client batch acc) as (first & Hround & Hfirst).
    unfold bind at 1. rewrite Hround, Hnext. simpl.
    edestruct (IH fuel client) as (result & -> & Hres); [lia|].
    exists result. split; [done|]. intros k. rewrite Hres, Hfirst.
    destruct (decide (k ∈ rest)) as [Hin|Hin].
    + rewrite (bool_decide_eq_true_2 (k ∈ rest)) by done.
      rewrite bool_decide_eq_true_2; [done|].
      apply elem_of_app. by right.
    + rewrite (bool_decide_eq_false_2 (k ∈ rest)) by done.
      destruct (decide (k ∈ batch)) as [Hin'|Hin'].
      * rewrite (bool_decide_eq_true_2 (k ∈ batch)) by done.
        rewrite bool_decide_eq_true_2; [done|].
        apply elem_of_app. by left.
      * rewrite (bool_decide_eq_false_2 (k ∈ batch)) by done.
        rewrite bool_decide_eq_false_2; [done|].
        by intros [?|?]%elem_of_app.
Qed.

Lemma scanAndGet_loop_state (fuel client : nat) (cursor pattern : string)
    (count : Z) (acc : gmap string (option string)) (s : Service) :
  snd (scanAndGet_loop SCAN fuel client cursor pattern count acc s) = s.
Proof.
  revert cursor acc. induction fuel as [|fuel IH]; intros cursor acc; [done|].
  simpl. unfold bind at 1, client_scan. simpl.
  destruct (Nat.ltb _ _); unfold bind at 1; simpl;
    (destruct (negb _); [apply IH|done]).
Qed.


Lemma forEach_parsed_lookup (f : string -> option string)
    (keys pre : list string) (result : gmap string (option V)) (k : string) :
  forEach_parsed keys (length pre)
    (map (fun key => (None, f key)) (pre ++ keys)) result !! k
  = if bool_decide (k ∈ keys) then Some (f k ≫= JSON_parse)
    else result !! k.
Proof.
  revert pre result. induction keys as [|key rest IH]; intros pre result.
  - done.
  - simpl.
    replace (S (length pre)) with (length (pre ++ [key]))
      by (rewrite length_app; simpl; lia).
    replace (pre ++ key :: rest) with ((pre ++ [key]) ++ rest)
      by by rewrite <- app_assoc.
    rewrite IH. rewrite <- app_assoc. simpl.
    rewrite list_lookup_fmap, lookup_app_r by lia.
    rewrite Nat.sub_diag. simpl.
    destruct (decide (k ∈ rest)) as [Hin|Hin].
    + rewrite !bool_decide_eq_true_2; [done|by right|done].
    + rewrite (bool_decide_eq_false_2 (k ∈ rest)) by done.
      destruct (decide (k = key)) as [->|Hne].
      * rewrite lookup_insert_eq, bool_decide_eq_true_2; [|left].
        by destruct (f key).
      * rewrite lookup_insert_ne by done.
        rewrite bool_decide_eq_false_2; [done|].
        by intros [?|?]%elem_of_cons.
Qed.


End ScanFacts.

Section PoolAndScanExamples.
Import Redis RedisKeys.

Lemma exhausted_pool_never_settles_witness :
  let s := set_pool (Some (mkPool [] [10; 9; 8; 7; 6; 5; 4; 3; 2; 1]))
             last_client_left in
  withClient (fun client => client_get client "ok") s = (Pending, s).
Proof.
  apply (exhausted_pool_never_settles (fun client => client_get client "ok")
           (set_pool (Some (mkPool [] [10; 9; 8; 7; 6; 5; 4; 3; 2; 1]))
              last_client_left)).
  eexists. split; [reflexivity|]. split; reflexivity.
Defined.

Lemma sample_pages :
  Pages two_batches sample_keys "*" 2 "0" 2 ["ok"; "empty"; "damaged"].
Proof.
  apply (Pages_more two_batches sample_keys "*" 2 "0" "1" ["ok"; "empty"]
           1 ["damaged"]).
  - vm_compute. reflexivity.
  - done.
  - apply Pages_last. vm_compute. reflexivity.
Qed.

Lemma scanKeys_returns_the_pages_in_order_witness :
  let s := RedisService sample_keys in
  fst (scanKeys two_batches 5 "*" 2 s)
  = Returns (if Nat.leb 2 5 then Some ["ok"; "empty"; "damaged"] else None)
  /\ store (snd (scanKeys two_batches 5 "*" 2 s)) = store s
  /\ lends (snd (scanKeys two_batches 5 "*" 2 s)).
Proof.
  apply (scanKeys_returns_the_pages_in_order two_batches
           (RedisService sample_keys) "*" 2 2 ["ok"; "empty"; "damaged"] 5).
  - apply fresh_lends.
  - apply sample_pages.
Defined.



End PoolAndScanExamples.

(** ** The Redis service: shutdown *)

Section LifecycleFacts.
Import Redis RedisKeys RedisLifecycle.
Context {V : Type} `{Json V}.

Lemma clear_destroys (clients : list nat) (l : Lifecycle) :
  clear clients l
  = (Returns tt,
     {| service := service l; quit := quit l ++ clients;
        notices := notices l
                   ++ map (fun _ => (info, ClientDestroyed)) clients |}).
Proof.
  revert l. induction clients as [|c rest IH]; intros l.
  - simpl. rewrite !app_nil_r. by destruct l.
  - simpl. unfold and_then, destroy. rewrite IH. simpl.
    by rewrite <- !app_assoc.
Qed.

Lemma lends_unborrowed (s : Service) (p : Pool) :
  pool s = Some p -> borrowed p = [] -> lends s.
Proof.
  intros Hp Hb. unfold lends, initPool. rewrite Hp. simpl.
  unfold acquire. rewrite Hp, Hb.
  destruct (idle p); by eexists _, _.
Qed.

Lemma lends_unbuilt (s : Service) :
  pool s = None -> initPromise s = false -> lends s.
Proof.
  destruct s as [p i st cm lg n]. simpl. intros -> ->. by eexists _, _.
Qed.

(** X23. [shutdown] ends the pool and nothing else: with a pool whose
    clients are all idle, it returns after telling each client once to
    quit, logs one line per client and the final one, forgets the pool
    and its creation, and leaves the keys of the server alone; a second
    [shutdown] then does nothing at all, and the next [get] finds a
    service that builds its pool anew and answers what it would have
    answered before the shutdown. *)
Theorem shutdown_ends_the_pool_only (l : Lifecycle) (p : Pool)
    (key : string) :
  pool (service l) = Some p ->
  borrowed p = [] ->
  fst (shutdown l) = Returns tt
  /\ quit (snd (shutdown l)) = quit l ++ idle p
  /\ notices (snd (shutdown l))
     = notices l ++ map (fun _ => (info, ClientDestroyed)) (idle p)
         ++ [(info, ShutdownComplete)]
  /\ pool (service (snd (shutdown l))) = None
  /\ initPromise (service (snd (shutdown l))) = false
  /\ store (service (snd (shutdown l))) = store (service l)
  /\ shutdown (snd (shutdown l)) = (Returns tt, snd (shutdown l))
  /\ lends (service (snd (shutdown l)))
  /\ fst (lift (get (V:=V) key) (snd (shutdown l)))
     = fst (lift (get (V:=V) key) l).
Proof.
  intros Hp Hb. unfold shutdown. rewrite Hp.
  unfold and_then at 1, drain. rewrite Hb.
  unfold and_then. rewrite clear_destroys. simpl.
  split; [done|]. split; [done|]. split; [by rewrite <- app_assoc|].
  split; [done|]. split; [done|]. split; [done|]. split; [done|].
  assert (Hl : lends (set_initPromise false (set_pool None (service l))))
    by by apply lends_unbuilt.
  split; [done|].
  destruct (get_returns (V:=V) key _ Hl) as (_ & _ & _ & ->).
  destruct (get_returns (V:=V) key _ (lends_unborrowed _ _ Hp Hb))
    as (_ & _ & _ & ->).
  done.
Qed.

End LifecycleFacts.

Section LifecycleExamples.
Import Redis RedisKeys RedisLifecycle.

Lemma shutdown_ends_the_pool_only_witness :
  let l := started (snd (get (V:=bool) "ok" (RedisService sample_keys))) in
  fst (shutdown l) = Returns tt
  /\ quit (snd (shutdown l)) = quit l ++ idle (mkPool [2; 1] [])
  /\ notices (snd (shutdown l))
     = notices l
       ++ map (fun _ => (info, ClientDestroyed)) (idle (mkPool [2; 1] []))
         ++ [(info, ShutdownComplete)]
  /\ pool (service (snd (shutdown l))) = None
  /\ initPromise (service (snd (shutdown l))) = false
  /\ store (service (snd (shutdown l))) = store (service l)
  /\ shutdown (snd (shutdown l)) = (Returns tt, snd (shutdown l))
  /\ lends (service (snd (shutdown l)))
  /\ fst (lift (get (V:=bool) "ok") (snd (shutdown l)))
     = fst (lift (get (V:=bool) "ok") l).
Proof.
  apply (shutdown_ends_the_pool_only (V:=bool)
           (started (snd (get (V:=bool) "ok" (RedisService sample_keys))))
           (mkPool [2; 1] []) "ok").
  - vm_compute. reflexivity.
  - reflexivity.
Defined.

End LifecycleExamples.

(** ** The single instances *)

Section SingletonFacts.
Import RedisSingleton.
Variables Settings ConnectionStatus Logger : Type.
Variable defaultLogger : Logger.

Lemma init_all_constructed
    (calls : list (InitCall Settings ConnectionStatus Logger))
    (i : RedisService Settings ConnectionStatus Logger) (lock : bool) :
  init_all defaultLogger calls {| instance := Some i; initLock := lock |}
  = {| instance := Some i; initLock := lock |}.
Proof. induction calls as [|call calls IH]; [done|]. simpl. apply IH. Qed.

Lemma init_all_incomplete
    (calls : list (InitCall Settings ConnectionStatus Logger)) :
  Forall (fun call => complete call = false) calls ->
  init_all defaultLogger calls loaded = loaded.
Proof.
  induction 1 as [|[[o cb] lg] calls Hcall _ IH]; [done|].
  simpl. by destruct o as [o|], cb as [cb|].
Qed.

(** X24. The first complete [init] decides: while the calls of [init]
    made on the class as loaded lacked the options or the callbacks,
    [getInstance] throws and so does a further [init] without options;
    after the first call that brings both, whatever calls follow,
    [getInstance] returns the service built from that call, with the
    built-in retry strategy in place of the caller's and the console
    logger when the call brought none, and every further [init] returns
    without effect, whatever it brings. *)
Theorem first_complete_init_decides
    (before after : list (InitCall Settings ConnectionStatus Logger))
    (o : RedisOptions Settings) (cb : ConnectionStatus)
    (lg : option Logger) :
  Forall (fun call => complete call = false) before ->
  let unset := init_all defaultLogger before loaded in
  let set := init_all defaultLogger
               (before ++ (Some o, Some cb, lg) :: after) loaded in
  (getInstance unset = inl NotInitialized
   /\ forall cb' lg',
        init defaultLogger None cb' lg' unset
        = (inl MustBeInitializedWithOptions, unset))
  /\ (getInstance set
      = inr {| options := {| retryStrategy := Some RedisKeys.retryStrategy;
                             settings := settings o |};
               callback := cb;
               logger := default defaultLogger lg |}
      /\ forall o' cb' lg', init defaultLogger o' cb' lg' set = (inr tt, set)).
Proof.
  intros Hbefore unset set.
  assert (Hunset : unset = loaded) by by apply init_all_incomplete.
  assert (Hset : set = {| instance := Some (new defaultLogger o cb lg);
                          initLock := true |}).
  { unfold set, RedisSingleton.init_all. rewrite foldl_app.
    fold (init_all defaultLogger before loaded).
    rewrite init_all_incomplete by done.
    simpl. apply init_all_constructed. }
  rewrite Hunset, Hset. done.
Qed.

End SingletonFacts.

Section LoggerFacts.
Import Logging.

Lemma getInstance_all_built (calls : list (option LoggerOptions))
    (logger : Logger) :
  getInstance_all calls (Some logger) = Some logger.
Proof. induction calls as [|call calls IH]; [done|]. simpl. apply IH. Qed.

(** X25. The logger is configured once: after any sequence of
    [Logger.getInstance] calls, the logger is the one built from the
    first options that were passed, options passed later are ignored,
    and a call without options returns that logger, or throws while no
    call has brought options. *)
Theorem logger_is_configured_once (calls : list (option LoggerOptions))
    (later : option LoggerOptions) :
  getInstance_all calls None = new <$> head (omap id calls)
  /\ fst (getInstance later (getInstance_all calls None))
     = match head (omap id calls), later with
       | Some first, _ => inr (new first)
       | None, Some o => inr (new o)
       | None, None => inl MustBeInitializedWithOptions
       end.
Proof.
  assert (Hall : getInstance_all calls None = new <$> head (omap id calls)).
  { induction calls as [|[o|] calls IH]; [done| |done].
    simpl. apply getInstance_all_built. }
  split; [done|]. rewrite Hall.
  destruct (head (omap id calls)); [done|]. by destruct later.
Qed.

End LoggerFacts.

Section SingletonExamples.
Import RedisSingleton.

Lemma first_complete_init_decides_witness :
  let before : list (InitCall unit nat string) :=
    [(None, Some 1, None);
     (Some (mkRedisOptions (Some (fun _ => Some 5%Z)) tt), None, None)] in
  let first := mkRedisOptions (Some (fun _ => Some 5%Z)) tt in
  let after : list (InitCall unit nat string) :=
    [(Some (mkRedisOptions None tt), Some 3, Some "mine")] in
  let unset := init_all "console" before loaded in
  let set := init_all "console"
               (before ++ (Some first, Some 2, None) :: after) loaded in
  (getInstance unset = inl NotInitialized
   /\ forall cb' lg',
        init "console" None cb' lg' unset
        = (inl MustBeInitializedWithOptions, unset))
  /\ (getInstance set
      = inr {| options := {| retryStrategy := Some RedisKeys.retryStrategy;
                             settings := settings first |};
               callback := 2;
               logger := default "console" None |}
      /\ forall o' cb' lg', init "console" o' cb' lg' set = (inr tt, set)).
Proof.
  apply (first_complete_init_decides unit nat string "console").
  repeat constructor.
Defined.

End SingletonExamples.

(** ** The wrapper: errors and a base interval of zero *)

Section EdgeFacts.
Import Mqtt.

Lemma on_error_fields (w : Wrapper) :
  timers (on_error w)
  = match connectionTimeoutId w with
    | Some id => filter (fun t => fst t <> id) (timers w)
    | None => timers w
    end
  /\ client (on_error w) = client w
  /\ reconnectTimeoutId (on_error w) = reconnectTimeoutId w
  /\ reconnect_waits (effects (on_error w)) = reconnect_waits (effects w).
Proof.
  destruct w as [cl ri mi cur ct eh [c1 c2 c3 c4 c5 []] rid [cid|] flag tm nid pe eff];
    unfold on_error, notify, clearTimeout, emit; simpl;
    rewrite ?reconnect_waits_app; simpl; rewrite ?app_nil_r; done.
Qed.

(** X26. An error event before the connect event cancels the connection
    timeout and does nothing else about the connection: the transport is
    kept although it is not connected, the pending timers are those from
    before the [connect] and no reconnect is scheduled, so that only a
    close event of the transport itself can bring a new attempt. *)
Theorem error_event_leaves_attempt_unwatched (w : Wrapper) :
  timers_fresh w ->
  timers (on_error (connect w)) = timers w
  /\ client (on_error (connect w)) = client (connect w)
  /\ isConnected (on_error (connect w)) = false
  /\ reconnectTimeoutId (on_error (connect w)) = reconnectTimeoutId (connect w)
  /\ reconnect_waits (effects (on_error (connect w)))
     = reconnect_waits (effects w).
Proof.
  intros Hfresh.
  destruct (connect_timers w) as (Htm & Hcid & _ & Hcl & _ & _ & _ & Hwaits).
  destruct (on_error_fields (connect w)) as (Htm' & Hcl' & Hrid & Hwaits').
  split.
  { rewrite Htm', Hcid, Htm.
    apply filter_fresh_timer. eapply timers_older; [|exact Hfresh]. lia. }
  split; [done|]. split.
  { unfold isConnected. by rewrite Hcl', Hcl. }
  split; [done|]. by rewrite Hwaits'.
Qed.

Lemma fail_iter_zero (w : Wrapper) (k : nat) :
  currentReconnectInterval w = 0%Z ->
  (0 <= maxReconnectInterval w)%Z ->
  isExplicitlyDisconnected w = false ->
  timers_fresh w ->
  let w' := Nat.iter k fail_once w in
  reconnect_waits (effects w') = reconnect_waits (effects w) ++ repeat 0%Z k
  /\ currentReconnectInterval w' = 0%Z
  /\ maxReconnectInterval w' = maxReconnectInterval w
  /\ isExplicitlyDisconnected w' = false
  /\ timers_fresh w'.
Proof.
  intros Hcur Hmax Hflag Hfresh. induction k as [|k IH]; simpl.
  - by rewrite app_nil_r.
  - destruct IH as (Hwaits & Hcur' & Hmax' & Hflag' & Hfresh').
    destruct (fail_once_backoff _ Hflag' Hfresh')
      as (-> & -> & _ & -> & ? & ?).
    rewrite Hwaits, Hcur', Hmax'.
    split; [by rewrite repeat_cons, app_assoc|].
    split; [lia|done].
Qed.

(** X27. A base interval of zero is taken as given and is never backed
    off from: a wrapper constructed with [reconnectInterval: 0] and a cap
    that is not negative schedules every reconnection attempt, however
    many fail in a row, with a wait of 0 ms. *)
Theorem zero_base_interval_never_backs_off (mi ct : option Z)
    (cb : ConnectionStatus) (k : nat) :
  (0 <= default 30000 mi)%Z ->
  let w := connect (MqttClientWrapper (Some 0%Z) mi ct cb) in
  reconnect_waits (effects (Nat.iter k fail_once w)) = repeat 0%Z k
  /\ currentReconnectInterval (Nat.iter k fail_once w) = 0%Z.
Proof.
  intros Hmax w.
  destruct (connect_timers (MqttClientWrapper (Some 0%Z) mi ct cb))
    as (_ & _ & _ & _ & Hflag & _ & Hcur & Hwaits).
  destruct (connect_intervals (MqttClientWrapper (Some 0%Z) mi ct cb))
    as (_ & Hcap & _).
  assert (Hfresh : timers_fresh w)
    by apply connect_timers_fresh, MqttClientWrapper_timers_fresh.
  assert (Hmax' : (0 <= maxReconnectInterval w)%Z)
    by (unfold w; by rewrite Hcap).
  destruct (fail_iter_zero w k Hcur Hmax' Hflag Hfresh) as (-> & -> & _).
  unfold w. by rewrite Hwaits.
Qed.

Lemma error_event_leaves_attempt_unwatched_witness :
  let w := MqttClientWrapper None None None every_callback in
  timers (on_error (connect w)) = timers w
  /\ client (on_error (connect w)) = client (connect w)
  /\ isConnected (on_error (connect w)) = false
  /\ reconnectTimeoutId (on_error (connect w)) = reconnectTimeoutId (connect w)
  /\ reconnect_waits (effects (on_error (connect w)))
     = reconnect_waits (effects w).
Proof.
  intros w. apply (error_event_leaves_attempt_unwatched w). constructor.
Defined.

Lemma zero_base_interval_never_backs_off_witness :
  let w := connect (MqttClientWrapper (Some 0%Z) None None every_callback) in
  reconnect_waits (effects (Nat.iter 5 fail_once w)) = repeat 0%Z 5
  /\ currentReconnectInterval (Nat.iter 5 fail_once w) = 0%Z.
Proof.
  apply (zero_base_interval_never_backs_off None None every_callback 5).
  simpl. lia.
Defined.

End EdgeFacts.

(** ** The wrapper: the transport that [connect] replaces *)

Section ReplacedTransportFacts.
Import Mqtt.

Lemma replaced_transport_closed_reachable :
  reachable replaced_transport_closed.
Proof.
  unfold replaced_transport_closed.
  apply reachable_run, reachable_connect, reachable_new.
Qed.

(** C2. The reconnection of the program does not wait as the backoff
    intends. [connect] ends the transport it replaces and leaves its
    listeners attached, so that the end of that transport is one more
    close event and sets one more reconnect timer. With the default
    options (base 1000 ms, cap 30000 ms), after the first connection
    failed and the second failed as well, two reconnect timers are
    pending and the waits set so far are 1000, 2000 and 2000: the third
    reconnection attempt comes after 2000 ms, not after
    [min (1000 * 2^2) 30000 = 4000]. Both timers then run, each doubling
    the interval, and the next waits are 8000 and 8000. *)
Theorem replaced_transport_repeats_the_wait :
  let w := replaced_transport_closed in
  reachable w
  /\ reconnect_waits (effects w) = [1000; 2000; 2000]%Z
  /\ filter (fun t => snd t = ReconnectTimer) (timers w)
     = [(6, ReconnectTimer); (7, ReconnectTimer)]
  /\ Z.min (1000 * 2 ^ (3 - 1)) 30000 = 4000%Z
  /\ reconnect_waits
       (effects (run [EvTimer 6; EvTimer 7; EvClose; EvClose] w))
     = [1000; 2000; 2000; 8000; 8000]%Z.
Proof.
  split; [apply replaced_transport_closed_reachable|].
  vm_compute. repeat split.
Qed.

(** C7. [disconnect] does not stop the reconnection. The wrapper
    remembers one reconnect timer, the last it set, and [disconnect]
    cancels that one. After one ordinary reconnection two are pending:
    [disconnect] sets the flag, cancels the timer 7 and leaves the
    timer 6, and when that one runs it calls [connect], which takes the
    flag back and opens a connection; the close event of that connection
    then sets a reconnect timer as if [disconnect] had not been called. *)
Theorem disconnect_leaves_a_reconnect_timer :
  let w := replaced_transport_closed in
  reachable w
  /\ reconnectTimeoutId w = Some 7
  /\ filter (fun t => snd t = ReconnectTimer) (timers w)
     = [(6, ReconnectTimer); (7, ReconnectTimer)]
  /\ isExplicitlyDisconnected (disconnect w) = true
  /\ filter (fun t => snd t = ReconnectTimer) (timers (disconnect w))
     = [(6, ReconnectTimer)]
  /\ isExplicitlyDisconnected (run [EvTimer 6] (disconnect w)) = false
  /\ reconnect_attempts (effects (run [EvTimer 6] (disconnect w)))
     = reconnect_attempts (effects (disconnect w)) ++ [MqttConnect 8]
  /\ reconnect_attempts
       (effects (run [EvTimer 6; EvEndCompleted; EvClose] (disconnect w)))
     = reconnect_attempts (effects (disconnect w))
       ++ [MqttConnect 8; SetTimeout 10 ReconnectTimer 4000].
Proof.
  split; [apply replaced_transport_closed_reachable|].
  vm_compute. repeat split.
Qed.

End ReplacedTransportFacts.
